(** * Personal Vault kernel: event bus, module loader and vault core

    A shallow embedding of the three kernel classes of the repository
    ([EventBus], [ModuleLoader], [VaultCore]) and the properties of their
    behaviour.

    JavaScript runs these classes on one thread with cooperative
    scheduling: an [async] function runs without interruption up to its
    next [await], and other code runs only while it is suspended there.
    The embedding keeps that granularity.  Every public call is a function
    on the state that performs the synchronous prefix of the call, and
    every suspended [async] frame is a piece of data that a later step
    resumes.  Arrays and Sets that the source shares between frames live in
    a store and are addressed by reference, so that an in-place update made
    by one frame is visible to every other frame that holds the
    reference. *)

From Stdlib Require Import ZArith Lia Ascii.
From stdpp Require Import gmap strings list fin_maps sorting.

Local Open Scope Z_scope.
Local Open Scope nat_scope.

Set Default Proof Using "Type".

(** ** Generic list helpers standing for Array.prototype methods *)

(** [Array.prototype.findIndex]: the first index whose element satisfies
    the predicate, [None] standing for the source's [-1]. *)
Fixpoint findIndex {A} (p : A → bool) (l : list A) : option nat :=
  match l with
  | [] => None
  | x :: r => if p x then Some 0 else S <$> findIndex p r
  end.

(** [arr.splice(i, 0, x)]: insert [x] before index [i]. *)
Definition splice_in {A} (i : nat) (x : A) (l : list A) : list A :=
  take i l ++ x :: drop i l.

(** [arr.slice(start)] for an integer [start]: a negative start counts from
    the end, and both cases are clamped to the array. *)
Definition slice_from {A} (start : Z) (l : list A) : list A :=
  let len := Z.of_nat (length l) in
  let k := if (start <? 0)%Z then Z.max (len + start) 0 else Z.min start len in
  drop (Z.to_nat k) l.

(** The last [n] elements of a list. *)
Definition last_n {A} (n : nat) (l : list A) : list A := drop (length l - n) l.

(** [str.includes('*')]. *)
Fixpoint includes_star (s : string) : bool :=
  match s with
  | EmptyString => false
  | String c r => if Ascii.eqb c "*"%char then true else includes_star r
  end.

(** [pattern.replace(/\*/g, '.*')]. *)
Fixpoint replace_star (s : string) : string :=
  match s with
  | EmptyString => EmptyString
  | String c r =>
      if Ascii.eqb c "*"%char then String "."%char (String "*"%char (replace_star r))
      else String c (replace_star r)
  end.

(** ** The event bus *)

Module EventBus.

(** The first argument of [emit] is not checked by the source, so it ranges
    over JavaScript values.  A string is [TStr]; [TOther r] is any other
    value that has a string conversion, [r] being the text [String(value)]
    yields for it (the number 42 is [TOther "42"], [undefined] is
    [TOther "undefined"]). *)
Inductive evtype :=
  | TStr (s : string)
  | TOther (repr : string).

Definition type_text (t : evtype) : string :=
  match t with TStr s => s | TOther r => r end.

Global Instance evtype_eq_dec : EqDecision evtype.
Proof. solve_decision. Defined.

(** [config] of a subscription.  The source draws [id] from the clock and
    a random number, to be unique; the model draws it from a counter, so the
    id is also the registration sequence number. *)
Record config := Config {
  once : bool;
  priority : Z;
  module : string;
  id : nat
}.

(** An entry of an exact-pattern bucket, [{ callback, config }].  A callback
    is a function object; the model keeps its identity only. *)
Record listener := Listener {
  callback : nat;
  lconfig : config
}.

(** An entry of the wildcard Set, [{ pattern, callback, config }]. *)
Record wildcard := Wildcard {
  pattern : string;
  wcallback : nat;
  wconfig : config
}.

(** The [options] argument of [on], after the source's defaulting
    ([options.once || false], [options.priority || 0],
    [options.module || 'unknown']). *)
Record options := Options {
  o_once : bool;
  o_priority : Z;
  o_module : string
}.

Definition default_options : options := Options false 0%Z "unknown".

(** What an invoked callback eventually yields to the awaiting emission: a
    value, or an error (thrown synchronously or through a rejected
    promise). *)
Inductive outcome :=
  | Returns (v : nat)
  | Throws (e : nat).

(** Payload of an emission; the two structured cases are the diagnostic
    payloads the bus builds itself. *)
Inductive payload :=
  | PNull
  | PData (d : nat)
  | PListenerErrors (original : evtype) (errors : list (config * nat)) (eventId : nat)
  | PCritical (original : evtype) (eventId : nat).

(** The event record pushed on the history (the wall-clock [timestamp] is
    left out). *)
Record envelope := Envelope {
  ev_type : evtype;
  ev_data : payload;
  ev_id : nat;
  ev_source : string
}.

(** A suspended or settled call of the [async] method [emit].

    - [AwaitExact arr idx cur rm]: suspended in the first loop at
      [await this.executeListener(listener, eventData)]; [arr] is the
      reference held by the local [listeners] ([None] for the fresh [[]]
      of [this.events.get(eventType) || []]), [idx] the position of the
      array iterator, [cur] the local [listener], [rm] the local
      [listenersToRemove].
    - [AwaitWild ws idx cur]: suspended in the wildcard loop; [ws] is the
      Set object being iterated.
    - [Resolved]: returned [results].
    - [Rejected]: rethrew from the outer [catch]. *)
Inductive estate :=
  | AwaitExact (arr : option nat) (idx : nat) (cur : listener) (rm : list listener)
  | AwaitWild (ws : nat) (idx : nat) (cur : wildcard)
  | Resolved
  | Rejected.

Record emission := Emission {
  e_type : evtype;
  e_id : nat;
  e_results : list nat;
  e_errors : list (config * nat);
  e_state : estate
}.

(** The bus.  [arrays] and [wsets] are the stores of Array and Set
    objects, a reference being an index; [events] maps an event name to
    the reference of its bucket and [wildcardListeners] is the reference of
    the current Set.  [emissions] holds every [emit] call made so far, the
    index being the call's identity.  [calls] is a record of the callback
    invocations, oldest first, as pairs of the emission and the listener
    id; the source has no such field.  Statistics and debug output are left
    out. *)
Record bus := Bus {
  arrays : list (list listener);
  wsets : list (list wildcard);
  events : gmap string nat;
  wildcardListeners : nat;
  eventHistory : list envelope;
  nextListener : nat;
  nextEvent : nat;
  emissions : list emission;
  timers : list (evtype * nat);
  calls : list (nat * nat)
}.

Definition maxHistorySize : nat := 100.

(** [new EventBus()]: an empty Map, an empty Set, an empty history. *)
Definition init : bus :=
  Bus [] [[]] ∅ 0 [] 0 0 [] [] [].

Definition set_arrays (f : list (list listener) → list (list listener)) (s : bus) : bus :=
  Bus (f (arrays s)) (wsets s) (events s) (wildcardListeners s) (eventHistory s)
      (nextListener s) (nextEvent s) (emissions s) (timers s) (calls s).

Definition set_wsets (f : list (list wildcard) → list (list wildcard)) (s : bus) : bus :=
  Bus (arrays s) (f (wsets s)) (events s) (wildcardListeners s) (eventHistory s)
      (nextListener s) (nextEvent s) (emissions s) (timers s) (calls s).

Definition set_events (f : gmap string nat → gmap string nat) (s : bus) : bus :=
  Bus (arrays s) (wsets s) (f (events s)) (wildcardListeners s) (eventHistory s)
      (nextListener s) (nextEvent s) (emissions s) (timers s) (calls s).

Definition set_wildcardListeners (r : nat) (s : bus) : bus :=
  Bus (arrays s) (wsets s) (events s) r (eventHistory s)
      (nextListener s) (nextEvent s) (emissions s) (timers s) (calls s).

Definition set_eventHistory (h : list envelope) (s : bus) : bus :=
  Bus (arrays s) (wsets s) (events s) (wildcardListeners s) h
      (nextListener s) (nextEvent s) (emissions s) (timers s) (calls s).

Definition set_nextListener (n : nat) (s : bus) : bus :=
  Bus (arrays s) (wsets s) (events s) (wildcardListeners s) (eventHistory s)
      n (nextEvent s) (emissions s) (timers s) (calls s).

Definition set_nextEvent (n : nat) (s : bus) : bus :=
  Bus (arrays s) (wsets s) (events s) (wildcardListeners s) (eventHistory s)
      (nextListener s) n (emissions s) (timers s) (calls s).

Definition set_emissions (f : list emission → list emission) (s : bus) : bus :=
  Bus (arrays s) (wsets s) (events s) (wildcardListeners s) (eventHistory s)
      (nextListener s) (nextEvent s) (f (emissions s)) (timers s) (calls s).

Definition set_timers (f : list (evtype * nat) → list (evtype * nat)) (s : bus) : bus :=
  Bus (arrays s) (wsets s) (events s) (wildcardListeners s) (eventHistory s)
      (nextListener s) (nextEvent s) (emissions s) (f (timers s)) (calls s).

Definition set_calls (f : list (nat * nat) → list (nat * nat)) (s : bus) : bus :=
  Bus (arrays s) (wsets s) (events s) (wildcardListeners s) (eventHistory s)
      (nextListener s) (nextEvent s) (emissions s) (timers s) (f (calls s)).

(** Dereferencing.  A dangling reference reads as the empty array; no
    reachable state has one. *)
Definition array_at (s : bus) (r : nat) : list listener := default [] (arrays s !! r).
Definition wset_at (s : bus) (r : nat) : list wildcard := default [] (wsets s !! r).

(** The bucket registered for an event name, [this.events.get(name)]. *)
Definition bucket (s : bus) (name : string) : option (list listener) :=
  array_at s <$> events s !! name.

(** *** [on] *)

(** The position at which [on] places a listener of priority [p]:
    [listeners.findIndex(l => l.config.priority < config.priority)], then
    [push] when there is none and [splice] otherwise. *)
Definition place (l : listener) (ls : list listener) : list listener :=
  match findIndex (λ x, (priority (lconfig x) <? priority (lconfig l))%Z) ls with
  | None => ls ++ [l]
  | Some i => splice_in i l ls
  end.

(** [on(eventType, callback, options)].  [callback] is [None] when the
    argument is not a function.  The result is [None] when the source
    throws.  A wildcard subscription is added to the current Set in place;
    an exact one is placed into the bucket array in place, after the bucket
    was created if it did not exist. *)
Definition on (eventType : evtype) (cb : option nat) (o : options) (s : bus) : option bus :=
  match eventType, cb with
  | TStr name, Some f =>
      let cfg := Config (o_once o) (o_priority o) (o_module o) (nextListener s) in
      let s := set_nextListener (S (nextListener s)) s in
      if includes_star name then
        let r := wildcardListeners s in
        Some (set_wsets (λ h, <[r := wset_at s r ++ [Wildcard name f cfg]]> h) s)
      else
        let '(r, s) :=
          match events s !! name with
          | Some r => (r, s)
          | None =>
              let r := length (arrays s) in
              (r, set_events (λ m, <[name := r]> m) (set_arrays (λ h, h ++ [[]]) s))
          end in
        Some (set_arrays (λ h, <[r := place (Listener f cfg) (array_at s r)]> h) s)
  | _, _ => None
  end.

(** *** [off] *)

(** [off(eventType, callback)].  Both branches build a new collection with
    [filter] and install it; the previous Array or Set object is left as it
    was. *)
Definition off (name : string) (f : nat) (s : bus) : bus :=
  if includes_star name then
    let kept := filter (λ w, ¬ (pattern w = name ∧ wcallback w = f)) (wset_at s (wildcardListeners s)) in
    set_wildcardListeners (length (wsets s)) (set_wsets (λ h, h ++ [kept]) s)
  else
    match events s !! name with
    | Some r =>
        let filtered := filter (λ l, callback l ≠ f) (array_at s r) in
        if decide (length filtered = 0) then set_events (λ m, delete name m) s
        else set_events (λ m, <[name := length (arrays s)]> m)
                        (set_arrays (λ h, h ++ [filtered]) s)
    | None => s
    end.

(** *** [emit] *)

Section Emission.

(** The regular-expression engine of the host: [regex_test src text] is
    [None] when [new RegExp(src)] throws a SyntaxError and otherwise the
    result of [.test(text)]. *)
Variable regex_test : string → string → option bool.

(** [matchesWildcard(eventType, pattern)]; [None] when it throws. *)
Definition matchesWildcard (eventType : evtype) (pat : string) : option bool :=
  regex_test ("^" +:+ replace_star pat +:+ "$") (type_text eventType).

(** The recursive call [this.emit('system:error', data)] of the source; the
    knot is tied in [emit_at] below. *)
Variable spawn : evtype → payload → bus → bus.

Definition with_state (e : emission) (st : estate) : emission :=
  Emission (e_type e) (e_id e) (e_results e) (e_errors e) st.

Definition add_result (e : emission) (v : nat) : emission :=
  Emission (e_type e) (e_id e) (e_results e ++ [v]) (e_errors e) (e_state e).

Definition add_error (e : emission) (c : config) (x : nat) : emission :=
  Emission (e_type e) (e_id e) (e_results e) (e_errors e ++ [(c, x)]) (e_state e).

Definition put (k : nat) (e : emission) (s : bus) : bus :=
  set_emissions (λ es, <[k := e]> es) s.

(** The callback of a listener is entered: [callback(eventData.data,
    eventData)] in [executeListener]. *)
Definition call (k : nat) (c : config) (s : bus) : bus :=
  set_calls (λ cs, cs ++ [(k, id c)]) s.

(** The array behind the local [listeners]. *)
Definition list_of (s : bus) (arr : option nat) : list listener :=
  match arr with Some r => array_at s r | None => [] end.

(** [listenersToRemove.includes(l)] compares object identities; every
    listener object has its own id. *)
Definition includes (rm : list listener) (l : listener) : Prop :=
  id (lconfig l) ∈ (id ∘ lconfig <$> rm).

Global Instance includes_dec rm l : Decision (includes rm l).
Proof. unfold includes. apply _. Defined.

(** The block after the first loop: when [listenersToRemove] is not empty,
    the bucket is replaced by a filtered copy of [listeners], or deleted. *)
Definition remove_listeners (t : evtype) (arr : option nat) (rm : list listener) (s : bus) : bus :=
  match rm, t with
  | _ :: _, TStr name =>
      let remaining := filter (λ l, ¬ includes rm l) (list_of s arr) in
      if decide (length remaining = 0) then set_events (λ m, delete name m) s
      else set_events (λ m, <[name := length (arrays s)]> m)
                      (set_arrays (λ h, h ++ [remaining]) s)
  | _, _ => s
  end.

(** The tail of [emit]: the diagnostic emission when a listener failed,
    then [return results]. *)
Definition finish (k : nat) (e : emission) (s : bus) : bus :=
  let s :=
    match e_errors e with
    | [] => s
    | _ :: _ =>
        if decide (e_type e = TStr "system:error") then s
        else spawn (TStr "system:error") (PListenerErrors (e_type e) (e_errors e) (e_id e)) s
    end in
  put k (with_state e Resolved) s.

(** The outer [catch]: a deferred [system:error] report, then [throw]. *)
Definition critical (k : nat) (e : emission) (s : bus) : bus :=
  let s := if decide (e_type e = TStr "system:error") then s
           else set_timers (λ ts, ts ++ [(e_type e, e_id e)]) s in
  put k (with_state e Rejected) s.

Inductive scan :=
  | ScanHit (idx : nat) (w : wildcard)
  | ScanEnd
  | ScanThrow.

(** The Set iterator from position [idx] on, up to the first entry whose
    pattern matches. *)
Fixpoint scan_wild (t : evtype) (ws : list wildcard) (idx : nat) : scan :=
  match ws with
  | [] => ScanEnd
  | w :: rest =>
      match matchesWildcard t (pattern w) with
      | None => ScanThrow
      | Some true => ScanHit idx w
      | Some false => scan_wild t rest (S idx)
      end
  end.

(** The wildcard loop from iterator position [idx] on: it runs up to the
    next [await] or to the end of [emit]. *)
Definition next_wild (k : nat) (e : emission) (ws idx : nat) (s : bus) : bus :=
  match scan_wild (e_type e) (drop idx (wset_at s ws)) idx with
  | ScanHit i w => put k (with_state e (AwaitWild ws i w)) (call k (wconfig w) s)
  | ScanEnd => finish k e s
  | ScanThrow => critical k e s
  end.

(** The first loop from iterator position [idx] on.  The array iterator
    reads the array as it is now: [idx] is compared with the current
    length. *)
Definition next_exact (k : nat) (e : emission) (arr : option nat) (idx : nat)
    (rm : list listener) (s : bus) : bus :=
  match list_of s arr !! idx with
  | Some l => put k (with_state e (AwaitExact arr idx l rm)) (call k (lconfig l) s)
  | None =>
      let s := remove_listeners (e_type e) arr rm s in
      next_wild k e (wildcardListeners s) 0 s
  end.

(** The head of [emit(eventType, data, options)]: the event record goes on
    the history, which drops its oldest record when it has grown beyond
    [maxHistorySize]; the call gets its place in [emissions]. *)
Definition log_event (t : evtype) (d : payload) (source : string) (s : bus) : bus :=
  let eid := nextEvent s in
  let s := set_nextEvent (S eid) s in
  let h := eventHistory s ++ [Envelope t d eid source] in
  let h := if decide (maxHistorySize < length h) then drop 1 h else h in
  let s := set_eventHistory h s in
  set_emissions (λ es, es ++ [Emission t eid [] [] Resolved]) s.

(** [this.events.get(eventType)]: the Map holds string keys only. *)
Definition bucket_ref (s : bus) (t : evtype) : option nat :=
  match t with TStr name => events s !! name | TOther _ => None end.

(** The synchronous prefix of [emit]: after the head, the first loop starts
    on the array that [this.events.get(eventType)] returns at this
    moment. *)
Definition start (t : evtype) (d : payload) (source : string) (s : bus) : bus :=
  next_exact (length (emissions s)) (Emission t (nextEvent s) [] [] Resolved)
             (bucket_ref s t) 0 [] (log_event t d source s).

(** The continuation of emission [k] after its [await]: the awaited
    listener yielded [o]. *)
Definition resume_with (k : nat) (o : outcome) (s : bus) : bus :=
  match emissions s !! k with
  | Some e =>
      match e_state e, o with
      | AwaitExact arr idx cur rm, Returns v =>
          let rm := if once (lconfig cur) then rm ++ [cur] else rm in
          next_exact k (add_result e v) arr (S idx) rm s
      | AwaitExact arr idx cur rm, Throws x =>
          next_exact k (add_error e (lconfig cur) x) arr (S idx) rm s
      | AwaitWild ws idx cur, Returns v =>
          next_wild k (add_result e v) ws (S idx) s
      | AwaitWild ws idx cur, Throws x =>
          next_wild k (add_error e (wconfig cur) x) ws (S idx) s
      | _, _ => s
      end
  | None => s
  end.

End Emission.

Section Bus.

Variable regex_test : string → string → option bool.

(** [emit] calls itself for the diagnostic event; [depth] bounds the
    nesting.  The guard on ['system:error'] stops the nesting at the first
    level, and [emit_at_depth] shows that the bound is immaterial. *)
Fixpoint emit_at (depth : nat) (t : evtype) (d : payload) (source : string) (s : bus) : bus :=
  match depth with
  | 0 => s
  | S n => start regex_test (λ t' d' s', emit_at n t' d' "unknown" s') t d source s
  end.

Definition emit : evtype → payload → string → bus → bus := emit_at 1.

(** [this.emit('system:error', data)], as the tail of [emit] calls it. *)
Definition respawn (t : evtype) (d : payload) (s : bus) : bus := emit t d "unknown" s.

Definition resume : nat → outcome → bus → bus :=
  resume_with regex_test respawn.

(** The deferred report of the outer [catch] fires. *)
Definition fire_timer (s : bus) : bus :=
  match timers s with
  | [] => s
  | (t, eid) :: rest =>
      emit (TStr "system:error") (PCritical t eid) "unknown" (set_timers (λ _, rest) s)
  end.

(** What can happen to the bus between two suspension points. *)
Inductive label :=
  | LOn (t : evtype) (cb : option nat) (o : options)
  | LOff (name : string) (f : nat)
  | LEmit (t : evtype) (d : payload) (source : string)
  | LResume (k : nat) (o : outcome)
  | LTimer.

Definition step (s : bus) (a : label) : bus :=
  match a with
  | LOn t cb o => default s (on t cb o s)
  | LOff name f => off name f s
  | LEmit t d source => emit t d source s
  | LResume k o => resume k o s
  | LTimer => fire_timer s
  end.

Definition run (tr : list label) (s : bus) : bus := foldl step s tr.

(** The ids of the listeners that emission [k] has invoked, in order. *)
Definition delivered (k : nat) (s : bus) : list nat :=
  (filter (λ c, c.1 = k) (calls s)).*2.

(** How often the listener with id [i] has been invoked, over all
    emissions. *)
Definition invocations (i : nat) (s : bus) : nat :=
  length (filter (λ c, c.2 = i) (calls s)).

(** One [emit] after the other, awaited or not: only the synchronous
    prefixes touch the history. *)
Definition emit_all (evs : list (evtype * payload)) (s : bus) : bus :=
  foldl (λ s e, emit e.1 e.2 "unknown" s) s evs.

(** [getHistory(limit)]: [this.eventHistory.slice(-limit)]. *)
Definition getHistory (limit : Z) (s : bus) : list envelope :=
  slice_from (- limit)%Z (eventHistory s).

(** *** An emission that runs without interference *)

(** The behaviour of the subscribed functions: what the callback with a
    given identity yields when it is invoked. *)
Variable behaves : nat → outcome.

(** The callback that emission [k] is waiting for, if it is suspended. *)
Definition awaited (s : bus) (k : nat) : option nat :=
  e ← emissions s !! k;
  match e_state e with
  | AwaitExact _ _ cur _ => Some (callback cur)
  | AwaitWild _ _ cur => Some (wcallback cur)
  | Resolved | Rejected => None
  end.

(** Emission [k] is resumed, again and again, with what its listeners
    yield, and nothing else happens in between. *)
Fixpoint drive (fuel k : nat) (s : bus) : bus :=
  match fuel with
  | 0 => s
  | S n =>
      match awaited s k with
      | Some f => drive n k (resume k (behaves f) s)
      | None => s
      end
  end.

(** A bound on the number of resumptions any emission still needs: each
    one consumes an entry of an Array or of a Set of the store. *)
Definition budget (s : bus) : nat :=
  S (sum_list (length <$> arrays s) + sum_list (length <$> wsets s)).

(** Emission [k] runs to its end. *)
Definition complete (k : nat) (s : bus) : bus := drive (budget s) k s.

(** [await emit(t, d)] with nothing else going on: the call and its run to
    the end. *)
Definition publish (t : evtype) (d : payload) (source : string) (s : bus) : bus :=
  complete (length (emissions s)) (emit t d source s).

Definition settled (s : bus) (k : nat) : Prop :=
  ∃ e, emissions s !! k = Some e ∧ (e_state e = Resolved ∨ e_state e = Rejected).

(** The wildcard entries that an undisturbed wildcard loop over [ws]
    invokes for event type [t], and whether the loop ends by a throw of
    [matchesWildcard]. *)
Fixpoint wild_plan (t : evtype) (ws : list wildcard) : list wildcard * bool :=
  match ws with
  | [] => ([], false)
  | w :: rest =>
      match matchesWildcard regex_test t (pattern w) with
      | None => ([], true)
      | Some true => let '(p, b) := wild_plan t rest in (w :: p, b)
      | Some false => wild_plan t rest
      end
  end.

(** The values that a sequence of invoked callbacks contributes to
    [results]: those of the callbacks that return. *)
Definition returned (fs : list nat) : list nat :=
  omap (λ f, match behaves f with Returns v => Some v | Throws _ => None end) fs.

(** The listeners that emission [k] has yet to invoke if nothing
    interferes: the rest of its array, then the plan over the Set that is
    current when the first loop ends; or the rest of the Set it is
    iterating. *)
Definition remaining (s : bus) (k : nat) : list nat :=
  match emissions s !! k with
  | Some e =>
      match e_state e with
      | AwaitExact arr idx _ _ =>
          (id ∘ lconfig <$> drop (S idx) (list_of s arr)) ++
          (id ∘ wconfig <$> (wild_plan (e_type e) (wset_at s (wildcardListeners s))).1)
      | AwaitWild ws idx _ =>
          id ∘ wconfig <$> (wild_plan (e_type e) (drop (S idx) (wset_at s ws))).1
      | Resolved | Rejected => []
      end
  | None => []
  end.

(** The entries of a Set up to the first one whose pattern makes
    [matchesWildcard] throw: as far as the wildcard loop gets. *)
Fixpoint until_throw (t : evtype) (ws : list wildcard) : list wildcard :=
  match ws with
  | [] => []
  | w :: rest =>
      match matchesWildcard regex_test t (pattern w) with
      | None => []
      | Some _ => w :: until_throw t rest
      end
  end.

(** The wildcard entries whose pattern matches event type [t]. *)
Definition matching (t : evtype) (ws : list wildcard) : list wildcard :=
  filter (λ w, matchesWildcard regex_test t (pattern w) = Some true) ws.

End Bus.

(** *** Order of a bucket and invariants of the reachable states *)

(** [before a b]: a listener with config [a] is to run before one with
    config [b]: higher priority first, and by registration on a tie. *)
Definition before (a b : config) : Prop :=
  (priority b < priority a)%Z ∨ (priority a = priority b ∧ id a < id b).

Definition bucket_ordered (ls : list listener) : Prop :=
  StronglySorted (λ a b, before (lconfig a) (lconfig b)) ls.

Definition registration_ordered (ws : list wildcard) : Prop :=
  StronglySorted (λ a b, id (wconfig a) < id (wconfig b)) ws.

(** References held by an emission denote allocated objects. *)
Definition refs_ok (s : bus) (e : emission) : Prop :=
  match e_state e with
  | AwaitExact (Some r) _ _ _ => r < length (arrays s)
  | AwaitWild ws _ _ => ws < length (wsets s)
  | _ => True
  end.

Record wf (s : bus) : Prop := {
  wf_arrays : ∀ ls, ls ∈ arrays s →
    bucket_ordered ls ∧ ∀ l, l ∈ ls → id (lconfig l) < nextListener s;
  wf_wsets : ∀ ws, ws ∈ wsets s →
    registration_ordered ws ∧ ∀ w, w ∈ ws → id (wconfig w) < nextListener s;
  wf_events : ∀ name r, events s !! name = Some r → r < length (arrays s);
  wf_current : wildcardListeners s < length (wsets s);
  wf_emissions : Forall (refs_ok s) (emissions s);
  wf_calls : ∀ c, c ∈ calls s → c.1 < length (emissions s);
  wf_history :
    length (eventHistory s) = nextEvent s `min` maxHistorySize ∧
    ev_id <$> eventHistory s =
      seq (nextEvent s - length (eventHistory s)) (length (eventHistory s))
}.

(** What one call of [emit] or one resumption may change. *)
Record frame (s s' : bus) : Prop := {
  fr_arrays : arrays s' = arrays s ∨
    ∃ (rm : list listener) (arr : option nat),
      arrays s' = arrays s ++ [filter (λ l, ¬ includes rm l) (list_of s arr)];
  fr_wsets : wsets s' = wsets s;
  fr_current : wildcardListeners s' = wildcardListeners s;
  fr_nextListener : nextListener s' = nextListener s;
  fr_events : ∀ name r, events s' !! name = Some r →
    events s !! name = Some r ∨ (r = length (arrays s) ∧ r < length (arrays s'));
  fr_emissions : length (emissions s) ≤ length (emissions s');
  fr_calls : ∀ c, c ∈ calls s' → c ∈ calls s ∨ c.1 < length (emissions s');
  fr_history :
    (eventHistory s' = eventHistory s ∧ nextEvent s' = nextEvent s) ∨
    (∃ env, ev_id env = nextEvent s ∧ nextEvent s' = S (nextEvent s) ∧
       eventHistory s' =
         (if decide (maxHistorySize < length (eventHistory s ++ [env]))
          then drop 1 (eventHistory s ++ [env]) else eventHistory s ++ [env]))
}.

(** The references held by the bus and by its emissions are allocated. *)
Definition good (s : bus) : Prop :=
  (∀ name r, events s !! name = Some r → r < length (arrays s)) ∧
  wildcardListeners s < length (wsets s) ∧
  Forall (refs_ok s) (emissions s).

(** What the synchronous prefix of a call of [emit] changes: one more
    emission, and invocations on its behalf only. *)
Record extends (s s' : bus) : Prop := {
  ext_arrays : arrays s' = arrays s;
  ext_wsets : wsets s' = wsets s;
  ext_events : events s' = events s;
  ext_current : wildcardListeners s' = wildcardListeners s;
  ext_nextListener : nextListener s' = nextListener s;
  ext_emissions : ∃ e, emissions s' = emissions s ++ [e];
  ext_calls : ∃ cs, calls s' = calls s ++ cs ∧ ∀ c, c ∈ cs → c.1 = length (emissions s);
  ext_history : ∃ env, ev_id env = nextEvent s ∧ nextEvent s' = S (nextEvent s) ∧
    eventHistory s' =
      (if decide (maxHistorySize < length (eventHistory s ++ [env]))
       then drop 1 (eventHistory s ++ [env]) else eventHistory s ++ [env])
}.


(** *** Scenarios *)

(** In the scenarios no wildcard listener is subscribed, so the
    regular-expression engine is never consulted. *)
Definition idle_engine : string → string → option bool := λ _ _, None.

(** Callback 1 throws; every other callback returns its own number. *)
Definition first_throws (f : nat) : outcome :=
  if decide (f = 1) then Throws 0 else Returns f.

Definition once_options : options := Options true 0%Z "unknown".

(** [bus.once('P', f)], then [bus.emit('P')] twice in a row, the second
    call made before the first one is resumed. *)
Definition overlap : list label :=
  [LOn (TStr "P") (Some 1) once_options;
   LEmit (TStr "P") PNull "unknown";
   LEmit (TStr "P") PNull "unknown"].

(** [bus.on('P', f)] and a call [bus.emit('P')], suspended at [f]. *)
Definition in_flight : bus :=
  run idle_engine [LOn (TStr "P") (Some 1) default_options;
                   LEmit (TStr "P") PNull "unknown"] init.

(** [bus.on('x', f1); bus.on('x', f2); bus.on('x', f1)]. *)
Definition subscribed_twice : bus :=
  run idle_engine [LOn (TStr "x") (Some 1) default_options;
                   LOn (TStr "x") (Some 2) default_options;
                   LOn (TStr "x") (Some 1) default_options] init.

Definition bucket_x : list listener :=
  [Listener 1 (Config false 0%Z "unknown" 0);
   Listener 2 (Config false 0%Z "unknown" 1);
   Listener 1 (Config false 0%Z "unknown" 2)].

(** *** [removeAllListeners], [clearHistory], [destroy] *)

(** [this.events.clear(); this.wildcardListeners.clear()]: the Map loses
    every key, and the current Set object is emptied in place.  The empty
    list stands for the cleared Set as every loop sees it that starts, or
    is resumed, before the next [add] to this Set; a loop that is
    suspended inside the Set across a [clear] and a later [add] is not
    described by it. *)
Definition clear_listeners (s : bus) : bus :=
  set_wsets (λ h, <[wildcardListeners s := []]> h) (set_events (λ _, ∅) s).

(** [removeAllListeners(eventType)], the argument being absent or a string;
    the empty string is falsy and takes the branch of the absent
    argument. *)
Definition removeAllListeners (eventType : option string) (s : bus) : bus :=
  match eventType with
  | Some name =>
      if decide (name = "") then clear_listeners s
      else
        let s := set_events (λ m, delete name m) s in
        let kept := filter (λ w, pattern w ≠ name) (wset_at s (wildcardListeners s)) in
        set_wildcardListeners (length (wsets s)) (set_wsets (λ h, h ++ [kept]) s)
  | None => clear_listeners s
  end.

(** [clearHistory()]. *)
Definition clearHistory (s : bus) : bus := set_eventHistory [] s.

(** [destroy()]. *)
Definition destroy (s : bus) : bus := clearHistory (removeAllListeners None s).

Definition system_error : evtype := TStr "system:error".

(** The history after one more record. *)
Definition pushed (env : envelope) (h : list envelope) : list envelope :=
  if decide (maxHistorySize < length (h ++ [env])) then drop 1 (h ++ [env]) else h ++ [env].

Section Outcomes.

Variable behaves : nat → outcome.

Definition returns (f : nat) : bool :=
  match behaves f with Returns _ => true | Throws _ => false end.

(** The listeners that an undisturbed first loop over [ls] puts on
    [listenersToRemove]: those with the once flag whose callback
    returned. *)
Definition consumed (ls : list listener) : list listener :=
  filter (λ l, once (lconfig l) = true ∧ returns (callback l) = true) ls.

(** What the failing callbacks of a run of listeners add to [errors]. *)
Definition exact_errors (ls : list listener) : list (config * nat) :=
  omap (λ l, match behaves (callback l) with
             | Throws x => Some (lconfig l, x) | Returns _ => None end) ls.

Definition wild_errors (ws : list wildcard) : list (config * nat) :=
  omap (λ w, match behaves (wcallback w) with
             | Throws x => Some (wconfig w, x) | Returns _ => None end) ws.

End Outcomes.

(** Every listener object of a bucket array has its own id. *)
Definition distinct_ids (s : bus) : Prop :=
  ∀ ls, ls ∈ arrays s → NoDup (id ∘ lconfig <$> ls).

(** No event name is registered with an empty bucket. *)
Definition no_empty_bucket (s : bus) : Prop :=
  ∀ name r, events s !! name = Some r → array_at s r ≠ [].

(** No two event names share one bucket array. *)
Definition own_buckets (s : bus) : Prop :=
  ∀ n1 n2 r, events s !! n1 = Some r → events s !! n2 = Some r → n1 = n2.

(** *** Scenarios with wildcard subscriptions *)

(** An engine that refuses the source ['^(.*$'], whose group is not
    closed, and that matches nothing else. *)
Definition open_group : string → string → option bool :=
  λ src _, if decide (src = "^(.*$") then None else Some false.

(** [bus.on(p, f)] where [p] is an opening parenthesis and a star: a
    wildcard subscription whose pattern does not compile. *)
Definition bad_pattern : bus :=
  run open_group [LOn (TStr "(*") (Some 2) default_options] init.

(** [await bus.emit('x')] on [bad_pattern]: the emission is rejected. *)
Definition rejected_once : bus :=
  publish open_group first_throws (TStr "x") PNull "unknown" bad_pattern.

(** The same subscription and a call of [emit('x')], as a trace. *)
Definition rejected_trace : list label :=
  [LOn (TStr "(*") (Some 2) default_options; LEmit (TStr "x") PNull "unknown"].

(** [bus.on('a*', f1); bus.on('b*', f2)]. *)
Definition two_patterns : list label :=
  [LOn (TStr "a*") (Some 1) default_options;
   LOn (TStr "b*") (Some 2) default_options].

(** [bus.on('x', f1)]. *)
Definition one_listener : list label :=
  [LOn (TStr "x") (Some 1) default_options].

End EventBus.

(** ** The module loader and the vault core *)

Module Kernel.

(** How an instance holds one of the two members the validators inspect:
    not at all, as something that is not a function, or as a function. *)
Inductive slot := Missing | NotCallable | Callable.

(** What [module.init(core, config)] does: throw at once, or return
    something whose [await] yields, or return a promise that rejects. *)
Inductive init_kind := InitThrows | InitResolves | InitRejects.

(** What [module.getAPI()] does: throw, return a falsy value, return an
    object. *)
Inductive api_kind := ApiThrows | ApiNone | ApiObject (a : nat).

(** A module class, as far as loader and core look at its instances.
    [dependencies] is [None] when the member is absent or not an array. *)
Record moduleClass := ModuleClass {
  has_name : bool;
  has_version : bool;
  init_slot : slot;
  getAPI_slot : slot;
  dependencies : option (list string);
  init_behaviour : init_kind;
  getAPI_behaviour : api_kind
}.

(** The result of [new ModuleClass()]: an object with its own identity. *)
Record instance := Instance {
  inst_id : nat;
  inst_class : moduleClass
}.

(** The class that [_getMockModule] builds. *)
Definition MockModule : moduleClass :=
  ModuleClass true true Callable Callable (Some []) InitResolves (ApiObject 0).

Definition is_callable (x : slot) : bool :=
  match x with Callable => true | _ => false end.

Definition is_present (x : slot) : bool :=
  match x with Missing => false | _ => true end.

(** [ModuleLoader._validateModuleInterface]: the four members are present,
    and [init] and [getAPI] are functions. *)
Definition _validateModuleInterface (c : moduleClass) : bool :=
  (has_name c && has_version c && is_present (init_slot c) && is_present (getAPI_slot c))
  && (is_callable (init_slot c) && is_callable (getAPI_slot c)).

(** [VaultCore.validateModuleInterface]: the same checks, one after the
    other. *)
Definition validateModuleInterface (c : moduleClass) : bool :=
  if negb (has_name c && has_version c && is_present (init_slot c) && is_present (getAPI_slot c))
  then false
  else if negb (is_callable (init_slot c)) then false
  else if negb (is_callable (getAPI_slot c)) then false
  else true.

(** What a promise settles with. *)
Inductive value :=
  | VUndefined
  | VBool (b : bool)
  | VInstance (i : instance)
  | VClass (c : moduleClass).

(** The errors the two classes raise: the two [new Error(...)] of the
    loader, the error of a rejected [init], and the host's error for an
    exhausted call stack.  There is no error for a dependency cycle. *)
Inductive error :=
  | InvalidInterface (name : string)
  | FileLoadFailed (name : string)
  | InitFailed
  | RangeError.

Inductive outcome :=
  | Ok (v : value)
  | Err (e : error).

(** A suspended [async] call, named after its [await]; [self] is the
    promise the call has returned.

    - [KOwner]: [loadModule] at [await loadingPromise];
    - [KJoin]: [loadModule] at [await this.loadingPromises.get(moduleName)];
    - [KFile]: [_doLoadModule] at [await this._loadModuleFile(...)];
    - [KDeps]: [_doLoadModule] at [await this._loadDependencies(...)];
    - [KRegister]: [_doLoadModule] at [await this.core.registerModule(...)];
    - [KDep]: [_loadDependencies] at [await this.loadModule(dependency)],
      [rest] being the dependencies the loop has not come to;
    - [KInit]: [registerModule] at [await module.init(this, this.config)]. *)
Inductive kont :=
  | KOwner (name : string) (self : nat)
  | KJoin (name : string) (self : nat)
  | KFile (name : string) (self : nat)
  | KDeps (name : string) (inst : instance) (self : nat)
  | KRegister (name : string) (inst : instance) (self : nat)
  | KDep (rest : list string) (self : nat)
  | KInit (name : string) (inst : instance) (self : nat).

(** A promise: pending, with the continuations that await it in the order
    in which they started to, or settled. *)
Inductive pstate :=
  | Pending (waiters : list kont)
  | Settled (o : outcome).

(** A record of what has happened, for the statements below; the source
    has no such field. *)
Inductive event :=
  | Instantiated (name : string) (i : instance)
  | InitCalled (name : string) (i : instance)
  | Activated (name : string) (i : instance).

(** Loader and core together with the host's promise machinery:
    [promises] is the table of all promises, a promise being its index;
    [microtasks] is the queue of continuations that are ready to run;
    [timers] holds the pending [_loadModuleFile] calls (their promise and
    module name); [inits] the promises returned by [init] hooks that have
    not settled; [attached] says that [this.core] is set. *)
Record kernel := Kernel {
  promises : list pstate;
  microtasks : list (kont * outcome);
  timers : list (nat * string);
  inits : list (nat * instance);
  moduleCache : gmap string moduleClass;
  loadedModules : gmap string instance;
  loadingPromises : gmap string nat;
  attached : bool;
  modules : gmap string instance;
  apis : gmap string nat;
  emitted : list string;
  nextInstance : nat;
  log : list event
}.

(** A new loader, with or without a core. *)
Definition init (core : bool) : kernel :=
  Kernel [] [] [] [] ∅ ∅ ∅ core ∅ ∅ [] 0 [].

Definition set_promises (f : list pstate → list pstate) (s : kernel) : kernel :=
  Kernel (f (promises s)) (microtasks s) (timers s) (inits s) (moduleCache s) (loadedModules s) (loadingPromises s) (attached s) (modules s) (apis s) (emitted s) (nextInstance s) (log s).

Definition set_microtasks (f : list (kont * outcome) → list (kont * outcome)) (s : kernel) : kernel :=
  Kernel (promises s) (f (microtasks s)) (timers s) (inits s) (moduleCache s) (loadedModules s) (loadingPromises s) (attached s) (modules s) (apis s) (emitted s) (nextInstance s) (log s).

Definition set_timers (f : list (nat * string) → list (nat * string)) (s : kernel) : kernel :=
  Kernel (promises s) (microtasks s) (f (timers s)) (inits s) (moduleCache s) (loadedModules s) (loadingPromises s) (attached s) (modules s) (apis s) (emitted s) (nextInstance s) (log s).

Definition set_inits (f : list (nat * instance) → list (nat * instance)) (s : kernel) : kernel :=
  Kernel (promises s) (microtasks s) (timers s) (f (inits s)) (moduleCache s) (loadedModules s) (loadingPromises s) (attached s) (modules s) (apis s) (emitted s) (nextInstance s) (log s).

Definition set_moduleCache (f : gmap string moduleClass → gmap string moduleClass) (s : kernel) : kernel :=
  Kernel (promises s) (microtasks s) (timers s) (inits s) (f (moduleCache s)) (loadedModules s) (loadingPromises s) (attached s) (modules s) (apis s) (emitted s) (nextInstance s) (log s).

Definition set_loadedModules (f : gmap string instance → gmap string instance) (s : kernel) : kernel :=
  Kernel (promises s) (microtasks s) (timers s) (inits s) (moduleCache s) (f (loadedModules s)) (loadingPromises s) (attached s) (modules s) (apis s) (emitted s) (nextInstance s) (log s).

Definition set_loadingPromises (f : gmap string nat → gmap string nat) (s : kernel) : kernel :=
  Kernel (promises s) (microtasks s) (timers s) (inits s) (moduleCache s) (loadedModules s) (f (loadingPromises s)) (attached s) (modules s) (apis s) (emitted s) (nextInstance s) (log s).

Definition set_modules (f : gmap string instance → gmap string instance) (s : kernel) : kernel :=
  Kernel (promises s) (microtasks s) (timers s) (inits s) (moduleCache s) (loadedModules s) (loadingPromises s) (attached s) (f (modules s)) (apis s) (emitted s) (nextInstance s) (log s).

Definition set_apis (f : gmap string nat → gmap string nat) (s : kernel) : kernel :=
  Kernel (promises s) (microtasks s) (timers s) (inits s) (moduleCache s) (loadedModules s) (loadingPromises s) (attached s) (modules s) (f (apis s)) (emitted s) (nextInstance s) (log s).

Definition set_emitted (f : list string → list string) (s : kernel) : kernel :=
  Kernel (promises s) (microtasks s) (timers s) (inits s) (moduleCache s) (loadedModules s) (loadingPromises s) (attached s) (modules s) (apis s) (f (emitted s)) (nextInstance s) (log s).

Definition set_nextInstance (f : nat → nat) (s : kernel) : kernel :=
  Kernel (promises s) (microtasks s) (timers s) (inits s) (moduleCache s) (loadedModules s) (loadingPromises s) (attached s) (modules s) (apis s) (emitted s) (f (nextInstance s)) (log s).

Definition set_log (f : list event → list event) (s : kernel) : kernel :=
  Kernel (promises s) (microtasks s) (timers s) (inits s) (moduleCache s) (loadedModules s) (loadingPromises s) (attached s) (modules s) (apis s) (emitted s) (nextInstance s) (f (log s)).

(** *** Promises *)

(** A new pending promise. *)
Definition new_promise (s : kernel) : nat * kernel :=
  (length (promises s), set_promises (λ ps, ps ++ [Pending []]) s).

(** A pending promise settles: its continuations become microtasks, in
    the order in which they were registered. *)
Definition settle (p : nat) (o : outcome) (s : kernel) : kernel :=
  match promises s !! p with
  | Some (Pending ws) =>
      set_microtasks (λ q, q ++ ((λ k, (k, o)) <$> ws))
        (set_promises (λ ps, <[p := Settled o]> ps) s)
  | _ => s
  end.

(** [await p]: the continuation is registered with a pending promise; for
    a settled one it becomes a microtask at once. *)
Definition await (p : nat) (k : kont) (s : kernel) : kernel :=
  match promises s !! p with
  | Some (Pending ws) => set_promises (λ ps, <[p := Pending (ws ++ [k])]> ps) s
  | Some (Settled o) => set_microtasks (λ q, q ++ [(k, o)]) s
  | None => s
  end.

Definition record (e : event) (s : kernel) : kernel := set_log (λ l, l ++ [e]) s.

(** *** [VaultCore.registerModule] *)

(** The synchronous prefix of [registerModule(name, module)].  Every way
    out of the [try] block other than the last line ends in
    [return false]. *)
Definition registerModule (name : string) (m : instance) (s : kernel) : nat * kernel :=
  let '(self, s) := new_promise s in
  match modules s !! name with
  | Some _ => (self, settle self (Ok (VBool false)) s)
  | None =>
      if validateModuleInterface (inst_class m) then
        let s := record (InitCalled name m) s in
        match init_behaviour (inst_class m) with
        | InitThrows => (self, settle self (Ok (VBool false)) s)
        | InitResolves | InitRejects =>
            let '(p, s) := new_promise s in
            let s := set_inits (λ l, l ++ [(p, m)]) s in
            (self, await p (KInit name m self) s)
        end
      else (self, settle self (Ok (VBool false)) s)
  end.

(** [registerModule] after [await module.init(...)]. *)
Definition registered (name : string) (m : instance) (self : nat) (o : outcome) (s : kernel) : kernel :=
  match o with
  | Ok _ =>
      let s := set_modules (λ ms, <[name := m]> ms) s in
      match getAPI_behaviour (inst_class m) with
      | ApiThrows => settle self (Ok (VBool false)) s
      | ApiNone =>
          settle self (Ok (VBool true)) (set_emitted (λ l, l ++ [name]) s)
      | ApiObject a =>
          settle self (Ok (VBool true))
            (set_emitted (λ l, l ++ [name]) (set_apis (λ m, <[name := a]> m) s))
      end
  | Err _ => settle self (Ok (VBool false)) s
  end.

(** *** [ModuleLoader] *)

Section Loader.

(** The module files: the class that [_loadModuleFile(name)] resolves
    with, or [None] when the file cannot be loaded.  The repository has
    [_getMockModule] in this place, which is [mock_files] below. *)
Variable files : string → option moduleClass.

Section Calls.

(** [this.loadModule], for the calls that [_loadDependencies] makes. *)
Variable load : string → kernel → nat * kernel.

(** The loop of [_loadDependencies] up to its next [await]: the first
    dependency that is not ['core'] and is not loaded, and the ones after
    it. *)
Fixpoint next_dependency (s : kernel) (deps : list string) : option (string * list string) :=
  match deps with
  | [] => None
  | d :: rest =>
      if decide (d ≠ "core" ∧ loadedModules s !! d = None) then Some (d, rest)
      else next_dependency s rest
  end.

Definition dependencies_loop (deps : list string) (self : nat) (s : kernel) : kernel :=
  match next_dependency s deps with
  | None => settle self (Ok VUndefined) s
  | Some (d, rest) =>
      let '(r, s) := load d s in
      await r (KDep rest self) s
  end.

(** The synchronous prefix of [_loadDependencies(moduleInstance)]. *)
Definition _loadDependencies (m : instance) (s : kernel) : nat * kernel :=
  let '(self, s) := new_promise s in
  match dependencies (inst_class m) with
  | None => (self, settle self (Ok VUndefined) s)
  | Some deps => (self, dependencies_loop deps self s)
  end.

(** [_doLoadModule] from [new ModuleClass()] on. *)
Definition instantiate (name : string) (c : moduleClass) (self : nat) (s : kernel) : kernel :=
  let m := Instance (nextInstance s) c in
  let s := record (Instantiated name m) (set_nextInstance S s) in
  if _validateModuleInterface c then
    let '(q, s) := _loadDependencies m s in
    await q (KDeps name m self) s
  else settle self (Err (InvalidInterface name)) s.

(** The synchronous prefix of [_loadModuleFile(moduleName)]: a timer is
    started. *)
Definition _loadModuleFile (name : string) (s : kernel) : nat * kernel :=
  let '(self, s) := new_promise s in
  (self, set_timers (λ l, l ++ [(self, name)]) s).

(** The synchronous prefix of [_doLoadModule(moduleName)]. *)
Definition _doLoadModule (name : string) (s : kernel) : nat * kernel :=
  let '(self, s) := new_promise s in
  match moduleCache s !! name with
  | Some c => (self, instantiate name c self s)
  | None =>
      let '(f, s) := _loadModuleFile name s in
      (self, await f (KFile name self) s)
  end.

(** The synchronous prefix of [loadModule(moduleName)]. *)
Definition loadModule_body (name : string) (s : kernel) : nat * kernel :=
  let '(self, s) := new_promise s in
  match loadedModules s !! name with
  | Some m => (self, settle self (Ok (VInstance m)) s)
  | None =>
      match loadingPromises s !! name with
      | Some p => (self, await p (KJoin name self) s)
      | None =>
          let '(p, s) := _doLoadModule name s in
          let s := set_loadingPromises (λ m, <[name := p]> m) s in
          (self, await p (KOwner name self) s)
      end
  end.

End Calls.

(** [loadModule] with room for [depth] nested calls on the stack.  When
    the stack is used up the call fails with the host's RangeError, which
    the [async] function turns into a rejected promise. *)
Fixpoint loadModule_at (depth : nat) (name : string) (s : kernel) : nat * kernel :=
  match depth with
  | 0 => let '(self, s) := new_promise s in (self, settle self (Err RangeError) s)
  | S n => loadModule_body (loadModule_at n) name s
  end.

(** The depth of the host's call stack, counted in nested [loadModule]
    calls. *)
Variable stack : nat.

Definition loadModule : string → kernel → nat * kernel := loadModule_at (S stack).

(** A continuation runs with what the promise it awaited has settled
    with. *)
Definition run_kont (k : kont) (o : outcome) (s : kernel) : kernel :=
  match k, o with
  | KOwner name self, Ok (VInstance m) =>
      let s := record (Activated name m) (set_loadedModules (λ l, <[name := m]> l) s) in
      let s := set_loadingPromises (λ l, delete name l) s in
      settle self o s
  | KOwner name self, _ =>
      settle self o (set_loadingPromises (λ l, delete name l) s)
  | KJoin name self, _ => settle self o s
  | KFile name self, Ok (VClass c) =>
      instantiate loadModule name c self (set_moduleCache (λ m, <[name := c]> m) s)
  | KFile name self, _ => settle self o s
  | KDeps name m self, Ok _ =>
      if attached s then
        let '(r, s) := registerModule name m s in
        await r (KRegister name m self) s
      else settle self (Ok (VInstance m)) s
  | KDeps name m self, Err e => settle self (Err e) s
  | KRegister name m self, Ok _ => settle self (Ok (VInstance m)) s
  | KRegister name m self, Err e => settle self (Err e) s
  | KDep rest self, Ok _ => dependencies_loop loadModule rest self s
  | KDep rest self, Err e => settle self (Err e) s
  | KInit name m self, _ => registered name m self o s
  end.

(** What happens from one suspension to the next: a client calls
    [loadModule]; the oldest timer fires, and the file promise settles with
    the module class; the promise of an [init] hook settles; the oldest
    microtask runs. *)
Inductive label :=
  | Load (name : string)
  | FileReady
  | InitSettles (n : nat)
  | Tick.

Definition file_outcome (name : string) : outcome :=
  match files name with
  | Some c => Ok (VClass c)
  | None => Err (FileLoadFailed name)
  end.

Definition init_outcome (m : instance) : outcome :=
  match init_behaviour (inst_class m) with
  | InitRejects => Err InitFailed
  | _ => Ok VUndefined
  end.

Definition step (s : kernel) (a : label) : kernel :=
  match a with
  | Load name => (loadModule name s).2
  | FileReady =>
      match timers s with
      | [] => s
      | (p, name) :: rest => settle p (file_outcome name) (set_timers (λ _, rest) s)
      end
  | InitSettles n =>
      match inits s !! n with
      | Some (p, m) => settle p (init_outcome m) (set_inits (λ l, delete n l) s)
      | None => s
      end
  | Tick =>
      match microtasks s with
      | [] => s
      | (k, o) :: rest => run_kont k o (set_microtasks (λ _, rest) s)
      end
  end.

Definition run (tr : list label) (s : kernel) : kernel := foldl step s tr.

End Loader.

(** *** What holds of every state the loader reaches *)

(** The async call that has returned a promise. *)
Inductive role :=
  | RLoad (name : string)
  | RDoLoad (name : string)
  | RDeps (deps : list string)
  | RFile (name : string)
  | RRegister
  | RInit.

(** Module [d] has been marked loaded at some point of the record [l]. *)
Definition activated_in (l : list event) (d : string) : Prop :=
  ∃ m, Activated d m ∈ l.

(** Every dependency of the list, other than ['core'], has been marked
    loaded. *)
Definition ready_in (l : list event) (deps : list string) : Prop :=
  ∀ d, d ∈ deps → d = "core" ∨ activated_in l d.

(** The dependencies that [_loadDependencies] iterates for an instance. *)
Definition needs_of (m : instance) : list string :=
  default [] (dependencies (inst_class m)).

(** The names that the run of a microtask marks loaded. *)
Definition activates (k : kont) (o : outcome) : list string :=
  match k, o with
  | KOwner name _, Ok (VInstance _) => [name]
  | _, _ => []
  end.

(** In the queue, a joiner of a load that succeeded comes behind the owner
    of that load, unless the module has been marked loaded already. *)
Fixpoint queue_joins (l : list event) (ahead : list string) (q : list (kont * outcome)) : Prop :=
  match q with
  | [] => True
  | (k, o) :: q' =>
      match k, o with
      | KJoin name _, Ok _ => activated_in l name ∨ name ∈ ahead
      | _, _ => True
      end ∧ queue_joins l (activates k o ++ ahead) q'
  end.

Definition owner_name (k : kont) : list string :=
  match k with KOwner name _ => [name] | _ => [] end.

(** Among the continuations that await one promise, a joiner comes behind
    the owner. *)
Fixpoint waiters_joins (ahead : list string) (ws : list kont) : Prop :=
  match ws with
  | [] => True
  | k :: ws' =>
      match k with KJoin name _ => name ∈ ahead | _ => True end ∧
      waiters_joins (owner_name k ++ ahead) ws'
  end.

(** The owners of a queue that will mark their module loaded. *)
Fixpoint queue_owners (q : list (kont * outcome)) : list string :=
  match q with
  | [] => []
  | (k, o) :: q' => activates k o ++ queue_owners q'
  end.

(** The owners among the continuations that await one promise. *)
Fixpoint waiters_owners (ws : list kont) : list string :=
  match ws with
  | [] => []
  | k :: ws' => owner_name k ++ waiters_owners ws'
  end.

Section Invariant.

Variable files : string → option moduleClass.

(** The instance is one of the class that the module file of [name]
    holds. *)
Definition genuine (name : string) (m : instance) : Prop :=
  files name = Some (inst_class m).

(** What has to have happened before an event of the record. *)
Definition event_ok (before : list event) (e : event) : Prop :=
  match e with
  | Instantiated name m => genuine name m
  | InitCalled name m | Activated name m =>
      genuine name m ∧ ready_in before (needs_of m)
  end.

Definition trace_ok (l : list event) : Prop :=
  ∀ l1 e l2, l = l1 ++ e :: l2 → event_ok l1 e.

(** What is known when a promise of a given role is fulfilled. *)
Definition fulfilled_ok (l : list event) (r : role) (v : value) : Prop :=
  match r with
  | RLoad d => activated_in l d
  | RDoLoad d => ∃ m, v = VInstance m ∧ genuine d m ∧ ready_in l (needs_of m)
  | RDeps deps => ready_in l deps
  | RFile name => ∃ c, v = VClass c ∧ files name = Some c
  | RRegister | RInit => True
  end.

Definition settled_ok (l : list event) (r : role) (o : outcome) : Prop :=
  match o with Ok v => fulfilled_ok l r v | Err _ => True end.

(** What is known of a continuation that awaits a promise of role [r]. *)
Definition waits_ok (roles : list role) (l : list event) (r : role) (k : kont) : Prop :=
  match k with
  | KOwner name self | KJoin name self =>
      r = RDoLoad name ∧ roles !! self = Some (RLoad name)
  | KFile name self =>
      r = RFile name ∧ roles !! self = Some (RDoLoad name)
  | KDeps name m self =>
      r = RDeps (needs_of m) ∧ roles !! self = Some (RDoLoad name) ∧ genuine name m
  | KRegister name m self =>
      r = RRegister ∧ roles !! self = Some (RDoLoad name) ∧ genuine name m ∧
      ready_in l (needs_of m)
  | KDep rest self =>
      ∃ d deps, r = RLoad d ∧ roles !! self = Some (RDeps deps) ∧
        ∀ x, x ∈ deps → x = "core" ∨ activated_in l x ∨ x = d ∨ x ∈ rest
  | KInit name m self =>
      r = RInit ∧ roles !! self = Some RRegister
  end.

(** What is known of a microtask. *)
Definition queued_ok (roles : list role) (l : list event) (ko : kont * outcome) : Prop :=
  ∃ r, waits_ok roles l r ko.1 ∧ settled_ok l r ko.2.

(** The entry of a load in flight: its promise is that of a
    [_doLoadModule] call, and the owner has not run yet. *)
Definition flight_ok (roles : list role) (s : kernel) (name : string) (p : nat) : Prop :=
  roles !! p = Some (RDoLoad name) ∧
  match promises s !! p with
  | Some (Pending ws) => ∃ self, KOwner name self ∈ ws
  | Some (Settled (Ok v)) => ∃ self, (KOwner name self, Ok v) ∈ microtasks s
  | Some (Settled (Err _)) => True
  | None => False
  end.

Record inv (roles : list role) (s : kernel) : Prop := {
  inv_roles : length roles = length (promises s);
  inv_loaded : ∀ d m, loadedModules s !! d = Some m → activated_in (log s) d;
  inv_cache : ∀ name c, moduleCache s !! name = Some c → files name = Some c;
  inv_settled : ∀ p o r, promises s !! p = Some (Settled o) → roles !! p = Some r →
    settled_ok (log s) r o;
  inv_waiters : ∀ p ws r, promises s !! p = Some (Pending ws) → roles !! p = Some r →
    Forall (waits_ok roles (log s) r) ws ∧ waiters_joins [] ws;
  inv_queue : Forall (queued_ok roles (log s)) (microtasks s) ∧
    queue_joins (log s) [] (microtasks s);
  inv_flights : ∀ name p, loadingPromises s !! name = Some p → flight_ok roles s name p;
  inv_timers : ∀ p name, (p, name) ∈ timers s → roles !! p = Some (RFile name);
  inv_inits : ∀ p m, (p, m) ∈ inits s → roles !! p = Some RInit;
  inv_trace : trace_ok (log s)
}.

(** A step has been made: more promises, a longer record. *)
Definition grows (roles : list role) (s : kernel) (roles' : list role) (s' : kernel) : Prop :=
  roles `prefix_of` roles' ∧ log s `prefix_of` log s'.

(** What the nested call of [loadModule] has to guarantee. *)
Definition load_spec (load : string → kernel → nat * kernel) : Prop :=
  ∀ name roles s, inv roles s →
    ∃ roles', inv roles' (load name s).2 ∧ grows roles s roles' (load name s).2 ∧
              roles' !! (load name s).1 = Some (RLoad name).

(** One module declares the other as a dependency that the loader
    loads. *)
Definition depends (x y : string) : Prop :=
  ∃ c deps, files x = Some c ∧ dependencies c = Some deps ∧ y ∈ deps ∧ y ≠ "core".

(** The module lies on a cycle of dependencies. *)
Definition cyclic (x : string) : Prop := tc depends x x.

End Invariant.

(** The module source of the repository: every name yields the mock
    class. *)
Definition mock_files (name : string) : option moduleClass := Some MockModule.

(** *** The record and the synchronous part of a call *)

(** The module that an event of the record is about. *)
Definition subject (e : event) : string :=
  match e with Instantiated n _ | InitCalled n _ | Activated n _ => n end.

(** What the record says about module [X]. *)
Definition record_of (X : string) (l : list event) : list event :=
  filter (λ e, subject e = X) l.

Definition is_activation (e : event) : bool :=
  match e with Activated _ _ => true | _ => false end.

(** What the part of a call that runs up to its first suspension leaves
    as it is: the loaded modules and the promises there are, and the
    record, to which no activation is added. *)
Definition steady (s s' : kernel) : Prop :=
  loadedModules s' = loadedModules s ∧
  length (promises s) ≤ length (promises s') ∧
  log s `prefix_of` log s' ∧
  (∀ d m, Activated d m ∈ log s' → Activated d m ∈ log s).

(** When a load of [X] is in flight, it remains so, with the same promise,
    and the record of [X] is the same. *)
Definition unaffected (X : string) (s s' : kernel) : Prop :=
  ∀ p, loadingPromises s !! X = Some p →
    loadingPromises s' !! X = Some p ∧ record_of X (log s') = record_of X (log s).

(** [loadedModules] holds the modules that the record has as activated. *)
Definition marked (s : kernel) : Prop :=
  (∀ d m, loadedModules s !! d = Some m → Activated d m ∈ log s) ∧
  (∀ d m, Activated d m ∈ log s → is_Some (loadedModules s !! d)).

(** Two continuations wait for promise [p], one behind the other: they
    are the last two that await it or, when it has settled already, the
    last two microtasks, with what it has settled with. *)
Definition share (p : nat) (k1 k2 : kont) (s : kernel) : Prop :=
  match promises s !! p with
  | Some (Pending ws) => ∃ ws0, ws = ws0 ++ [k1; k2]
  | Some (Settled o) => ∃ q, microtasks s = q ++ [(k1, o); (k2, o)]
  | None => False
  end.

Definition is_load (a : label) : bool :=
  match a with Load _ => true | _ => false end.

(** No timer, no [init] hook and no microtask is left. *)
Definition quiescent (s : kernel) : Prop :=
  microtasks s = [] ∧ timers s = [] ∧ inits s = [].

(** [VaultCore.hasModule] and [ModuleLoader.isModuleLoaded]. *)
Definition hasModule (name : string) (s : kernel) : bool :=
  bool_decide (is_Some (modules s !! name)).

Definition isModuleLoaded (name : string) (s : kernel) : bool :=
  bool_decide (is_Some (loadedModules s !! name)).

(** No call has been made on loader and core so far: there is no promise,
    and so no timer, no pending [init] and no microtask. *)
Definition untouched (s : kernel) : Prop :=
  promises s = [] ∧ microtasks s = [] ∧ timers s = [] ∧ inits s = [].

(** One call [loadModule(X)] and what follows it when no dependency has
    to be loaded and nothing else is going on: the file timer fires, the
    continuations of [_doLoadModule] run, the promise of [init] settles
    (if there is one), and the continuations of [registerModule],
    [_doLoadModule] and [loadModule] run. *)
Definition solo (X : string) : list label :=
  [Load X; FileReady; Tick; Tick; InitSettles 0; Tick; Tick; Tick].

(** One call [loadModule(X)] that fails at the file or at the interface:
    the file timer fires, and the continuations of [_doLoadModule] and
    [loadModule] run. *)
Definition solo_fails (X : string) : list label := [Load X; FileReady; Tick; Tick].

(** One call [loadModule(X)] whose first dependency to load has no file:
    the timer of [X], the continuation that starts the load of the
    dependency, the timer of the dependency, and the continuations of the
    five calls that the error passes through. *)
Definition dependency_fails (X : string) : list label :=
  [Load X; FileReady; Tick; FileReady; Tick; Tick; Tick; Tick; Tick].

(** Whether the registration of an instance of the class goes through:
    [init] resolves and [getAPI] returns. *)
Definition registers (c : moduleClass) : bool :=
  match init_behaviour c, getAPI_behaviour c with
  | InitResolves, (ApiNone | ApiObject _) => true
  | _, _ => false
  end.

(** *** Scenarios *)

(** A class that passes both validators and whose hooks succeed. *)
Definition plain (deps : list string) : moduleClass :=
  ModuleClass true true Callable Callable (Some deps) InitResolves (ApiObject 0).

(** A class whose [init] member is not a function. *)
Definition faulty : moduleClass :=
  ModuleClass true true NotCallable Callable (Some []) InitResolves (ApiObject 0).

(** No module file can be loaded. *)
Definition no_files (name : string) : option moduleClass := None.

(** Module A depends on module B. *)
Definition pair_files (name : string) : option moduleClass :=
  if String.eqb name "A" then Some (plain ["B"])
  else if String.eqb name "B" then Some (plain [])
  else None.

(** Modules C and D depend on each other. *)
Definition cycle_files (name : string) : option moduleClass :=
  if String.eqb name "C" then Some (plain ["D"])
  else if String.eqb name "D" then Some (plain ["C"])
  else None.

(** A module that declares ['core'] as its dependency, as the modules of
    the repository do. *)
Definition notes_files (name : string) : option moduleClass :=
  if String.eqb name "notes" then Some (plain ["core"]) else None.

(** A class whose [init] returns a promise that is rejected. *)
Definition rejecting : moduleClass :=
  ModuleClass true true Callable Callable None InitRejects (ApiObject 0).

Definition rejecting_files (name : string) : option moduleClass := Some rejecting.

Definition faulty_files (name : string) : option moduleClass := Some faulty.

(** Module A depends on module B, and there is no file for B. *)
Definition orphan_files (name : string) : option moduleClass :=
  if String.eqb name "A" then Some (plain ["B"]) else None.

(** A call stack with room for ten thousand nested calls of
    [loadModule]. *)
Definition deep : nat := 10000.

(** [loadModule("A")]; both files arrive; B is registered and loaded, then
    A. *)
Definition pair_trace : list label :=
  [Load "A"; FileReady; Tick; FileReady; Tick; Tick; InitSettles 0; Tick; Tick; Tick;
   Tick; Tick; Tick; InitSettles 0; Tick; Tick; Tick].

(** After [loadModule("C")]: the file of C arrives, and [_doLoadModule]
    goes on to load D; the file of D arrives, and [_doLoadModule] goes on
    to load C. *)
Definition cycle_rest : list label := [FileReady; Tick; FileReady; Tick].

Definition cycle_trace : list label := Load "C" :: cycle_rest.

(** [loadModule("notes")], run to the end. *)
Definition notes_trace : list label :=
  [Load "notes"; FileReady; Tick; Tick; InitSettles 0; Tick; Tick; Tick; Tick].

(** Two calls [loadModule("A")] in a row, run to the end. *)
Definition twice_trace : list label :=
  [Load "A"; Load "A"; FileReady; Tick; Tick; InitSettles 0; Tick; Tick; Tick; Tick; Tick].

(** The same two calls when the file cannot be loaded. *)
Definition failing_trace : list label :=
  [Load "A"; Load "A"; FileReady; Tick; Tick; Tick; Tick].

End Kernel.

(** ** Unloading, unregistering and shutdown *)

(** [VaultCore.unregisterModule] and [VaultCore.destroy],
    [ModuleLoader.unloadModule], [unloadAllModules], [reloadModule] and
    [loadModules].  Each function is the call as it runs when nothing else
    runs between its [await]s; a hook of a module does nothing to loader
    and core but return or fail; the event bus of the core is there and is
    represented by the events that are handed to it. *)
Module Lifecycle.

(** A module instance as far as these functions look at it.
    [destroy_hook] is [None] when the member [destroy] is absent or falsy;
    otherwise [destroy_hook = Some f], and [f n] says whether the call of
    [destroy] that comes after [n] earlier calls on this instance returns
    (or resolves) rather than throws (or rejects). *)
Record component := Component {
  comp_id : nat;
  destroy_hook : option (nat → bool)
}.

(** A JS Map whose order of keys is observed: the entries in the order of
    their insertion, the keys distinct. *)
Notation jsmap := (list (string * component)).

Fixpoint jget (k : string) (m : jsmap) : option component :=
  match m with
  | [] => None
  | (k', v) :: rest => if decide (k' = k) then Some v else jget k rest
  end.

Definition jdelete (k : string) (m : jsmap) : jsmap := filter (λ kv, kv.1 ≠ k) m.

Definition jkeys (m : jsmap) : list string := m.*1.

(** What is handed to [eventBus.emit]. *)
Inductive bus_event :=
  | CoreShutdown
  | ModuleUnregistered (name : string).

(** Core and loader.  [destroyed] is the list of the calls of [destroy]
    hooks, by instance, in the order of the calls; the source has no such
    field. *)
Record system := System {
  modules : jsmap;
  apis : gmap string nat;
  initialized : bool;
  loadedModules : jsmap;
  moduleCache : gmap string nat;
  attached : bool;
  emitted : list bus_event;
  destroyed : list nat
}.

Definition set_modules (f : jsmap → jsmap) (s : system) : system :=
  System (f (modules s)) (apis s) (initialized s) (loadedModules s) (moduleCache s) (attached s) (emitted s) (destroyed s).

Definition set_apis (f : gmap string nat → gmap string nat) (s : system) : system :=
  System (modules s) (f (apis s)) (initialized s) (loadedModules s) (moduleCache s) (attached s) (emitted s) (destroyed s).

Definition set_initialized (b : bool) (s : system) : system :=
  System (modules s) (apis s) b (loadedModules s) (moduleCache s) (attached s) (emitted s) (destroyed s).

Definition set_loadedModules (f : jsmap → jsmap) (s : system) : system :=
  System (modules s) (apis s) (initialized s) (f (loadedModules s)) (moduleCache s) (attached s) (emitted s) (destroyed s).

Definition set_moduleCache (f : gmap string nat → gmap string nat) (s : system) : system :=
  System (modules s) (apis s) (initialized s) (loadedModules s) (f (moduleCache s)) (attached s) (emitted s) (destroyed s).

Definition emit (e : bus_event) (s : system) : system :=
  System (modules s) (apis s) (initialized s) (loadedModules s) (moduleCache s) (attached s) (emitted s ++ [e]) (destroyed s).

(** How often the [destroy] hook of instance [i] has been called. *)
Definition calls_of (i : nat) (s : system) : nat :=
  length (filter (λ j, j = i) (destroyed s)).

(** [if (module.destroy) { await module.destroy(); }]: whether control
    gets past the statement, and the state then. *)
Definition call_destroy (m : component) (s : system) : bool * system :=
  match destroy_hook m with
  | None => (true, s)
  | Some f =>
      (f (calls_of (comp_id m) s),
       System (modules s) (apis s) (initialized s) (loadedModules s) (moduleCache s)
              (attached s) (emitted s) (destroyed s ++ [comp_id m]))
  end.

(** [VaultCore.unregisterModule(name)]: what the promise resolves with;
    it is never rejected. *)
Definition unregisterModule (name : string) (s : system) : bool * system :=
  match jget name (modules s) with
  | None => (false, s)
  | Some m =>
      let '(ok, s) := call_destroy m s in
      if ok then
        (true, emit (ModuleUnregistered name)
                 (set_apis (λ a, delete name a) (set_modules (jdelete name) s)))
      else (false, s)
  end.

(** [ModuleLoader.unloadModule(moduleName)]: the result of
    [unregisterModule] is not looked at. *)
Definition unloadModule (name : string) (s : system) : bool * system :=
  match jget name (loadedModules s) with
  | None => (false, s)
  | Some m =>
      let s := if attached s then (unregisterModule name s).2 else s in
      let '(ok, s) := call_destroy m s in
      if ok then (true, set_loadedModules (jdelete name) s) else (false, s)
  end.

(** [ModuleLoader.unloadAllModules()]: the keys are copied first. *)
Definition unloadAllModules (s : system) : system :=
  foldl (λ s name, (unloadModule name s).2) s (jkeys (loadedModules s)).

(** The loop of [VaultCore.destroy] over the registered modules. *)
Fixpoint destroy_each (ms : jsmap) (s : system) : bool * system :=
  match ms with
  | [] => (true, s)
  | (_, m) :: rest =>
      let '(ok, s) := call_destroy m s in
      if ok then destroy_each rest s else (false, s)
  end.

(** [VaultCore.destroy()]: an error of a hook is caught at the end of the
    function, behind the statements that clear the registries. *)
Definition destroy (s : system) : system :=
  let s := emit CoreShutdown s in
  let '(ok, s) := destroy_each (modules s) s in
  if ok then set_initialized false (set_apis (λ _, ∅) (set_modules (λ _, []) s)) else s.

(** How [reloadModule] ends when [loadModule] finds the module in
    [loadedModules]: with that instance; otherwise the call goes on as
    [loadModule] does. *)
Inductive reloaded :=
  | ReturnsLoaded (m : component)
  | LoadsAgain.

(** [ModuleLoader.reloadModule(moduleName)] up to the first check of
    [loadModule]: the result of [unloadModule] is not looked at. *)
Definition reloadModule (name : string) (s : system) : reloaded * system :=
  let s := (unloadModule name s).2 in
  let s := set_moduleCache (λ c, delete name c) s in
  match jget name (loadedModules s) with
  | Some m => (ReturnsLoaded m, s)
  | None => (LoadsAgain, s)
  end.

(** The ids of the instances with a [destroy] hook, in the order of the
    Map. *)
Definition hooked (ms : jsmap) : list nat :=
  comp_id <$> filter (λ m, destroy_hook m ≠ None) ms.*2.

(** The hook of the instance, if it has one, returns at every call. *)
Definition reliable (m : component) : Prop :=
  ∀ f n, destroy_hook m = Some f → f n = true.

Section LoadModules.

(** The state of loader, core and host, the module instances and the
    errors; [awaited name w] is [await this.loadModule(name, options)]
    from the call to the settlement of its promise, with what it was
    rejected or fulfilled with. *)
Variables (W M E : Type).
Variable awaited : string → W → (E + M) * W.

(** An entry of [results]. *)
Inductive entry :=
  | Succeeded (name : string) (m : M)
  | FailedWith (name : string) (e : E).

Definition entry_name (r : entry) : string :=
  match r with Succeeded n _ | FailedWith n _ => n end.

(** The loop of [loadModules(moduleNames, options)], with [results] so
    far: the promise is rejected with an error, or fulfilled with
    [results]. *)
Fixpoint loadModules_from (failFast : bool) (names : list string) (results : list entry)
    (w : W) : (E + list entry) * W :=
  match names with
  | [] => (inr results, w)
  | name :: rest =>
      match awaited name w with
      | (inr m, w) => loadModules_from failFast rest (results ++ [Succeeded name m]) w
      | (inl e, w) =>
          if failFast then (inl e, w)
          else loadModules_from failFast rest (results ++ [FailedWith name e]) w
      end
  end.

Definition loadModules (names : list string) (failFast : bool) (w : W) : (E + list entry) * W :=
  loadModules_from failFast names [] w.

(** The state after the loads of [names], one after the other. *)
Definition after_loads (names : list string) (w : W) : W :=
  foldl (λ w name, (awaited name w).2) w names.

(** An entry of [results] says how a load has ended. *)
Definition agrees (r : entry) (o : E + M) : Prop :=
  match r, o with
  | Succeeded _ m, inr m' => m = m'
  | FailedWith _ e, inl e' => e = e'
  | _, _ => False
  end.

End LoadModules.

(** A module whose [destroy] returns at its first call and throws at every
    later one. *)
Definition once_only : component := Component 0 (Some (λ n, bool_decide (n = 0))).

(** Module A is loaded by the loader and registered with the core. *)
Definition running : system :=
  System [("A", once_only)] {[ "A" := 7 ]} true [("A", once_only)] ∅ true [] [].

End Lifecycle.

(** ** Searching the notes *)

(** [VaultCore.searchNotes], for a core that has its event bus. *)
Module Notes.

(** A stored note, as far as the search looks at it.  A text field is
    [None] when the member is not a string, [tags] is [None] when the
    member is not an array (its elements are strings), [timestamp] is the
    time value of [new Date(note.timestamp)], [None] for an invalid
    date. *)
Record note := Note {
  note_id : string;
  title : option string;
  content : option string;
  tags : option (list string);
  category : option string;
  timestamp : option Z
}.

(** The search parameters after the destructuring with its defaults.
    [dateRange] is [None] when the member is absent or [null] or one of
    its bounds is falsy; otherwise it holds the time values of
    [new Date(start)] and [new Date(end)], [None] for an invalid date. *)
Record params := Params {
  query : string;
  p_category : string;
  p_tags : list string;
  dateRange : option (option Z * option Z);
  limit : Z
}.

(** [searchNotes()] without an argument. *)
Definition defaults : params := Params "" "" [] None 100.

(** [text.includes(sub)]. *)
Fixpoint includes (sub text : string) : bool :=
  String.prefix sub text ||
  match text with
  | EmptyString => false
  | String _ rest => includes sub rest
  end.

(** [array.filter(p)] for a callback that may throw ([None]): the callback
    runs on every element in order, and the first throw ends the call. *)
Fixpoint filter_or_throw {A} (p : A → option bool) (l : list A) : option (list A) :=
  match l with
  | [] => Some []
  | x :: rest =>
      match p x with
      | None => None
      | Some b =>
          match filter_or_throw p rest with
          | None => None
          | Some kept => Some (if b then x :: kept else kept)
          end
      end
  end.

(** [array.slice(0, end)] for an integer [end]. *)
Definition slice_to {A} (e : Z) (l : list A) : list A :=
  let len := Z.of_nat (length l) in
  take (Z.to_nat (if (e <? 0)%Z then Z.max (len + e) 0 else Z.min e len)) l.

Section Search.

(** [String.prototype.toLowerCase] of the host. *)
Variable toLowerCase : string → string.

(** The callback of the text filter; reading [toLowerCase] from a member
    that is not a string throws, and so does [some] on [tags] that is
    not an array.  The members are read from left to right, as far as
    [||] needs them. *)
Definition text_match (lowerQuery : string) (n : note) : option bool :=
  match title n with
  | None => None
  | Some t =>
      if includes lowerQuery (toLowerCase t) then Some true
      else
        match content n with
        | None => None
        | Some c =>
            if includes lowerQuery (toLowerCase c) then Some true
            else
              match tags n with
              | None => None
              | Some ts => Some (existsb (λ tag, includes lowerQuery (toLowerCase tag)) ts)
              end
        end
  end.

(** [note.category === category]. *)
Definition category_match (c : string) (n : note) : bool :=
  bool_decide (category n = Some c).

(** [tags.some(tag => note.tags.includes(tag))] for a list of tags that
    is not empty. *)
Definition tags_match (wanted : list string) (n : note) : option bool :=
  match tags n with
  | None => None
  | Some ts => Some (existsb (λ tag, bool_decide (tag ∈ ts)) wanted)
  end.

(** The callback of the date filter; a comparison with an invalid date is
    false. *)
Definition date_match (range : option Z * option Z) (n : note) : bool :=
  match timestamp n, range.1, range.2 with
  | Some t, Some a, Some b => (a <=? t)%Z && (t <=? b)%Z
  | _, _, _ => false
  end.

(** The four filters in the order of the source, each one applied to what
    the filters before it have left. *)
Definition filtered (p : params) (allNotes : list note) : option (list note) :=
  l1 ← (if decide (query p = "") then Some allNotes
        else filter_or_throw (text_match (toLowerCase (query p))) allNotes);
  let l2 := if decide (p_category p = "") then l1
            else filter (λ n, category_match (p_category p) n = true) l1 in
  l3 ← (if decide (p_tags p = []) then Some l2
        else filter_or_throw (tags_match (p_tags p)) l2);
  Some (match dateRange p with
        | None => l3
        | Some range => filter (λ n, date_match range n = true) l3
        end).

(** [searchNotes(searchParams)]: what the promise resolves with, and the
    [resultCount] of the event that is emitted, if one is.  [stored] is
    [None] when [storageManager.loadNotes()] is rejected. *)
Definition searchNotes (p : params) (stored : option (list note)) : list note * option nat :=
  match stored ≫= filtered p with
  | Some l => let results := slice_to (limit p) l in (results, Some (length results))
  | None => ([], None)
  end.

(** The note has the members that the filters read. *)
Definition complete (n : note) : Prop :=
  is_Some (title n) ∧ is_Some (content n) ∧ is_Some (tags n).

(** What the four filters ask of a note with all its members. *)
Definition wanted (p : params) (n : note) : Prop :=
  (query p = "" ∨ text_match (toLowerCase (query p)) n = Some true) ∧
  (p_category p = "" ∨ category n = Some (p_category p)) ∧
  (p_tags p = [] ∨ ∃ tag ts, tag ∈ p_tags p ∧ tags n = Some ts ∧ tag ∈ ts) ∧
  (∀ range, dateRange p = Some range →
     ∃ t a b, timestamp n = Some t ∧ range = (Some a, Some b) ∧ (a ≤ t ≤ b)%Z).

End Search.

(** Three stored notes; the second one has no title. *)
Definition shelf : list note :=
  [Note "1" (Some "Tea") (Some "green") (Some ["drink"]) (Some "Misc") (Some 10%Z);
   Note "2" None (Some "black tea") (Some []) (Some "Misc") (Some 20%Z);
   Note "3" (Some "Coffee") (Some "beans") (Some ["drink"]) (Some "Misc") (Some 30%Z)].

(** Two stored notes with all their members. *)
Definition tidy_shelf : list note :=
  [Note "1" (Some "Tea") (Some "green") (Some ["drink"]) (Some "Misc") (Some 10%Z);
   Note "3" (Some "Coffee") (Some "beans") (Some ["drink"]) (Some "Misc") (Some 30%Z)].

End Notes.

(** * Properties of the event bus *)

Module EventBusFacts.
Import EventBus.

Section Delivery.

Variable regex_test : string → string → option bool.
Variable behaves : nat → outcome.

Local Abbreviation emit := (emit regex_test).
Local Abbreviation sp := (respawn regex_test).
Local Abbreviation next_wild := (next_wild regex_test sp).
Local Abbreviation next_exact := (next_exact regex_test sp).
Local Abbreviation finish := (finish sp).
Local Abbreviation resume := (resume regex_test).
Local Abbreviation drive := (drive regex_test behaves).
Local Abbreviation complete := (complete regex_test behaves).
Local Abbreviation publish := (publish regex_test behaves).
Local Abbreviation wild_plan := (wild_plan regex_test).
Local Abbreviation remaining := (remaining regex_test).

Lemma insert_last {A} (l : list A) (x y : A) : <[length l := y]> (l ++ [x]) = l ++ [y].
Proof. rewrite insert_app_r_alt by lia. by rewrite Nat.sub_diag. Qed.

Lemma emit_extends t d src s : extends s (emit t d src s).
Proof.
  assert (Hnil : ∀ (cs : list (nat * nat)) n,
    ∃ cs', cs = cs ++ cs' ∧ ∀ c, c ∈ cs' → c.1 = n).
  { intros cs n. exists []. split; [by rewrite app_nil_r|].
    intros c Hc. by apply elem_of_nil in Hc. }
  assert (Hone : ∀ (cs : list (nat * nat)) n i,
    ∃ cs', cs ++ [(n, i)] = cs ++ cs' ∧ ∀ c, c ∈ cs' → c.1 = n).
  { intros cs n i. exists [(n, i)]. split; [done|].
    intros c Hc. apply list_elem_of_singleton in Hc. by subst. }
  unfold EventBus.emit, emit_at, start, EventBus.next_exact, log_event. simpl.
  set (h := if decide _ then _ else _).
  assert (Hh : ∃ env, ev_id env = nextEvent s ∧ S (nextEvent s) = S (nextEvent s) ∧
    h = (if decide (maxHistorySize < length (eventHistory s ++ [env]))
         then drop 1 (eventHistory s ++ [env]) else eventHistory s ++ [env])).
  { by exists (Envelope t d (nextEvent s) src). }
  destruct (list_of _ _ !! 0) as [l|] eqn:Hl.
  - split; simpl; try done; first [by eexists; apply insert_last | apply Hone | apply Hh].
  - unfold EventBus.next_wild. simpl.
    destruct (scan_wild _ _ _ _) as [i w| |]; simpl.
    + split; simpl; try done; first [by eexists; apply insert_last | apply Hone | apply Hh].
    + unfold EventBus.finish. simpl.
      split; simpl; try done; first [by eexists; apply insert_last | apply Hnil | apply Hh].
    + unfold critical. simpl. destruct (decide (t = _)); simpl;
        (split; simpl; try done; first [by eexists; apply insert_last | apply Hnil | apply Hh]).
Qed.

Lemma delivered_call k c s : delivered k (call k c s) = delivered k s ++ [id c].
Proof.
  unfold delivered, call. simpl. rewrite filter_app, fmap_app.
  rewrite filter_cons_True by done. done.
Qed.

Lemma delivered_put k j e s : delivered k (put j e s) = delivered k s.
Proof. done. Qed.

Lemma delivered_extends k s s' :
  extends s s' → k < length (emissions s) → delivered k s' = delivered k s.
Proof.
  intros [_ _ _ _ _ _ (cs & Hcs & Hk) _] Hlt. unfold delivered. rewrite Hcs.
  rewrite filter_app, fmap_app.
  replace (filter (λ c, c.1 = k) cs) with (@nil (nat * nat)); [by rewrite app_nil_r|].
  symmetry. clear Hcs. induction cs as [|c cs IH]; [done|].
  rewrite filter_cons_False.
  - apply IH. intros c' Hc'. apply Hk. by right.
  - rewrite (Hk c) by left. lia.
Qed.

Lemma lookup_extends k s s' :
  extends s s' → k < length (emissions s) → emissions s' !! k = emissions s !! k.
Proof. intros [_ _ _ _ _ [e He] _ _] Hlt. rewrite He. by apply lookup_app_l. Qed.

Lemma length_extends s s' : extends s s' → length (emissions s') = S (length (emissions s)).
Proof. intros [_ _ _ _ _ [e He] _ _]. rewrite He, length_app. simpl. lia. Qed.

(** What the tail of [emit] does to the rest of the bus. *)
Lemma finish_spec k e s :
  k < length (emissions s) →
  let s' := finish k e s in
  delivered k s' = delivered k s ∧
  emissions s' !! k = Some (with_state e Resolved) ∧
  arrays s' = arrays s ∧ wsets s' = wsets s ∧ events s' = events s ∧
  wildcardListeners s' = wildcardListeners s.
Proof.
  intros Hk. unfold EventBus.finish.
  set (s1 := match e_errors e with [] => s | _ => _ end).
  assert (Hs1 : s1 = s ∨ extends s s1).
  { subst s1. destruct (e_errors e); [by left|]. destruct (decide _); [by left|].
    right. apply emit_extends. }
  simpl. destruct Hs1 as [->|Hext].
  - rewrite list_lookup_insert_eq by done. done.
  - rewrite delivered_put, (delivered_extends _ _ _ Hext Hk).
    rewrite list_lookup_insert_eq by (rewrite (length_extends _ _ Hext); lia).
    by destruct Hext.
Qed.

Lemma critical_spec k e s :
  k < length (emissions s) →
  let s' := critical k e s in
  delivered k s' = delivered k s ∧
  emissions s' !! k = Some (with_state e Rejected) ∧
  arrays s' = arrays s ∧ wsets s' = wsets s ∧ events s' = events s ∧
  wildcardListeners s' = wildcardListeners s.
Proof.
  intros Hk. unfold critical. destruct (decide _); simpl;
    rewrite list_lookup_insert_eq by done; done.
Qed.

Lemma drive_settled fuel k s e :
  emissions s !! k = Some e → (e_state e = Resolved ∨ e_state e = Rejected) →
  drive fuel k s = s.
Proof.
  intros He Hst. destruct fuel; [done|]. simpl. unfold awaited. rewrite He. simpl.
  by destruct Hst as [-> | ->].
Qed.

Lemma run_wild k t (l : list wildcard) : ∀ idx e s ws fuel,
  e_type e = t → k < length (emissions s) → drop idx (wset_at s ws) = l → length l ≤ fuel →
  ∃ s', drive fuel k (next_wild k e ws idx s) = s' ∧
  delivered k s' = delivered k s ++ (id ∘ wconfig <$> (wild_plan t l).1) ∧
  (∃ e', emissions s' !! k = Some e' ∧
         e_state e' = (if (wild_plan t l).2 then Rejected else Resolved) ∧
         e_results e' = e_results e ++ returned behaves (wcallback <$> (wild_plan t l).1) ∧
         e_type e' = t) ∧
  arrays s' = arrays s ∧ wsets s' = wsets s ∧ events s' = events s ∧
  wildcardListeners s' = wildcardListeners s.
Proof.
  induction l as [|w l IH]; intros idx e s ws fuel Ht Hk Hdrop Hfuel.
  - unfold EventBus.next_wild. rewrite Hdrop. simpl.
    destruct (finish_spec k e s Hk) as (Hd & He & Hrest).
    rewrite (drive_settled _ _ _ _ He) by (by left).
    eexists. split; [done|]. rewrite Hd, !app_nil_r. split; [done|]. split; [|done].
    eexists. split; [done|]. simpl. by rewrite Ht.
  - unfold EventBus.next_wild. rewrite Hdrop. simpl. rewrite Ht.
    assert (Hdrop' : drop (S idx) (wset_at s ws) = l).
    { change l with (drop 1 (w :: l)). rewrite <- Hdrop, drop_drop. f_equal. lia. }
    destruct (matchesWildcard regex_test t (pattern w)) as [[|]|] eqn:Hm.
    + (* the entry matches: its callback is invoked and the emission suspends *)
      destruct fuel as [|fuel]; [simpl in Hfuel; lia|]. simpl.
      unfold awaited. simpl. rewrite list_lookup_insert_eq by done. simpl.
      unfold EventBus.resume, resume_with. simpl. rewrite list_lookup_insert_eq by done. simpl.
      set (s1 := put k _ _).
      destruct (wild_plan t l) as [p b] eqn:Hplan. simpl.
      assert (Hk1 : k < length (emissions s1)) by (by subst s1; simpl; rewrite length_insert).
      assert (Hf : length l ≤ fuel) by (simpl in Hfuel; lia).
      destruct (behaves (wcallback w)) as [v|x] eqn:Hb.
      * destruct (IH (S idx) (add_result (with_state e (AwaitWild ws idx w)) v) s1 ws fuel
                    Ht Hk1 Hdrop' Hf) as (s' & Hs' & Hd & (e' & He' & Hst & Hres & Hty) & Hrest).
        exists s'. split; [done|]. split; [|split; [|done]].
        -- rewrite Hd. subst s1. rewrite delivered_put, delivered_call.
           by rewrite <- app_assoc.
        -- exists e'. split; [done|]. split; [done|]. split; [|done].
           rewrite Hres. unfold returned. simpl. by rewrite <- app_assoc.
      * destruct (IH (S idx) (add_error (with_state e (AwaitWild ws idx w)) (wconfig w) x) s1 ws fuel
                    Ht Hk1 Hdrop' Hf) as (s' & Hs' & Hd & (e' & He' & Hst & Hres & Hty) & Hrest).
        exists s'. split; [done|]. split; [|split; [|done]].
        -- rewrite Hd. subst s1. rewrite delivered_put, delivered_call.
           by rewrite <- app_assoc.
        -- exists e'. split; [done|]. split; [done|]. split; [|done].
           rewrite Hres. done.
    + (* no match: the iterator moves on *)
      destruct (IH (S idx) e s ws fuel Ht Hk Hdrop') as (s' & Hs' & Hrest);
        [simpl in Hfuel; lia|].
      unfold EventBus.next_wild in Hs'. rewrite Hdrop', Ht in Hs'. by exists s'.
    + (* [matchesWildcard] throws *)
      destruct (critical_spec k e s Hk) as (Hd & He & Hrest).
      rewrite (drive_settled _ _ _ _ He) by (by right).
      eexists. split; [done|]. simpl. rewrite Hd, !app_nil_r. split; [done|]. split; [|done].
      eexists. split; [done|]. simpl. by rewrite Ht.
Qed.

Lemma remove_listeners_frame t arr rm s :
  let s' := remove_listeners t arr rm s in
  wsets s' = wsets s ∧ wildcardListeners s' = wildcardListeners s ∧
  emissions s' = emissions s ∧ calls s' = calls s.
Proof.
  unfold remove_listeners. destruct rm; [done|]. destruct t; [|done].
  by destruct (decide _).
Qed.

Lemma returned_app fs gs : returned behaves (fs ++ gs) = returned behaves fs ++ returned behaves gs.
Proof. apply omap_app. Qed.

Lemma run_exact k t (l : list listener) : ∀ idx e s arr rm fuel,
  e_type e = t → k < length (emissions s) → drop idx (list_of s arr) = l →
  length l + length (wset_at s (wildcardListeners s)) ≤ fuel →
  let plan := wild_plan t (wset_at s (wildcardListeners s)) in
  ∃ s', drive fuel k (next_exact k e arr idx rm s) = s' ∧
  delivered k s' = delivered k s ++ (id ∘ lconfig <$> l) ++ (id ∘ wconfig <$> plan.1) ∧
  (∃ e', emissions s' !! k = Some e' ∧
         e_state e' = (if plan.2 then Rejected else Resolved) ∧
         e_results e' = e_results e ++ returned behaves (callback <$> l)
                                    ++ returned behaves (wcallback <$> plan.1) ∧
         e_type e' = t) ∧
  wsets s' = wsets s ∧ wildcardListeners s' = wildcardListeners s.
Proof.
  induction l as [|x l IH]; intros idx e s arr rm fuel Ht Hk Hdrop Hfuel plan.
  - unfold EventBus.next_exact.
    assert (Hnone : list_of s arr !! idx = None).
    { rewrite <- (Nat.add_0_r idx), <- lookup_drop, Hdrop. done. }
    rewrite Hnone.
    destruct (remove_listeners_frame t arr rm s) as (Hw & Hwl & Hem & Hc).
    rewrite Ht. set (s1 := remove_listeners t arr rm s) in *.
    destruct (run_wild k t (wset_at s1 (wildcardListeners s1)) 0 e s1 (wildcardListeners s1) fuel)
      as (s' & Hs' & Hd & He' & _ & Hw' & _ & Hwl'); [done | by rewrite Hem | done | |].
    { unfold wset_at. rewrite Hw, Hwl. simpl in Hfuel. unfold wset_at in Hfuel. lia. }
    exists s'. split; [done|].
    assert (HW : wset_at s1 (wildcardListeners s1) = wset_at s (wildcardListeners s)).
    { unfold wset_at. by rewrite Hw, Hwl. }
    rewrite HW in Hd, He'. split; [|split].
    + rewrite Hd. unfold delivered. by rewrite Hc.
    + done.
    + by rewrite Hw', Hwl'.
  - unfold EventBus.next_exact.
    assert (Hsome : list_of s arr !! idx = Some x).
    { rewrite <- (Nat.add_0_r idx), <- lookup_drop, Hdrop. done. }
    assert (Hdrop' : drop (S idx) (list_of s arr) = l).
    { change l with (drop 1 (x :: l)). rewrite <- Hdrop, drop_drop. f_equal. lia. }
    rewrite Hsome.
    destruct fuel as [|fuel]; [simpl in Hfuel; lia|]. simpl.
    unfold awaited. simpl. rewrite list_lookup_insert_eq by done. simpl.
    unfold EventBus.resume, resume_with. simpl. rewrite list_lookup_insert_eq by done. simpl.
    set (s1 := put k _ _).
    assert (Hk1 : k < length (emissions s1)) by (by subst s1; simpl; rewrite length_insert).
    assert (Hf : length l + length (wset_at s1 (wildcardListeners s1)) ≤ fuel)
      by (simpl in Hfuel; subst s1; unfold wset_at in *; simpl; lia).
    destruct (behaves (callback x)) as [v|y] eqn:Hb.
    + destruct (IH (S idx) (add_result (with_state e (AwaitExact arr idx x rm)) v) s1 arr
                  (if once (lconfig x) then rm ++ [x] else rm) fuel Ht Hk1 Hdrop' Hf)
        as (s' & Hs' & Hd & (e' & He' & Hst & Hres & Hty) & Hrest).
      exists s'. split; [done|]. split; [|split; [|done]].
      * rewrite Hd. subst s1. rewrite delivered_put, delivered_call.
        by rewrite <- app_assoc.
      * exists e'. split; [done|]. split; [done|]. split; [|done].
        rewrite Hres. unfold returned. simpl. by rewrite <- app_assoc.
    + destruct (IH (S idx) (add_error (with_state e (AwaitExact arr idx x rm)) (lconfig x) y) s1 arr
                  rm fuel Ht Hk1 Hdrop' Hf)
        as (s' & Hs' & Hd & (e' & He' & Hst & Hres & Hty) & Hrest).
      exists s'. split; [done|]. split; [|split; [|done]].
      * rewrite Hd. subst s1. rewrite delivered_put, delivered_call.
        by rewrite <- app_assoc.
      * exists e'. split; [done|]. split; [done|]. split; [|done].
        rewrite Hres. done.
Qed.


(** The diagnostic emission is only started when a listener has failed. *)
Lemma next_exact_spawn sp1 sp2 k e arr idx rm s :
  e_errors e = [] →
  EventBus.next_exact regex_test sp1 k e arr idx rm s =
  EventBus.next_exact regex_test sp2 k e arr idx rm s.
Proof.
  intros He. unfold EventBus.next_exact, EventBus.next_wild, EventBus.finish.
  by rewrite He.
Qed.

(** The nesting bound of [emit_at] does not matter. *)
Lemma emit_at_depth n t d src s :
  emit_at regex_test (S n) t d src s = emit t d src s.
Proof. unfold EventBus.emit. simpl. unfold start. by apply next_exact_spawn. Qed.

Lemma length_le_sum_list {A} (ls : list (list A)) (l : list A) :
  l ∈ ls → length l ≤ sum_list (length <$> ls).
Proof.
  induction 1 as [|x y ls' _ IH]; rewrite fmap_cons; simpl; lia.
Qed.

Lemma array_at_budget s r :
  length (array_at s r) ≤ sum_list (length <$> arrays s).
Proof.
  unfold array_at. destruct (arrays s !! r) as [l|] eqn:Hl; simpl; [|lia].
  apply length_le_sum_list. by eapply list_elem_of_lookup_2.
Qed.

Lemma wset_at_budget s r :
  length (wset_at s r) ≤ sum_list (length <$> wsets s).
Proof.
  unfold wset_at. destruct (wsets s !! r) as [l|] eqn:Hl; simpl; [|lia].
  apply length_le_sum_list. by eapply list_elem_of_lookup_2.
Qed.

Lemma list_of_budget s arr :
  length (list_of s arr) ≤ sum_list (length <$> arrays s).
Proof. destruct arr; simpl; [apply array_at_budget | lia]. Qed.


Lemma emit_eq t d src s :
  emit t d src s =
  next_exact (length (emissions s)) (Emission t (nextEvent s) [] [] Resolved)
             (bucket_ref s t) 0 [] (log_event t d src s).
Proof. unfold EventBus.emit, emit_at, start. by apply next_exact_spawn. Qed.

Lemma budget_emit t d src s : budget (emit t d src s) = budget s.
Proof.
  unfold budget. by destruct (emit_extends t d src s) as [-> -> _ _ _ _ _ _].
Qed.

(** [publish]: an undisturbed emission invokes the whole bucket, then the
    matching wildcard entries, and collects what the callbacks return. *)
Lemma publish_spec t d src s :
  let k := length (emissions s) in
  let ls := list_of s (bucket_ref s t) in
  let plan := wild_plan t (wset_at s (wildcardListeners s)) in
  delivered k (publish t d src s) =
    delivered k s ++ (id ∘ lconfig <$> ls) ++ (id ∘ wconfig <$> plan.1) ∧
  ∃ e, emissions (publish t d src s) !! k = Some e ∧
       e_state e = (if plan.2 then Rejected else Resolved) ∧
       e_results e = returned behaves (callback <$> ls) ++
                     returned behaves (wcallback <$> plan.1).
Proof.
  intros k ls plan. unfold EventBus.publish, EventBus.complete.
  rewrite budget_emit, emit_eq.
  destruct (run_exact k t ls 0 (Emission t (nextEvent s) [] [] Resolved)
              (log_event t d src s) (bucket_ref s t) [] (budget s))
    as (s' & Hs' & Hd & (e' & He' & Hst & Hres & _) & _).
  - done.
  - unfold log_event. simpl. rewrite length_app. simpl. lia.
  - done.
  - pose proof (list_of_budget s (bucket_ref s t)).
    pose proof (wset_at_budget s (wildcardListeners s)).
    unfold budget. change (list_of (log_event t d src s) (bucket_ref s t)) with ls.
    change (wset_at (log_event t d src s) (wildcardListeners (log_event t d src s)))
      with (wset_at s (wildcardListeners s)). subst ls. lia.
  - fold k. rewrite Hs'. split; [done|]. by exists e'.
Qed.

(** An emission that is resumed without interference invokes what
    [remaining] lists, and then it has settled. *)
Lemma complete_spec k s :
  delivered k (complete k s) = delivered k s ++ remaining s k ∧
  (is_Some (emissions s !! k) → settled (complete k s) k).
Proof.
  unfold EventBus.complete, EventBus.remaining, settled.
  destruct (emissions s !! k) as [e|] eqn:He.
  2:{ split; [|by intros [? ?]]. rewrite app_nil_r.
      unfold budget. simpl. unfold awaited. by rewrite He. }
  assert (Hk : k < length (emissions s)) by (by eapply lookup_lt_Some).
  pose proof (wset_at_budget s (wildcardListeners s)) as HW.
  destruct (e_state e) as [arr idx cur rm|ws idx cur| |] eqn:Hst.
  - pose proof (list_of_budget s arr) as HL.
    unfold budget. simpl. unfold awaited. rewrite He. simpl. rewrite Hst.
    unfold EventBus.resume, resume_with. rewrite He, Hst.
    destruct (behaves (callback cur)) as [v|x].
    + edestruct (run_exact k (e_type e) (drop (S idx) (list_of s arr)) (S idx)
                  (add_result e v) s arr) as (s' & Hs' & Hd & (e' & He' & Hst' & _) & _);
        [done | done | done | | rewrite Hs'; split; [done|]].
      { rewrite length_drop. lia. }
      intros _. exists e'. split; [done|]. rewrite Hst'. destruct (_.2); auto.
    + edestruct (run_exact k (e_type e) (drop (S idx) (list_of s arr)) (S idx)
                  (add_error e (lconfig cur) x) s arr) as (s' & Hs' & Hd & (e' & He' & Hst' & _) & _);
        [done | done | done | | rewrite Hs'; split; [done|]].
      { rewrite length_drop. lia. }
      intros _. exists e'. split; [done|]. rewrite Hst'. destruct (_.2); auto.
  - pose proof (wset_at_budget s ws) as HL.
    unfold budget. simpl. unfold awaited. rewrite He. simpl. rewrite Hst.
    unfold EventBus.resume, resume_with. rewrite He, Hst.
    destruct (behaves (wcallback cur)) as [v|x].
    + edestruct (run_wild k (e_type e) (drop (S idx) (wset_at s ws)) (S idx)
                  (add_result e v) s ws) as (s' & Hs' & Hd & (e' & He' & Hst' & _) & _);
        [done | done | done | | rewrite Hs'; split; [done|]].
      { rewrite length_drop. lia. }
      intros _. exists e'. split; [done|]. rewrite Hst'. destruct (_.2); auto.
    + edestruct (run_wild k (e_type e) (drop (S idx) (wset_at s ws)) (S idx)
                  (add_error e (wconfig cur) x) s ws) as (s' & Hs' & Hd & (e' & He' & Hst' & _) & _);
        [done | done | done | | rewrite Hs'; split; [done|]].
      { rewrite length_drop. lia. }
      intros _. exists e'. split; [done|]. rewrite Hst'. destruct (_.2); auto.
  - rewrite (drive_settled _ _ _ _ He) by auto. rewrite app_nil_r. split; [done|].
    intros _. exists e. auto.
  - rewrite (drive_settled _ _ _ _ He) by auto. rewrite app_nil_r. split; [done|].
    intros _. exists e. auto.
Qed.

End Delivery.


Section Invariants.

Variable regex_test : string → string → option bool.
Local Abbreviation emit := (emit regex_test).
Local Abbreviation sp := (respawn regex_test).
Local Abbreviation next_wild := (next_wild regex_test sp).
Local Abbreviation next_exact := (next_exact regex_test sp).
Local Abbreviation finish := (finish sp).
Local Abbreviation resume := (resume regex_test).
Local Abbreviation step := (step regex_test).
Local Abbreviation run := (run regex_test).

Lemma wf_init : wf init.
Proof.
  split; simpl; try done.
  - intros ls Hls. by apply elem_of_nil in Hls.
  - intros ws Hws. apply list_elem_of_singleton in Hws as ->. split; [constructor|].
    intros w Hw. by apply elem_of_nil in Hw.
  - lia.
  - intros c Hc. by apply elem_of_nil in Hc.
Qed.

(** [place] written by recursion on the bucket. *)
Lemma place_cons l x ls :
  place l (x :: ls) =
  if (priority (lconfig x) <? priority (lconfig l))%Z then l :: x :: ls
  else x :: place l ls.
Proof.
  unfold place. simpl. destruct (_ <? _)%Z; [done|].
  destruct (findIndex _ ls); done.
Qed.

Lemma elem_of_place l ls x : x ∈ place l ls ↔ x = l ∨ x ∈ ls.
Proof.
  induction ls as [|y ls IH].
  - unfold place. simpl. set_solver.
  - rewrite place_cons. destruct (_ <? _)%Z; set_solver.
Qed.

(** A listener registered last goes behind the listeners of its priority
    and of higher ones, and in front of all of lower priority. *)
Lemma place_ordered l ls :
  bucket_ordered ls → (∀ x, x ∈ ls → id (lconfig x) < id (lconfig l)) →
  bucket_ordered (place l ls).
Proof.
  unfold bucket_ordered. induction ls as [|y ls IH]; intros Hs Hid.
  - unfold place. simpl. repeat constructor.
  - rewrite place_cons. apply StronglySorted_cons in Hs as [Hy Hs].
    destruct (priority (lconfig y) <? priority (lconfig l))%Z eqn:Hlt.
    + apply Z.ltb_lt in Hlt. apply StronglySorted_cons. split.
      * apply Forall_cons. split; [by left|].
        apply Forall_forall. intros z Hz. rewrite Forall_forall in Hy.
        specialize (Hy z Hz). unfold before in *. lia.
      * apply StronglySorted_cons. done.
    + apply Z.ltb_ge in Hlt. apply StronglySorted_cons. split.
      * apply Forall_forall. intros z Hz. apply elem_of_place in Hz as [->|Hz].
        -- assert (id (lconfig y) < id (lconfig l)) by (apply Hid; left).
           unfold before. lia.
        -- rewrite Forall_forall in Hy. by apply Hy.
      * apply IH; [done|]. intros x Hx. apply Hid. by right.
Qed.

Lemma filter_ordered (P : listener → Prop) `{∀ x, Decision (P x)} ls :
  bucket_ordered ls → bucket_ordered (filter P ls).
Proof.
  unfold bucket_ordered. induction ls as [|y ls IH]; intros Hs; [done|].
  apply StronglySorted_cons in Hs as [Hy Hs].
  destruct (decide (P y)).
  - rewrite filter_cons_True by done. apply StronglySorted_cons. split; [|by apply IH].
    rewrite Forall_forall in *. intros z Hz. apply list_elem_of_filter in Hz as [_ Hz]. by apply Hy.
  - rewrite filter_cons_False by done. by apply IH.
Qed.

Lemma filter_registration_ordered (P : wildcard → Prop) `{∀ x, Decision (P x)} ws :
  registration_ordered ws → registration_ordered (filter P ws).
Proof.
  unfold registration_ordered. induction ws as [|y ws IH]; intros Hs; [done|].
  apply StronglySorted_cons in Hs as [Hy Hs].
  destruct (decide (P y)).
  - rewrite filter_cons_True by done. apply StronglySorted_cons. split; [|by apply IH].
    rewrite Forall_forall in *. intros z Hz. apply list_elem_of_filter in Hz as [_ Hz]. by apply Hy.
  - rewrite filter_cons_False by done. by apply IH.
Qed.

Lemma refs_ok_mono s s' e :
  length (arrays s) ≤ length (arrays s') → length (wsets s) ≤ length (wsets s') →
  refs_ok s e → refs_ok s' e.
Proof.
  unfold refs_ok. intros Ha Hw. destruct (e_state e) as [[r|] ? ? ?|ws ? ?| |]; lia || done.
Qed.

Lemma array_at_wf s r :
  wf s → bucket_ordered (array_at s r) ∧ ∀ l, l ∈ array_at s r → id (lconfig l) < nextListener s.
Proof.
  intros Hwf. unfold array_at. destruct (arrays s !! r) as [ls|] eqn:Hr; simpl.
  - apply (wf_arrays _ Hwf). by eapply list_elem_of_lookup_2.
  - split; [constructor|]. intros l Hl. by apply elem_of_nil in Hl.
Qed.

Lemma wset_at_wf s r :
  wf s → registration_ordered (wset_at s r) ∧ ∀ w, w ∈ wset_at s r → id (wconfig w) < nextListener s.
Proof.
  intros Hwf. unfold wset_at. destruct (wsets s !! r) as [ls|] eqn:Hr; simpl.
  - apply (wf_wsets _ Hwf). by eapply list_elem_of_lookup_2.
  - split; [constructor|]. intros l Hl. by apply elem_of_nil in Hl.
Qed.

Lemma wf_on t cb o s s' : wf s → on t cb o s = Some s' → wf s'.
Proof.
  intros Hwf Hon. unfold on in Hon. destruct t as [name|]; [|done]. destruct cb as [f|]; [|done].
  destruct (includes_star name).
  - (* a wildcard subscription *)
    simplify_eq. destruct (wset_at_wf s (wildcardListeners s) Hwf) as [Hord Hid].
    split; simpl.
    + intros ls Hls. destruct (wf_arrays _ Hwf ls Hls) as [? Hb]. split; [done|].
      intros l Hl. specialize (Hb l Hl). lia.
    + intros ws Hws. apply list_elem_of_lookup in Hws as [i Hi].
      destruct (decide (i = wildcardListeners s)) as [->|Hne].
      * rewrite list_lookup_insert_eq in Hi by apply (wf_current _ Hwf). simplify_eq.
        split.
        -- apply StronglySorted_app. split; [|split; [done|repeat constructor]].
           intros x1 x2 Hx1 Hx2. apply list_elem_of_singleton in Hx2 as ->. simpl.
           unfold wset_at in Hid. simpl in Hid. by apply Hid.
        -- intros w Hw. apply elem_of_app in Hw as [Hw|Hw].
           ++ unfold wset_at in Hid. simpl in Hid. specialize (Hid w Hw). lia.
           ++ apply list_elem_of_singleton in Hw as ->. simpl. lia.
      * rewrite list_lookup_insert_ne in Hi by done.
        destruct (wf_wsets _ Hwf ws) as [? Hb]; [by eapply list_elem_of_lookup_2|].
        split; [done|]. intros w Hw. specialize (Hb w Hw). lia.
    + apply (wf_events _ Hwf).
    + rewrite length_insert. apply (wf_current _ Hwf).
    + eapply Forall_impl; [apply (wf_emissions _ Hwf)|]. intros e. apply refs_ok_mono; simpl; [done|].
      by rewrite length_insert.
    + apply (wf_calls _ Hwf).
    + apply (wf_history _ Hwf).
  - (* an exact subscription *)
    simpl in Hon. destruct (events s !! name) as [r|] eqn:Hr; simpl in Hon; simplify_eq.
    + destruct (array_at_wf s r Hwf) as [Hord Hid]. split; simpl.
      * intros ls Hls. apply list_elem_of_lookup in Hls as [i Hi].
        destruct (decide (i = r)) as [->|Hne].
        -- rewrite list_lookup_insert_eq in Hi by (by eapply (wf_events _ Hwf)). simplify_eq.
           split.
           ++ apply place_ordered; [done|]. simpl. done.
           ++ intros l Hl. apply elem_of_place in Hl as [->|Hl]; simpl; [lia|].
              unfold array_at in Hid. simpl in Hid. specialize (Hid l Hl). lia.
        -- rewrite list_lookup_insert_ne in Hi by done.
           destruct (wf_arrays _ Hwf ls) as [? Hb]; [by eapply list_elem_of_lookup_2|].
           split; [done|]. intros l Hl. specialize (Hb l Hl). lia.
      * intros ws Hws. destruct (wf_wsets _ Hwf ws Hws) as [? Hb]. split; [done|].
        intros w Hw. specialize (Hb w Hw). lia.
      * intros n r' Hn. rewrite length_insert. by eapply (wf_events _ Hwf).
      * apply (wf_current _ Hwf).
      * eapply Forall_impl; [apply (wf_emissions _ Hwf)|]. intros e. apply refs_ok_mono; simpl; [|done].
        by rewrite length_insert.
      * apply (wf_calls _ Hwf).
      * apply (wf_history _ Hwf).
    + split; simpl.
      * intros ls Hls. apply list_elem_of_lookup in Hls as [i Hi].
        destruct (decide (i = length (arrays s))) as [->|Hne].
        -- rewrite list_lookup_insert_eq in Hi by (rewrite length_app; simpl; lia). simplify_eq.
           unfold array_at. simpl. rewrite lookup_app_r by lia. rewrite Nat.sub_diag. simpl.
           split; [unfold place; simpl; repeat constructor|].
           intros l Hl. apply elem_of_place in Hl as [->|Hl]; simpl; [lia|]. by apply elem_of_nil in Hl.
        -- rewrite list_lookup_insert_ne in Hi by done.
           apply list_elem_of_lookup_2 in Hi. apply elem_of_app in Hi as [Hi|Hi].
           ++ destruct (wf_arrays _ Hwf ls Hi) as [? Hb].
              split; [done|]. intros l Hl. specialize (Hb l Hl). lia.
           ++ apply list_elem_of_singleton in Hi as ->. split; [constructor|].
              intros l Hl. by apply elem_of_nil in Hl.
      * intros ws Hws. destruct (wf_wsets _ Hwf ws Hws) as [? Hb]. split; [done|].
        intros w Hw. specialize (Hb w Hw). lia.
      * intros n r' Hn. rewrite length_insert, length_app. simpl.
        destruct (decide (name = n)) as [->|Hne].
        -- rewrite lookup_insert_eq in Hn. simplify_eq. lia.
        -- rewrite lookup_insert_ne in Hn by done. pose proof (wf_events _ Hwf n r' Hn). lia.
      * apply (wf_current _ Hwf).
      * eapply Forall_impl; [apply (wf_emissions _ Hwf)|]. intros e. apply refs_ok_mono; simpl; [|done].
        rewrite length_insert, length_app. lia.
      * apply (wf_calls _ Hwf).
      * apply (wf_history _ Hwf).
Qed.

Lemma wf_off name f s : wf s → wf (off name f s).
Proof.
  intros Hwf. unfold off. destruct (includes_star name).
  - destruct (wset_at_wf s (wildcardListeners s) Hwf) as [Hord Hid].
    split; simpl; try apply Hwf.
    + intros ws Hws. apply elem_of_app in Hws as [Hws|Hws]; [by apply (wf_wsets _ Hwf)|].
      apply list_elem_of_singleton in Hws as ->. split.
      * by apply filter_registration_ordered.
      * intros w Hw. apply list_elem_of_filter in Hw as [_ Hw]. by apply Hid.
    + rewrite length_app. simpl. lia.
    + eapply Forall_impl; [apply (wf_emissions _ Hwf)|]. intros e. apply refs_ok_mono; simpl; [done|].
      rewrite length_app. lia.
  - destruct (events s !! name) as [r|] eqn:Hr; [|done].
    destruct (array_at_wf s r Hwf) as [Hord Hid].
    destruct (decide _).
    + split; simpl; try apply Hwf.
      intros n r' Hn. apply lookup_delete_Some in Hn as [_ Hn]. by eapply (wf_events _ Hwf).
    + split; simpl; try apply Hwf.
      * intros ls Hls. apply elem_of_app in Hls as [Hls|Hls]; [by apply (wf_arrays _ Hwf)|].
        apply list_elem_of_singleton in Hls as ->. split.
        -- by apply filter_ordered.
        -- intros l Hl. apply list_elem_of_filter in Hl as [_ Hl]. by apply Hid.
      * intros n' r' Hn. rewrite length_app. simpl.
        destruct (decide (name = n')) as [->|Hne].
        -- rewrite lookup_insert_eq in Hn. simplify_eq. lia.
        -- rewrite lookup_insert_ne in Hn by done. pose proof (wf_events _ Hwf n' r' Hn). lia.
      * eapply Forall_impl; [apply (wf_emissions _ Hwf)|]. intros e. apply refs_ok_mono; simpl; [|done].
        rewrite length_app. lia.
Qed.

Lemma frame_refl s : frame s s.
Proof. split; auto. Qed.

Lemma frame_extends s s' : extends s s' → frame s s'.
Proof.
  intros [Ha Hw He Hc Hn [e Hem] (cs & Hcs & Hk) Hh]. split; auto.
  - intros n r. rewrite He. auto.
  - rewrite Hem, length_app. lia.
  - intros c. rewrite Hcs, Hem, length_app. simpl. intros [Hc'|Hc']%elem_of_app; [by left|].
    right. rewrite (Hk c Hc'). lia.
Qed.

Lemma history_push_gen (m n : nat) (h : list envelope) env :
  length h = n `min` S m →
  ev_id <$> h = seq (n - length h) (length h) →
  ev_id env = n →
  let h' := if decide (S m < length (h ++ [env]))
            then drop 1 (h ++ [env]) else h ++ [env] in
  length h' = S n `min` S m ∧
  ev_id <$> h' = seq (S n - length h') (length h').
Proof.
  intros Hlen Hids Hid. cbv zeta.
  destruct (decide _) as [Hfull|Hroom]; rewrite length_app in *; simpl in *.
  - assert (Hl : length h = S m) by lia.
    rewrite length_drop, length_app. simpl. split; [lia|].
    rewrite fmap_drop, fmap_app, Hids, Hl. simpl. rewrite Hid.
    replace (m + 1 - 0) with (m + 1) by lia.
    rewrite seq_app. simpl. rewrite drop_0.
    replace (S n - (m + 1)) with (S (n - S m)) by lia.
    do 2 f_equal. lia.
  - assert (Hl : length h = n) by lia.
    split; [lia|].
    rewrite fmap_app, Hids, Hl. simpl. rewrite Hid.
    replace (n - n) with 0 by lia. replace (S n - (n + 1)) with 0 by lia.
    by rewrite seq_app.
Qed.

Lemma history_push n (h : list envelope) env :
  length h = n `min` maxHistorySize →
  ev_id <$> h = seq (n - length h) (length h) →
  ev_id env = n →
  let h' := if decide (maxHistorySize < length (h ++ [env]))
            then drop 1 (h ++ [env]) else h ++ [env] in
  length h' = S n `min` maxHistorySize ∧
  ev_id <$> h' = seq (S n - length h') (length h').
Proof. apply (history_push_gen 99). Qed.

(** The invariant follows along a frame, once the references of the
    emissions are known to be allocated. *)
Lemma wf_frame s s' :
  wf s → frame s s' → Forall (refs_ok s') (emissions s') → wf s'.
Proof.
  intros Hwf [Ha Hw Hc Hn He Hem Hcalls Hh] Hrefs. split.
  - intros ls Hls. rewrite Hn. destruct Ha as [Ha|(rm & arr & Ha)]; rewrite Ha in Hls.
    + by apply (wf_arrays _ Hwf).
    + apply elem_of_app in Hls as [Hls|Hls]; [by apply (wf_arrays _ Hwf)|].
      apply list_elem_of_singleton in Hls as ->.
      assert (Hl : bucket_ordered (list_of s arr) ∧
                   ∀ l, l ∈ list_of s arr → id (lconfig l) < nextListener s).
      { destruct arr as [r|]; simpl; [by apply array_at_wf|].
        split; [constructor|]. intros l Hl. by apply elem_of_nil in Hl. }
      destruct Hl as [Hord Hid]. split; [by apply filter_ordered|].
      intros l Hl. apply list_elem_of_filter in Hl as [_ Hl]. by apply Hid.
  - rewrite Hw, Hn. apply (wf_wsets _ Hwf).
  - intros n r Hr. destruct (He n r Hr) as [Hold|[_ Hnew]]; [|done].
    pose proof (wf_events _ Hwf n r Hold).
    destruct Ha as [Ha|(rm & arr & Ha)]; rewrite Ha; [done|]. rewrite length_app. lia.
  - rewrite Hc, Hw. apply (wf_current _ Hwf).
  - done.
  - intros c Hc'. destruct (Hcalls c Hc') as [Hold|Hnew]; [|done].
    pose proof (wf_calls _ Hwf c Hold). lia.
  - destruct (wf_history _ Hwf) as [Hlen Hids].
    destruct Hh as [[-> ->]|(env & Hid & -> & ->)]; [done|].
    by apply history_push.
Qed.

Lemma frame_put s0 s k e : frame s0 s → frame s0 (put k e s).
Proof.
  intros [? ? ? ? ? ? ? ?]. split; simpl; auto.
  - by rewrite length_insert.
  - intros c Hc. rewrite length_insert. auto.
Qed.

Lemma frame_call s0 s k c : frame s0 s → k < length (emissions s) → frame s0 (call k c s).
Proof.
  intros [? ? ? ? ? ? Hcalls ?] Hk. split; simpl; auto.
  intros c' [Hc|Hc]%elem_of_app; [auto|].
  apply list_elem_of_singleton in Hc as ->. by right.
Qed.

Lemma frame_timers s0 s f : frame s0 s → frame s0 (set_timers f s).
Proof. intros [? ? ? ? ? ? ? ?]. split; simpl; auto. Qed.

Lemma frame_respawn s0 s t d :
  frame s0 s → eventHistory s = eventHistory s0 → nextEvent s = nextEvent s0 →
  frame s0 (sp t d s).
Proof.
  intros [Ha Hw Hc Hn He Hem Hcalls _] Hh Hne.
  destruct (emit_extends regex_test t d "unknown" s)
    as [Ha' Hw' He' Hc' Hn' [e Hem'] (cs & Hcs & Hk) Hh'].
  unfold respawn. split.
  - by rewrite Ha'.
  - by rewrite Hw'.
  - by rewrite Hc'.
  - by rewrite Hn'.
  - intros n r. rewrite He', Ha'. apply He.
  - rewrite Hem', length_app. lia.
  - intros c. rewrite Hcs, Hem', length_app. simpl. intros [Hc1|Hc1]%elem_of_app.
    + destruct (Hcalls c Hc1); [by left|right; lia].
    + right. rewrite (Hk c Hc1). lia.
  - right. rewrite <- Hh, <- Hne. done.
Qed.

Lemma frame_remove t arr rm s : frame s (remove_listeners t arr rm s).
Proof.
  unfold remove_listeners. destruct rm as [|x rm]; [apply frame_refl|].
  destruct t as [name|]; [|apply frame_refl].
  destruct (decide _) as [Hz|Hz]; split; simpl; auto.
  - intros n' r Hr. apply lookup_delete_Some in Hr as [_ Hr]. auto.
  - right. by exists (x :: rm), arr.
  - intros n' r Hr. rewrite length_app. simpl.
    destruct (decide (name = n')) as [->|Hne].
    + rewrite lookup_insert_eq in Hr. simplify_eq. right. lia.
    + rewrite lookup_insert_ne in Hr by done. auto.
Qed.

Lemma frame_next_wild s0 s k e ws idx :
  frame s0 s → eventHistory s = eventHistory s0 → nextEvent s = nextEvent s0 →
  k < length (emissions s) →
  frame s0 (next_wild k e ws idx s).
Proof.
  intros Hf Hh Hn Hk. unfold EventBus.next_wild.
  destruct (scan_wild _ _ _ _) as [i w| |].
  - apply frame_put. by apply frame_call.
  - unfold EventBus.finish. apply frame_put.
    destruct (e_errors e); [done|]. destruct (decide _); [done|]. by apply frame_respawn.
  - unfold critical. apply frame_put. destruct (decide _); [done|]. by apply frame_timers.
Qed.

Lemma frame_next_exact s k e arr idx rm :
  k < length (emissions s) → frame s (next_exact k e arr idx rm s).
Proof.
  intros Hk. unfold EventBus.next_exact. destruct (list_of s arr !! idx) as [l|].
  - apply frame_put. apply frame_call; [apply frame_refl | done].
  - pose proof (frame_remove (e_type e) arr rm s) as Hf.
    assert (Hsame : eventHistory (remove_listeners (e_type e) arr rm s) = eventHistory s ∧
                    nextEvent (remove_listeners (e_type e) arr rm s) = nextEvent s ∧
                    emissions (remove_listeners (e_type e) arr rm s) = emissions s).
    { unfold remove_listeners. destruct rm; [done|]. destruct (e_type e); [|done].
      by destruct (decide _). }
    destruct Hsame as (Hh & Hn & Hem).
    apply frame_next_wild; try done. by rewrite Hem.
Qed.

Lemma resume_frame k o s : frame s (resume k o s).
Proof.
  unfold EventBus.resume, resume_with.
  destruct (emissions s !! k) as [e|] eqn:He; [|apply frame_refl].
  assert (Hk : k < length (emissions s)) by (by eapply lookup_lt_Some).
  destruct (e_state e), o; try apply frame_refl;
    try (by apply frame_next_exact);
    (apply frame_next_wild; [apply frame_refl | done | done | done]).
Qed.

Lemma emit_frame t d src s : frame s (emit t d src s).
Proof. apply frame_extends, emit_extends. Qed.

Section Refs.

Variable spawn0 : evtype → payload → bus → bus.
Hypothesis spawn_good : ∀ t d s, good s → good (spawn0 t d s).

Lemma good_put k e s : good s → refs_ok s e → good (put k e s).
Proof.
  intros (He & Hc & Hr) Hk. split; [done|]. split; [done|]. simpl.
  apply Forall_insert; [|done]. eapply Forall_impl; [apply Hr|]. by intros e0.
Qed.

Lemma good_call k c s : good s → good (call k c s).
Proof. by intros (He & Hc & Hr). Qed.

Lemma good_timers f s : good s → good (set_timers f s).
Proof. by intros (He & Hc & Hr). Qed.

Lemma good_remove t arr rm s : good s → good (remove_listeners t arr rm s).
Proof.
  intros (He & Hc & Hr). unfold remove_listeners. destruct rm as [|x rm]; [done|].
  destruct t as [name|]; [|done]. destruct (decide _) as [Hz|Hz].
  - split; [|done]. simpl. intros n' r Hn. apply lookup_delete_Some in Hn as [_ Hn]. by eapply He.
  - split; [|split; [done|]]; simpl.
    + intros n' r Hn. rewrite length_app. simpl.
      destruct (decide (name = n')) as [->|Hne].
      * rewrite lookup_insert_eq in Hn. simplify_eq. lia.
      * rewrite lookup_insert_ne in Hn by done. pose proof (He n' r Hn). lia.
    + eapply Forall_impl; [apply Hr|]. intros e0. apply refs_ok_mono; simpl; [|done].
      rewrite length_app. lia.
Qed.

Lemma good_next_wild k e ws idx s :
  good s → ws < length (wsets s) →
  good (EventBus.next_wild regex_test spawn0 k e ws idx s).
Proof using spawn_good.
  intros Hg Hws. unfold EventBus.next_wild. destruct (scan_wild _ _ _ _) as [i w| |].
  - apply good_put; [by apply good_call|]. done.
  - unfold EventBus.finish. apply good_put; [|done].
    destruct (e_errors e); [done|]. destruct (decide _); [done|]. by apply spawn_good.
  - unfold critical. apply good_put; [|done]. destruct (decide _); [done|]. by apply good_timers.
Qed.

Lemma good_next_exact k e arr idx rm s :
  good s → (∀ r, arr = Some r → r < length (arrays s)) →
  good (EventBus.next_exact regex_test spawn0 k e arr idx rm s).
Proof using spawn_good.
  intros Hg Harr. unfold EventBus.next_exact. destruct (list_of s arr !! idx) as [l|].
  - apply good_put; [by apply good_call|]. unfold refs_ok. simpl. destruct arr; auto.
  - pose proof (good_remove (e_type e) arr rm s Hg) as Hg'.
    apply good_next_wild; [done|]. apply Hg'.
Qed.

Lemma good_start t d src s : good s → good (start regex_test spawn0 t d src s).
Proof using spawn_good.
  intros (He & Hc & Hr). unfold start. apply good_next_exact.
  - split; [done|]. split; [done|]. unfold log_event. simpl.
    apply Forall_app. split; [|by repeat constructor].
    eapply Forall_impl; [apply Hr|]. by intros e0.
  - intros r Hr'. unfold log_event. simpl. destruct t as [name|]; [|done]. by eapply He.
Qed.

End Refs.

Lemma good_emit t d src s : good s → good (emit t d src s).
Proof. apply good_start. by intros _ _ s0. Qed.

Lemma good_resume k o s : good s → good (resume k o s).
Proof.
  intros Hg. unfold EventBus.resume, resume_with.
  destruct (emissions s !! k) as [e|] eqn:He; [|done].
  assert (Hok : refs_ok s e).
  { destruct Hg as (_ & _ & Hr). rewrite Forall_forall in Hr. apply Hr.
    by eapply list_elem_of_lookup_2. }
  assert (Hsp : ∀ t d s0, good s0 → good (sp t d s0)) by (intros; by apply good_emit).
  unfold refs_ok in Hok.
  destruct (e_state e) as [arr idx cur rm|ws idx cur| |], o; try done.
  - apply good_next_exact; [done..|]. intros r ->. done.
  - apply good_next_exact; [done..|]. intros r ->. done.
  - by apply good_next_wild.
  - by apply good_next_wild.
Qed.

Lemma wf_good s : wf s → good s.
Proof. intros Hwf. split; [apply Hwf|]. split; apply Hwf. Qed.

Lemma wf_emit t d src s : wf s → wf (emit t d src s).
Proof.
  intros Hwf. eapply wf_frame; [done | apply emit_frame |].
  apply good_emit. by apply wf_good.
Qed.

Lemma wf_resume k o s : wf s → wf (resume k o s).
Proof.
  intros Hwf. eapply wf_frame; [done | apply resume_frame |].
  apply good_resume. by apply wf_good.
Qed.

Lemma wf_fire_timer s : wf s → wf (fire_timer regex_test s).
Proof.
  intros Hwf. unfold fire_timer. destruct (timers s) as [|[t eid] rest]; [done|].
  apply wf_emit. by destruct Hwf.
Qed.

Lemma wf_step s a : wf s → wf (step s a).
Proof.
  intros Hwf. destruct a as [t cb o|name f|t d src|k o|]; simpl.
  - destruct (on t cb o s) as [s'|] eqn:Hon; simpl; [by eapply wf_on|done].
  - by apply wf_off.
  - by apply wf_emit.
  - by apply wf_resume.
  - by apply wf_fire_timer.
Qed.

(** Every state that the bus reaches from its construction on is
    well-formed. *)
Lemma wf_run tr s : wf s → wf (run tr s).
Proof.
  revert s. induction tr as [|a tr IH]; intros s Hwf; [done|].
  simpl. apply IH. by apply wf_step.
Qed.

End Invariants.

Section Claims.

Variable regex_test : string → string → option bool.
Variable behaves : nat → outcome.

Local Abbreviation emit_all := (emit_all regex_test).

Local Abbreviation emit := (emit regex_test).
Local Abbreviation resume := (resume regex_test).
Local Abbreviation run := (run regex_test).
Local Abbreviation complete := (complete regex_test behaves).
Local Abbreviation publish := (publish regex_test behaves).
Local Abbreviation wild_plan := (wild_plan regex_test).
Local Abbreviation remaining := (remaining regex_test).
Local Abbreviation matching := (matching regex_test).
Local Abbreviation until_throw := (until_throw regex_test).
Local Abbreviation matchesWildcard := (matchesWildcard regex_test).

Lemma wild_plan_until t ws :
  (wild_plan t ws).1 = matching t (until_throw t ws) ∧
  ((wild_plan t ws).2 = false ↔ until_throw t ws = ws).
Proof.
  induction ws as [|w ws [IH1 IH2]]; [done|]. simpl. unfold EventBus.matching in *.
  destruct (matchesWildcard t (pattern w)) as [[|]|] eqn:Hm.
  - destruct (wild_plan t ws) as [p b]. simpl in *.
    rewrite filter_cons_True by done. rewrite IH1. split; [done|].
    rewrite IH2. split; [by intros ->|]. by intros [=].
  - rewrite filter_cons_False by (rewrite Hm; done). split; [done|].
    rewrite IH2. split; [by intros ->|]. by intros [=].
  - done.
Qed.

Lemma until_throw_all t ws :
  (∀ w, w ∈ ws → matchesWildcard t (pattern w) ≠ None) → until_throw t ws = ws.
Proof.
  induction ws as [|w ws IH]; intros Hall; [done|]. simpl.
  destruct (matchesWildcard t (pattern w)) eqn:Hm.
  - f_equal. apply IH. intros w' Hw'. apply Hall. by right.
  - exfalso. by apply (Hall w); [left|].
Qed.

Lemma delivered_fresh s : wf s → delivered (length (emissions s)) s = [].
Proof.
  intros Hwf. unfold delivered.
  replace (filter (λ c, c.1 = length (emissions s)) (calls s)) with (@nil (nat * nat)); [done|].
  symmetry. pose proof (wf_calls _ Hwf) as Hc. induction (calls s) as [|c cs IH]; [done|].
  rewrite filter_cons_False.
  - apply IH. intros c' Hc'. apply Hc. by right.
  - pose proof (Hc c ltac:(left)). lia.
Qed.

Lemma until_throw_sublist t ws : until_throw t ws `sublist_of` ws.
Proof.
  induction ws as [|w ws IH]; [done|]. simpl.
  destruct (matchesWildcard t (pattern w)); [by constructor|apply sublist_nil_l].
Qed.

Lemma registration_ordered_sublist ws ws' :
  ws' `sublist_of` ws → registration_ordered ws → registration_ordered ws'.
Proof.
  unfold registration_ordered. induction 1 as [|x l1 l2 Hsub IH|x l1 l2 Hsub IH]; intros Hs; [done|..].
  - apply StronglySorted_cons in Hs as [Hx Hs]. apply StronglySorted_cons. split; [|by apply IH].
    rewrite Forall_forall in *. intros y Hy. apply Hx. by eapply elem_of_sublist.
  - apply StronglySorted_cons in Hs as [Hx Hs]. by apply IH.
Qed.



Lemma off_calls name f s : calls (off name f s) = calls s.
Proof.
  unfold off. destruct (includes_star name); [done|].
  destruct (events s !! name); [|done]. by destruct (decide _).
Qed.

Lemma off_emissions name f s : emissions (off name f s) = emissions s.
Proof.
  unfold off. destruct (includes_star name); [done|].
  destruct (events s !! name); [|done]. by destruct (decide _).
Qed.

Lemma off_exact_frame name f s :
  includes_star name = false →
  wsets (off name f s) = wsets s ∧ wildcardListeners (off name f s) = wildcardListeners s ∧
  ∃ extra, arrays (off name f s) = arrays s ++ extra.
Proof.
  intros Hstar. unfold off. rewrite Hstar.
  destruct (events s !! name); [|by (repeat split; exists []; rewrite app_nil_r)].
  destruct (decide _); simpl; repeat split; eauto.
  exists []. by rewrite app_nil_r.
Qed.



Lemma emit_history t d src s :
  eventHistory (emit t d src s) =
    (if decide (maxHistorySize < length (eventHistory s ++ [Envelope t d (nextEvent s) src]))
     then drop 1 (eventHistory s ++ [Envelope t d (nextEvent s) src])
     else eventHistory s ++ [Envelope t d (nextEvent s) src]) ∧
  nextEvent (emit t d src s) = S (nextEvent s).
Proof.
  unfold EventBus.emit, emit_at, start, EventBus.next_exact, log_event. simpl.
  destruct (list_of _ _ !! 0); [done|].
  unfold EventBus.next_wild. simpl.
  destruct (scan_wild _ _ _ _); [done|done|].
  unfold critical. simpl. by destruct (decide (t = _)).
Qed.

Lemma last_n_push {A} (n : nat) (h : list A) (x : A) :
  length h ≤ S n →
  (if decide (S n < length (h ++ [x])) then drop 1 (h ++ [x]) else h ++ [x]) = last_n (S n) (h ++ [x]).
Proof.
  intros Hlen. unfold last_n. rewrite length_app. simpl.
  destruct (decide _).
  - by replace (length h + 1 - S n) with 1 by lia.
  - by replace (length h + 1 - S n) with 0 by lia.
Qed.

Lemma last_n_app_last_n {A} (n : nat) (l k : list A) :
  last_n n (last_n n l ++ k) = last_n n (l ++ k).
Proof.
  unfold last_n. rewrite !length_app, length_drop.
  rewrite <- (drop_app_le l k (length l - n)) by lia.
  rewrite drop_drop. f_equal. lia.
Qed.

Lemma length_last_n {A} (n : nat) (l : list A) : length (last_n n l) = length l `min` n.
Proof. unfold last_n. rewrite length_drop. lia. Qed.

Lemma emit_all_history evs : ∀ s,
  length (eventHistory s) ≤ maxHistorySize →
  eventHistory (emit_all evs s) =
    last_n maxHistorySize
      (eventHistory s ++ imap (λ i e, Envelope e.1 e.2 (nextEvent s + i) "unknown") evs).
Proof.
  unfold maxHistorySize. induction evs as [|[t d] evs IH]; intros s Hlen.
  - simpl. rewrite app_nil_r. unfold last_n. by replace (length (eventHistory s) - 100) with 0 by lia.
  - simpl. destruct (emit_history t d "unknown" s) as [Hh Hn].
    unfold maxHistorySize in Hh. rewrite (last_n_push 99) in Hh by done.
    rewrite IH by (rewrite Hh, length_last_n; lia).
    rewrite Hh, Hn, last_n_app_last_n, <- app_assoc. simpl.
    rewrite Nat.add_0_r. do 3 f_equal. apply imap_ext. intros i [t' d'] _. simpl.
    f_equal. lia.
Qed.

(** C8, the buffer.  A call of [emit] puts exactly one record on the
    history and, when that makes more than 100, drops the oldest one. *)
Lemma emit_appends_one_envelope t d src s :
  eventHistory (emit t d src s) =
    (if decide (maxHistorySize < length (eventHistory s ++ [Envelope t d (nextEvent s) src]))
     then drop 1 (eventHistory s ++ [Envelope t d (nextEvent s) src])
     else eventHistory s ++ [Envelope t d (nextEvent s) src]).
Proof. apply emit_history. Qed.

(** C8, the buffer.  In every state the bus reaches, the history holds the
    most recent records, at most 100 of them, oldest first. *)
Lemma history_is_bounded_fifo tr :
  let s := run tr init in
  length (eventHistory s) = nextEvent s `min` 100 ∧
  ev_id <$> eventHistory s = seq (nextEvent s - length (eventHistory s)) (length (eventHistory s)).
Proof. apply wf_history, wf_run, wf_init. Qed.

(** C8, the buffer.  After 101 emissions on a new bus the history holds
    100 records: the first one is gone, the other 100 are there in the
    order of their emission. *)
Lemma history_after_101_events (evs : list (evtype * payload)) :
  length evs = 101 →
  eventHistory (emit_all evs init) =
    drop 1 (imap (λ i e, Envelope e.1 e.2 i "unknown") evs) ∧
  length (eventHistory (emit_all evs init)) = 100.
Proof.
  intros Hlen. rewrite emit_all_history by (simpl; lia). simpl.
  unfold last_n. rewrite length_imap, Hlen. split; [done|].
  rewrite length_drop, length_imap, Hlen. done.
Qed.

(** [getHistory(N)] for [N ≥ 1] returns the last [N] records, or all of
    them when there are fewer. *)
Lemma getHistory_positive (n : nat) s :
  1 ≤ n → getHistory (Z.of_nat n) s = last_n n (eventHistory s).
Proof.
  intros Hn. unfold getHistory, slice_from, last_n.
  destruct (Z.ltb_spec (- Z.of_nat n) 0); [|lia]. f_equal. lia.
Qed.

(** C8, the accessor at 0.  [getHistory(0)] is [eventHistory.slice(-0)], and
    [-0] is [0]: the call returns the whole history and not the empty list
    of the most recent 0 records. *)
Theorem getHistory_zero_returns_everything s : getHistory 0 s = eventHistory s.
Proof.
  unfold getHistory, slice_from. change (- 0)%Z with 0%Z. simpl.
  by rewrite Z.min_l by lia.
Qed.


End Claims.

(** C10. One [off(P, f)] on an exact pattern [P] leaves in the bucket of [P]
    exactly the former listeners whose callback is not [f], in their former
    order, so every subscription of [f] on [P] is removed at once; and when
    nothing is left, [P] has no bucket any more. *)
Theorem off_removes_every_subscription (s : bus) (P : string) (f : nat) (ls : list listener) :
  includes_star P = false →
  bucket s P = Some ls →
  let kept := filter (λ l, callback l ≠ f) ls in
  (∀ l, l ∈ kept → callback l ≠ f) ∧
  (∀ l, l ∈ ls → callback l ≠ f → l ∈ kept) ∧
  (kept = [] → events (off P f s) !! P = None ∧ bucket (off P f s) P = None) ∧
  (kept ≠ [] → bucket (off P f s) P = Some kept).
Proof.
  intros Hstar Hb kept. unfold bucket in Hb.
  destruct (events s !! P) as [r|] eqn:Hr; simplify_eq/=.
  split; [|split; [|split]].
  - intros l Hl. apply list_elem_of_filter in Hl. tauto.
  - intros l Hl Hne. apply list_elem_of_filter. tauto.
  - intros Hk. unfold off, bucket. rewrite Hstar, Hr. fold kept. rewrite Hk. simpl.
    rewrite lookup_delete_eq. done.
  - intros Hk. unfold off, bucket. rewrite Hstar, Hr. fold kept.
    destruct (decide (length kept = 0)) as [Hz|Hz].
    { destruct kept; [done | discriminate]. }
    simpl. rewrite lookup_insert_eq. simpl. unfold array_at. simpl.
    rewrite lookup_app_r by lia. by rewrite Nat.sub_diag.
Qed.


(** C1, on the code.  A listener subscribed with the once flag and two
    emissions of its event started one after the other: each call of
    [emit] enters the callback in its synchronous prefix, and the listener
    is still in the bucket when the second call reads it, since the bucket
    is only replaced after the first loop of the first call has ended. *)
Theorem once_listener_invoked_by_both_emissions :
  calls (EventBus.run idle_engine overlap init) = [(0, 0); (1, 0)] ∧
  invocations 0 (EventBus.run idle_engine overlap init) = 2.
Proof. split; vm_compute; reflexivity. Qed.





Lemma off_removes_every_subscription_witness :
  includes_star "x" = false ∧
  bucket subscribed_twice "x" = Some bucket_x ∧
  bucket (off "x" 1 subscribed_twice) "x" = Some [Listener 2 (Config false 0%Z "unknown" 1)].
Proof.
  split; [reflexivity|]. split; [vm_compute; reflexivity|].
  destruct (off_removes_every_subscription subscribed_twice "x" 1 bucket_x)
    as (_ & _ & _ & H); [reflexivity | vm_compute; reflexivity |].
  apply H. discriminate.
Defined.

End EventBusFacts.

(** * Properties of the module loader and the vault core *)

Module KernelFacts.
Import Kernel.

(** *** Lists of continuations *)

Lemma activated_in_mono l l' d : l `prefix_of` l' → activated_in l d → activated_in l' d.
Proof. intros [k ->] [m Hm]. exists m. apply elem_of_app. by left. Qed.

Lemma ready_in_mono l l' deps : l `prefix_of` l' → ready_in l deps → ready_in l' deps.
Proof.
  intros Hl Hr d Hd. destruct (Hr d Hd) as [?|?]; [by left|right]. by eapply activated_in_mono.
Qed.

Lemma lookup_prefix {A} (l l' : list A) i x : l `prefix_of` l' → l !! i = Some x → l' !! i = Some x.
Proof. intros [k ->] Hi. by apply lookup_app_l_Some. Qed.

Lemma queue_joins_mono l l' A A' q :
  l `prefix_of` l' → A ⊆ A' → queue_joins l A q → queue_joins l' A' q.
Proof.
  intros Hl. revert A A'. induction q as [|[k o] q IH]; intros A A' HA; [done|].
  simpl. intros [H1 H2]. split.
  - destruct k; try done. destruct o; [|done]. destruct H1; [left|right]; eauto using activated_in_mono.
  - eapply IH; [|done]. set_solver.
Qed.

Lemma queue_joins_activated l A B q :
  (∀ n, n ∈ A → activated_in l n) → queue_joins l (A ++ B) q → queue_joins l B q.
Proof.
  revert B. induction q as [|[k o] q IH]; intros B HA; [done|].
  simpl. intros [H1 H2]. split.
  - destruct k; try done. destruct o; [|done]. destruct H1 as [?|Hin]; [by left|].
    apply elem_of_app in Hin as [?|?]; [left; by apply HA|by right].
  - apply IH; [done|]. eapply queue_joins_mono; [done| |done]. set_solver.
Qed.

Lemma queue_joins_app l A q1 q2 :
  queue_joins l A q1 → (∀ B, queue_joins l B q2) → queue_joins l A (q1 ++ q2).
Proof.
  revert A. induction q1 as [|[k o] q1 IH]; intros A H1 H2; simpl; [done|].
  destruct H1 as [? ?]. split; [done|]. by apply IH.
Qed.

Lemma queue_joins_snoc l A q k o :
  queue_joins l A q →
  (∀ name self v, k = KJoin name self → o = Ok v →
     activated_in l name ∨ name ∈ A ∨ name ∈ queue_owners q) →
  queue_joins l A (q ++ [(k, o)]).
Proof.
  revert A. induction q as [|[k' o'] q IH]; intros A H1 H2; simpl.
  - split; [|done]. destruct k; try done. destruct o; [|done].
    destruct (H2 _ _ _ eq_refl eq_refl) as [?|[?|Hn]]; auto. by apply elem_of_nil in Hn.
  - destruct H1 as [? H1]. split; [done|]. apply IH; [done|].
    intros name self v -> ->. destruct (H2 _ _ _ eq_refl eq_refl) as [?|[?|Hn]]; auto.
    + right. left. set_solver.
    + simpl in Hn. set_solver.
Qed.

Lemma queue_owners_elem name self m q :
  (KOwner name self, Ok (VInstance m)) ∈ q → name ∈ queue_owners q.
Proof.
  induction q as [|[k o] q IH]; intros Hin; [by apply elem_of_nil in Hin|].
  apply elem_of_cons in Hin as [Heq|Hin]; simpl.
  - inversion Heq; subst. simpl. set_solver.
  - set_solver.
Qed.

Lemma queue_joins_err l A ws e : queue_joins l A ((λ k, (k, Err e)) <$> ws).
Proof.
  revert A. induction ws as [|k ws IH]; intros A; simpl; [done|].
  split; [by destruct k|]. apply IH.
Qed.

Lemma queue_joins_no_joiner l A ws o :
  (∀ name self, KJoin name self ∉ ws) → queue_joins l A ((λ k, (k, o)) <$> ws).
Proof.
  revert A. induction ws as [|k ws IH]; intros A Hno; simpl; [done|]. split.
  - destruct k; try done. exfalso. eapply Hno. left.
  - apply IH. intros name self Hin. eapply Hno. by right.
Qed.

(** The continuations of a settled promise enter the queue in their
    order. *)
Lemma waiters_to_queue l A ws o :
  (∀ name self v, KJoin name self ∈ ws → o = Ok v → ∃ m, v = VInstance m) →
  waiters_joins A ws → queue_joins l A ((λ k, (k, o)) <$> ws).
Proof.
  intros Ho. destruct o as [v|e]; [|intros _; apply queue_joins_err].
  assert (Hcase : (∃ m, v = VInstance m) ∨ ¬ (∃ m, v = VInstance m)).
  { destruct v; eauto; right; by intros [? ?]. }
  destruct Hcase as [[m ->]|Hv].
  - clear Ho. revert A. induction ws as [|k ws IH]; intros A; simpl; [done|].
    intros [H1 H2]. split.
    + destruct k; try done. by right.
    + destruct k; simpl in *; by apply IH.
  - intros _. apply queue_joins_no_joiner. intros name self Hin.
    destruct (Ho name self v Hin eq_refl) as [m ->]. apply Hv. by exists m.
Qed.

Lemma waiters_joins_mono A A' ws : A ⊆ A' → waiters_joins A ws → waiters_joins A' ws.
Proof.
  revert A A'. induction ws as [|k ws IH]; intros A A' HA; [done|].
  simpl. intros [H1 H2]. split.
  - destruct k; try done. set_solver.
  - eapply IH; [|done]. set_solver.
Qed.

Lemma waiters_joins_snoc A ws k :
  waiters_joins A ws →
  (∀ name self, k = KJoin name self → name ∈ A ∨ name ∈ waiters_owners ws) →
  waiters_joins A (ws ++ [k]).
Proof.
  revert A. induction ws as [|k' ws IH]; intros A H1 H2; simpl.
  - split; [|done]. destruct k; try done.
    destruct (H2 _ _ eq_refl) as [?|Hn]; [done|]. by apply elem_of_nil in Hn.
  - destruct H1 as [? H1]. split; [done|]. apply IH; [done|].
    intros name self ->. destruct (H2 _ _ eq_refl) as [?|Hn]; [left; set_solver|].
    simpl in Hn. set_solver.
Qed.

Lemma waiters_owners_elem name self ws : KOwner name self ∈ ws → name ∈ waiters_owners ws.
Proof.
  induction ws as [|k ws IH]; intros Hin; [by apply elem_of_nil in Hin|].
  apply elem_of_cons in Hin as [<-|Hin]; simpl; set_solver.
Qed.

Section Safety.

Variable files : string → option moduleClass.
Variable stack : nat.

Local Abbreviation inv := (inv files).
Local Abbreviation waits_ok := (waits_ok files).
Local Abbreviation queued_ok := (queued_ok files).
Local Abbreviation settled_ok := (settled_ok files).
Local Abbreviation fulfilled_ok := (fulfilled_ok files).
Local Abbreviation event_ok := (event_ok files).
Local Abbreviation trace_ok := (trace_ok files).
Local Abbreviation genuine := (genuine files).
Local Abbreviation load_spec := (load_spec files).

(** *** Monotonicity *)

Lemma settled_ok_mono l l' r o : l `prefix_of` l' → settled_ok l r o → settled_ok l' r o.
Proof.
  intros Hl. destruct o as [v|e]; [|done]. simpl.
  destruct r; simpl; eauto using activated_in_mono, ready_in_mono.
  intros (m & ? & ? & ?). exists m. eauto using ready_in_mono.
Qed.

Lemma waits_ok_mono roles roles' l l' r k :
  roles `prefix_of` roles' → l `prefix_of` l' →
  waits_ok roles l r k → waits_ok roles' l' r k.
Proof.
  intros Hr Hl. destruct k; simpl.
  - intros [? ?]. eauto using lookup_prefix.
  - intros [? ?]. eauto using lookup_prefix.
  - intros [? ?]. eauto using lookup_prefix.
  - intros (? & ? & ?). eauto using lookup_prefix.
  - intros (? & ? & ? & ?). eauto 6 using lookup_prefix, ready_in_mono.
  - intros (d & deps & ? & ? & Hx). exists d, deps. split; [done|]. split; [by eapply lookup_prefix|].
    intros x Hin. destruct (Hx x Hin) as [?|[?|?]]; eauto using activated_in_mono.
  - intros [? ?]. eauto using lookup_prefix.
Qed.

Lemma queued_ok_mono roles roles' l l' ko :
  roles `prefix_of` roles' → l `prefix_of` l' →
  queued_ok roles l ko → queued_ok roles' l' ko.
Proof.
  intros Hr Hl (r & Hw & Hs). exists r. eauto using waits_ok_mono, settled_ok_mono.
Qed.


(** *** The steps of the promise machinery *)

Lemma trace_ok_snoc l e : trace_ok l → event_ok l e → trace_ok (l ++ [e]).
Proof.
  intros Ht He l1 e' l2 Heq.
  destruct l2 as [|x l2 _] using rev_ind.
  - apply app_inj_tail in Heq as [-> ->]. done.
  - rewrite app_comm_cons, app_assoc in Heq. apply app_inj_tail in Heq as [-> _].
    by eapply Ht.
Qed.

Lemma inv_new_promise roles s r : inv roles s → inv (roles ++ [r]) (new_promise s).2.
Proof.
  intros [Hr Hl Hc Hs Hw [Hq Hj] Hf Ht Hi Htr].
  assert (Hpre : roles `prefix_of` roles ++ [r]) by (by apply prefix_app_r).
  assert (Hold : ∀ p x, promises s !! p = Some x → (roles ++ [r]) !! p = roles !! p).
  { intros p x Hp. apply lookup_app_l. rewrite Hr. by eapply lookup_lt_Some. }
  split; simpl; try done.
  - rewrite !length_app. simpl. lia.
  - intros p o r' Hp. apply lookup_app_Some in Hp as [Hp|[_ Hp]].
    + rewrite (Hold _ _ Hp). by apply Hs.
    + by destruct (p - length (promises s)) as [|[|?]].
  - intros p ws r' Hp. apply lookup_app_Some in Hp as [Hp|[_ Hp]].
    + rewrite (Hold _ _ Hp). intros Hr'. destruct (Hw _ _ _ Hp Hr') as [H1 H2]. split; [|done].
      eapply Forall_impl; [done|]. intros k. by apply waits_ok_mono.
    + destruct (p - length (promises s)) as [|[|?]]; simplify_eq/=. done.
  - split; [|done]. eapply Forall_impl; [done|]. intros k. by apply queued_ok_mono.
  - intros name p Hp. destruct (Hf _ _ Hp) as [H1 H2]. split; [by eapply lookup_prefix|].
    simpl. destruct (promises s !! p) as [x|] eqn:Hx; [|done]. by rewrite (lookup_app_l_Some _ _ _ _ Hx).
  - intros p name Hp. eapply lookup_prefix; [done|]. by eapply Ht.
  - intros p m Hp. eapply lookup_prefix; [done|]. by eapply Hi.
Qed.

Lemma inv_await roles s p k r :
  inv roles s → roles !! p = Some r → waits_ok roles (log s) r k →
  (∀ name self, k = KJoin name self → flight_ok roles s name p) →
  inv roles (await p k s).
Proof.
  intros [Hr Hl Hc Hs Hw [Hq Hj] Hf Ht Hi Htr] Hrole Hk Hjoin. unfold await.
  destruct (promises s !! p) as [[ws|o]|] eqn:Hp; [| |done].
  - (* the promise is pending: one more waiter *)
    assert (Hlt : p < length (promises s)) by (by eapply lookup_lt_Some).
    split; simpl; try done.
    + by rewrite length_insert.
    + intros p' o r' Hp'. destruct (decide (p' = p)) as [->|Hne].
      * by rewrite list_lookup_insert_eq in Hp'.
      * rewrite list_lookup_insert_ne in Hp' by done. by apply Hs.
    + intros p' ws' r' Hp'. destruct (decide (p' = p)) as [->|Hne].
      * rewrite list_lookup_insert_eq in Hp' by done. simplify_eq. intros Hr'. simplify_eq.
        destruct (Hw _ _ _ Hp Hrole) as [H1 H2]. split.
        -- apply Forall_app. split; [done|]. by repeat constructor.
        -- apply waiters_joins_snoc; [done|]. intros name self ->. right.
           destruct (Hjoin _ _ eq_refl) as [_ Hfl]. rewrite Hp in Hfl.
           destruct Hfl as [self' Hin]. by eapply waiters_owners_elem.
      * rewrite list_lookup_insert_ne in Hp' by done. by apply Hw.
    + intros name p' Hp'. destruct (Hf _ _ Hp') as [H1 H2]. split; [done|]. simpl.
      destruct (decide (p' = p)) as [->|Hne].
      * rewrite list_lookup_insert_eq by done. rewrite Hp in H2. destruct H2 as [self Hin].
        exists self. apply elem_of_app. by left.
      * by rewrite list_lookup_insert_ne by done.
  - (* the promise is settled: the continuation is ready to run *)
    split; simpl; try done.
    + split.
      * apply Forall_app. split; [done|]. repeat constructor. exists r. split; [done|].
        by eapply Hs.
      * apply queue_joins_snoc; [done|]. intros name self v -> ->. right. right.
        destruct (Hjoin _ _ eq_refl) as [Hrl Hfl]. rewrite Hp in Hfl.
        destruct Hfl as [self' Hin].
        pose proof (Hs _ _ _ Hp Hrl) as (m & -> & _). by eapply queue_owners_elem.
    + intros name p' Hp'. destruct (Hf _ _ Hp') as [H1 H2]. split; [done|]. simpl.
      destruct (promises s !! p') as [[ws'|[v|e]]|]; try done.
      destruct H2 as [self Hin]. exists self. apply elem_of_app. by left.
Qed.

Lemma inv_settle roles s p o r :
  inv roles s → roles !! p = Some r → settled_ok (log s) r o → inv roles (settle p o s).
Proof.
  intros [Hr Hl Hc Hs Hw [Hq Hj] Hf Ht Hi Htr] Hrole Ho. unfold settle.
  destruct (promises s !! p) as [[ws|o']|] eqn:Hp; [|done|done].
  assert (Hlt : p < length (promises s)) by (by eapply lookup_lt_Some).
  destruct (Hw _ _ _ Hp Hrole) as [Hws Hwj].
  split; simpl; try done.
  - by rewrite length_insert.
  - intros p' o' r' Hp'. destruct (decide (p' = p)) as [->|Hne].
    + rewrite list_lookup_insert_eq in Hp' by done. simplify_eq. intros Hr'. by simplify_eq.
    + rewrite list_lookup_insert_ne in Hp' by done. by apply Hs.
  - intros p' ws' r' Hp'. destruct (decide (p' = p)) as [->|Hne].
    + by rewrite list_lookup_insert_eq in Hp' by done.
    + rewrite list_lookup_insert_ne in Hp' by done. by apply Hw.
  - split.
    + apply Forall_app. split; [done|]. apply Forall_fmap. eapply Forall_impl; [done|].
      intros k Hk. by exists r.
    + apply queue_joins_app; [done|]. intros B. apply waiters_to_queue.
      * intros name self v Hin ->. rewrite Forall_forall in Hws.
        destruct (Hws _ Hin) as [-> _]. destruct Ho as (m & -> & _). by exists m.
      * eapply waiters_joins_mono; [|done]. set_solver.
  - intros name p' Hp'. destruct (Hf _ _ Hp') as [H1 H2]. split; [done|]. simpl.
    destruct (decide (p' = p)) as [->|Hne].
    + rewrite list_lookup_insert_eq by done. rewrite Hp in H2. destruct H2 as [self Hin].
      destruct o as [v|e]; [|done]. exists self. apply elem_of_app. right.
      apply list_elem_of_fmap. by exists (KOwner name self).
    + rewrite list_lookup_insert_ne by done.
      destruct (promises s !! p') as [[ws'|[v|e]]|]; try done.
      destruct H2 as [self Hin]. exists self. apply elem_of_app. by left.
Qed.

Lemma inv_record roles s e : inv roles s → event_ok (log s) e → inv roles (record e s).
Proof.
  intros [Hr Hl Hc Hs Hw [Hq Hj] Hf Ht Hi Htr] He.
  assert (Hpre : log s `prefix_of` log s ++ [e]) by (by apply prefix_app_r).
  split; simpl; try done.
  - intros d m Hd. eapply activated_in_mono; [done|]. by eapply Hl.
  - intros p o r Hp Hr'. eapply settled_ok_mono; [done|]. by eapply Hs.
  - intros p ws r Hp Hr'. destruct (Hw _ _ _ Hp Hr') as [H1 H2]. split; [|done].
    eapply Forall_impl; [done|]. intros k. by apply waits_ok_mono.
  - split.
    + eapply Forall_impl; [done|]. intros k. by apply queued_ok_mono.
    + by eapply queue_joins_mono.
  - by apply trace_ok_snoc.
Qed.

(** *** The steps on the fields of loader and core *)

Lemma inv_set_modules roles s f : inv roles s → inv roles (set_modules f s).
Proof. by intros []. Qed.

Lemma inv_set_apis roles s f : inv roles s → inv roles (set_apis f s).
Proof. by intros []. Qed.

Lemma inv_set_emitted roles s f : inv roles s → inv roles (set_emitted f s).
Proof. by intros []. Qed.

Lemma inv_set_nextInstance roles s f : inv roles s → inv roles (set_nextInstance f s).
Proof. by intros []. Qed.

Lemma inv_cache_insert roles s name c :
  inv roles s → files name = Some c → inv roles (set_moduleCache (λ m, <[name := c]> m) s).
Proof.
  intros [] Hc. split; simpl; try done.
  intros n c' Hn. destruct (decide (name = n)) as [->|Hne].
  - rewrite lookup_insert_eq in Hn. by simplify_eq.
  - rewrite lookup_insert_ne in Hn by done. eauto.
Qed.

Lemma inv_timers_push roles s p name :
  inv roles s → roles !! p = Some (RFile name) →
  inv roles (set_timers (λ l, l ++ [(p, name)]) s).
Proof.
  intros [] Hp. split; simpl; try done.
  intros p' n [Hin|Hin]%elem_of_app; [eauto|].
  apply list_elem_of_singleton in Hin. by simplify_eq.
Qed.

Lemma inv_timers_pop roles s p name rest :
  inv roles s → timers s = (p, name) :: rest →
  inv roles (set_timers (λ _, rest) s) ∧ roles !! p = Some (RFile name).
Proof.
  intros [] Ht. split.
  - split; simpl; try done. intros p' n Hin. eapply inv_timers0. rewrite Ht. by right.
  - eapply inv_timers0. rewrite Ht. by left.
Qed.

Lemma inv_inits_push roles s p m :
  inv roles s → roles !! p = Some RInit →
  inv roles (set_inits (λ l, l ++ [(p, m)]) s).
Proof.
  intros [] Hp. split; simpl; try done.
  intros p' n [Hin|Hin]%elem_of_app; [eauto|].
  apply list_elem_of_singleton in Hin. by simplify_eq.
Qed.

Lemma inv_inits_delete roles s n : inv roles s → inv roles (set_inits (λ l, delete n l) s).
Proof.
  intros []. split; simpl; try done.
  intros p m Hin. eapply inv_inits0. eapply elem_of_sublist; [done|]. apply sublist_delete.
Qed.

Lemma inv_flight_delete roles s name :
  inv roles s → inv roles (set_loadingPromises (λ l, delete name l) s).
Proof.
  intros []. split; simpl; try done.
  intros n p Hn. apply lookup_delete_Some in Hn as [_ Hn]. by apply inv_flights0.
Qed.

Lemma inv_flight_insert roles s name p :
  inv roles s → flight_ok roles s name p →
  inv roles (set_loadingPromises (λ l, <[name := p]> l) s).
Proof.
  intros [] Hp. split; simpl; try done.
  intros n p' Hn. destruct (decide (name = n)) as [->|Hne].
  - rewrite lookup_insert_eq in Hn. by simplify_eq.
  - rewrite lookup_insert_ne in Hn by done. by apply inv_flights0.
Qed.

(** The caller that has started a load registers it and waits for it. *)
Lemma inv_register_flight roles s name p self :
  inv roles s → roles !! p = Some (RDoLoad name) → roles !! self = Some (RLoad name) →
  inv roles (await p (KOwner name self) (set_loadingPromises (λ l, <[name := p]> l) s)).
Proof.
  intros Hinv Hp Hself.
  assert (Hcomm : await p (KOwner name self) (set_loadingPromises (λ l, <[name := p]> l) s) =
                  set_loadingPromises (λ l, <[name := p]> l) (await p (KOwner name self) s)).
  { unfold await. simpl. by destruct (promises s !! p) as [[?|?]|]. }
  rewrite Hcomm. apply inv_flight_insert.
  - by eapply inv_await.
  - split; [done|]. unfold await.
    assert (Hlt : p < length (promises s)).
    { rewrite <- (inv_roles _ _ _ Hinv). by eapply lookup_lt_Some. }
    destruct (lookup_lt_is_Some_2 _ _ Hlt) as [x Hx]. rewrite Hx.
    destruct x as [ws|o]; simpl.
    + rewrite list_lookup_insert_eq by done. exists self. apply elem_of_app. right. by left.
    + rewrite Hx. destruct o as [v|e]; [|done]. exists self. apply elem_of_app. right. by left.
Qed.

(** *** The calls *)

Lemma grows_refl roles s : grows roles s roles s.
Proof. by split. Qed.

Lemma grows_trans roles s roles1 s1 roles2 s2 :
  grows roles s roles1 s1 → grows roles1 s1 roles2 s2 → grows roles s roles2 s2.
Proof. intros [? ?] [? ?]. split; by etrans. Qed.

Lemma grows_new_promise roles s r : grows roles s (roles ++ [r]) (new_promise s).2.
Proof. split; [by apply prefix_app_r|done]. Qed.

Lemma grows_same_log roles s s' : log s' = log s → grows roles s roles s'.
Proof. intros Hl. split; [done|]. by rewrite Hl. Qed.

Lemma log_settle p o s : log (settle p o s) = log s.
Proof. unfold settle. by destruct (promises s !! p) as [[?|?]|]. Qed.

Lemma log_await p k s : log (await p k s) = log s.
Proof. unfold await. by destruct (promises s !! p) as [[?|?]|]. Qed.

Lemma new_promise_role roles s r :
  inv roles s → (roles ++ [r]) !! (new_promise s).1 = Some r.
Proof.
  intros Hinv. simpl. rewrite <- (inv_roles _ _ _ Hinv).
  rewrite lookup_app_r by lia. by rewrite Nat.sub_diag.
Qed.

(** The state with one more pending promise. *)
Local Abbreviation fresh s := (set_promises (λ ps, ps ++ [Pending []]) s).

Lemma inv_fresh roles s r :
  inv roles s →
  inv (roles ++ [r]) (fresh s) ∧ (roles ++ [r]) !! length (promises s) = Some r ∧
  grows roles s (roles ++ [r]) (fresh s).
Proof.
  intros Hinv. split; [by apply (inv_new_promise _ _ r)|].
  split; [by apply (new_promise_role _ _ r)|apply grows_new_promise].
Qed.

(** [registerModule], called for an instance whose dependencies are
    there. *)
Lemma inv_registerModule roles s name m :
  inv roles s → genuine name m → ready_in (log s) (needs_of m) →
  ∃ roles', inv roles' (registerModule name m s).2 ∧
            grows roles s roles' (registerModule name m s).2 ∧
            roles' !! (registerModule name m s).1 = Some RRegister.
Proof.
  intros Hinv Hg Hready. unfold registerModule, new_promise.
  destruct (inv_fresh _ _ RRegister Hinv) as (H1 & Hself & Hg1).
  set (self := length (promises s)) in *. set (s1 := fresh s) in *. simpl.
  assert (Hfail : ∀ s', inv (roles ++ [RRegister]) s' → grows roles s (roles ++ [RRegister]) s' →
    ∃ roles', inv roles' (self, settle self (Ok (VBool false)) s').2 ∧
              grows roles s roles' (self, settle self (Ok (VBool false)) s').2 ∧
              roles' !! (self, settle self (Ok (VBool false)) s').1 = Some RRegister).
  { intros s' Hinv' Hg'. exists (roles ++ [RRegister]). simpl.
    split; [by eapply inv_settle|]. split; [|done].
    eapply grows_trans; [done|]. apply grows_same_log, log_settle. }
  destruct (modules s !! name) as [?|]; [by apply Hfail|].
  destruct (validateModuleInterface (inst_class m)); [|by apply Hfail].
  assert (H2 : inv (roles ++ [RRegister]) (record (InitCalled name m) s1)).
  { apply inv_record; [done|]. by split. }
  assert (Hg2 : grows roles s (roles ++ [RRegister]) (record (InitCalled name m) s1)).
  { split; [by apply prefix_app_r|]. simpl. by apply prefix_app_r. }
  assert (Hwait : ∃ roles', inv roles'
      (await (length (promises (record (InitCalled name m) s1))) (KInit name m self)
         (set_inits (λ l, l ++ [(length (promises (record (InitCalled name m) s1)), m)])
            (fresh (record (InitCalled name m) s1)))) ∧
      grows roles s roles'
      (await (length (promises (record (InitCalled name m) s1))) (KInit name m self)
         (set_inits (λ l, l ++ [(length (promises (record (InitCalled name m) s1)), m)])
            (fresh (record (InitCalled name m) s1)))) ∧
      roles' !! self = Some RRegister).
  { destruct (inv_fresh _ _ RInit H2) as (H3 & Hp & Hg3).
    exists ((roles ++ [RRegister]) ++ [RInit]). split; [|split].
    - eapply inv_await; [by apply inv_inits_push|done| |done].
      simpl. split; [done|]. by apply lookup_app_l_Some.
    - eapply grows_trans; [done|]. eapply grows_trans; [done|].
      apply grows_same_log. by rewrite log_await.
    - by apply lookup_app_l_Some. }
  destruct (init_behaviour (inst_class m)); [by apply Hfail|done|done].
Qed.

(** [registerModule] after its [await]. *)
Lemma inv_registered roles s name m self o :
  inv roles s → roles !! self = Some RRegister →
  inv roles (registered name m self o s) ∧ log (registered name m self o s) = log s.
Proof.
  intros Hinv Hself. unfold registered. destruct o as [v|e].
  - destruct (getAPI_behaviour (inst_class m)); rewrite log_settle; (split; [|done]);
      (eapply inv_settle; [|done|done]);
      auto using inv_set_modules, inv_set_apis, inv_set_emitted.
  - rewrite log_settle. split; [|done]. by eapply inv_settle.
Qed.

Lemma next_dependency_None s deps :
  next_dependency s deps = None →
  ∀ x, x ∈ deps → x = "core" ∨ is_Some (loadedModules s !! x).
Proof.
  induction deps as [|d deps IH]; simpl; intros Hn x Hx; [by apply elem_of_nil in Hx|].
  destruct (decide _) as [Hd|Hd]; [done|].
  apply elem_of_cons in Hx as [->|Hx]; [|by apply IH].
  apply not_and_l in Hd as [Hd|Hd]; [left; by apply dec_stable|right].
  by apply not_eq_None_Some.
Qed.

Lemma next_dependency_Some s deps d rest :
  next_dependency s deps = Some (d, rest) →
  d ≠ "core" ∧ loadedModules s !! d = None ∧
  ∀ x, x ∈ deps → x = "core" ∨ is_Some (loadedModules s !! x) ∨ x = d ∨ x ∈ rest.
Proof.
  induction deps as [|d' deps IH]; simpl; intros Hn; [done|].
  destruct (decide _) as [[Hd1 Hd2]|Hd].
  - simplify_eq. split; [done|]. split; [done|]. intros x Hx.
    apply elem_of_cons in Hx as [->|Hx]; auto.
  - destruct (IH Hn) as (H1 & H2 & H3). split; [done|]. split; [done|]. intros x Hx.
    apply elem_of_cons in Hx as [->|Hx]; [|by apply H3].
    apply not_and_l in Hd as [Hd|Hd]; [left; by apply dec_stable|right; left].
    by apply not_eq_None_Some.
Qed.

Section Nested.

Variable load : string → kernel → nat * kernel.
Hypothesis load_ok : load_spec load.

Lemma inv_dependencies_loop roles s deps rest self :
  inv roles s → roles !! self = Some (RDeps deps) →
  (∀ x, x ∈ deps → x = "core" ∨ activated_in (log s) x ∨ x ∈ rest) →
  ∃ roles', inv roles' (dependencies_loop load rest self s) ∧
            grows roles s roles' (dependencies_loop load rest self s).
Proof using load_ok.
  intros Hinv Hself Hdone. unfold dependencies_loop.
  destruct (next_dependency s rest) as [[d rest']|] eqn:Hnext.
  - destruct (next_dependency_Some _ _ _ _ Hnext) as (Hd1 & Hd2 & Hd3).
    destruct (load_ok d roles s Hinv) as (roles' & Hinv' & [Hg1 Hg2] & Hr).
    destruct (load d s) as [r s1]. simpl in *.
    exists roles'. split.
    + eapply inv_await; [done|done| |done]. simpl. exists d, deps. split; [done|].
      split; [by eapply lookup_prefix|]. intros x Hx.
      destruct (Hdone x Hx) as [?|[?|Hin]]; [by left|right; left; by eapply activated_in_mono|].
      destruct (Hd3 x Hin) as [?|[[m Hm]|[?|?]]]; auto.
      right. left. eapply activated_in_mono; [done|]. by eapply (inv_loaded _ _ _ Hinv).
    + split; [done|]. by rewrite log_await.
  - exists roles. split; [|apply grows_same_log, log_settle].
    eapply inv_settle; [done|done|]. simpl. intros x Hx.
    destruct (Hdone x Hx) as [?|[?|Hin]]; auto.
    destruct (next_dependency_None _ _ Hnext x Hin) as [?|[m Hm]]; auto.
    right. by eapply (inv_loaded _ _ _ Hinv).
Qed.

Lemma inv_instantiate roles s name c self :
  inv roles s → files name = Some c → roles !! self = Some (RDoLoad name) →
  ∃ roles', inv roles' (instantiate load name c self s) ∧
            grows roles s roles' (instantiate load name c self s).
Proof using load_ok.
  intros Hinv Hc Hself. unfold instantiate.
  set (m := Instance (nextInstance s) c).
  set (s1 := record (Instantiated name m) (set_nextInstance S s)).
  assert (H1 : inv roles s1).
  { apply inv_record; [by apply inv_set_nextInstance|done]. }
  assert (Hg1 : grows roles s roles s1).
  { split; [done|]. simpl. by apply prefix_app_r. }
  destruct (_validateModuleInterface c).
  2:{ exists roles. split; [by eapply inv_settle|].
      eapply grows_trans; [done|]. apply grows_same_log, log_settle. }
  unfold _loadDependencies, new_promise.
  destruct (inv_fresh _ _ (RDeps (needs_of m)) H1) as (H2 & Hq & Hg2).
  set (q := length (promises s1)) in *. set (s2 := fresh s1) in *.
  assert (Hwait : ∀ roles' s', inv roles' s' → roles ++ [RDeps (needs_of m)] `prefix_of` roles' →
            inv roles' (await q (KDeps name m self) s')).
  { intros roles' s' Hinv' Hpre. eapply inv_await; [done|by eapply lookup_prefix| |done].
    simpl. split; [done|]. split; [|done].
    eapply lookup_prefix; [done|]. by apply lookup_app_l_Some. }
  destruct (dependencies (inst_class m)) as [deps|] eqn:Hdeps; simpl.
  - destruct (inv_dependencies_loop _ s2 (needs_of m) deps q H2 Hq) as (roles' & H3 & [Hg3 Hg4]).
    { intros x Hx. right. right. unfold needs_of in Hx. by rewrite Hdeps in Hx. }
    exists roles'. split; [by apply Hwait|].
    eapply grows_trans; [done|]. eapply grows_trans; [done|]. split; [done|]. by rewrite log_await.
  - exists (roles ++ [RDeps (needs_of m)]). split.
    + apply Hwait; [|done]. eapply inv_settle; [done|done|].
      simpl. intros x Hx. unfold needs_of in Hx. rewrite Hdeps in Hx.
      by apply elem_of_nil in Hx.
    + eapply grows_trans; [done|]. eapply grows_trans; [done|].
      apply grows_same_log. by rewrite log_await, log_settle.
Qed.

Lemma inv_doLoadModule roles s name :
  inv roles s →
  ∃ roles', inv roles' (_doLoadModule load name s).2 ∧
            grows roles s roles' (_doLoadModule load name s).2 ∧
            roles' !! (_doLoadModule load name s).1 = Some (RDoLoad name).
Proof using load_ok.
  intros Hinv. unfold _doLoadModule, new_promise.
  destruct (inv_fresh _ _ (RDoLoad name) Hinv) as (H1 & Hself & Hg1).
  set (self := length (promises s)) in *. set (s1 := fresh s) in *. simpl.
  destruct (moduleCache s !! name) as [c|] eqn:Hc; simpl.
  - destruct (inv_instantiate _ s1 name c self H1) as (roles' & H2 & Hg2); [|done|].
    { by eapply (inv_cache _ _ _ Hinv). }
    exists roles'. split; [done|]. split; [by eapply grows_trans|].
    eapply lookup_prefix; [apply Hg2|done].
  - destruct (inv_fresh _ _ (RFile name) H1) as (H2 & Hf & Hg2).
    assert (Hself' : ((roles ++ [RDoLoad name]) ++ [RFile name]) !! self = Some (RDoLoad name))
      by (by apply lookup_app_l_Some).
    exists ((roles ++ [RDoLoad name]) ++ [RFile name]). split; [|split; [|done]].
    + eapply inv_await; [by apply inv_timers_push|done| |done]. by simpl.
    + eapply grows_trans; [done|]. eapply grows_trans; [done|].
      apply grows_same_log. by rewrite log_await.
Qed.

Lemma inv_loadModule_body roles s name :
  inv roles s →
  ∃ roles', inv roles' (loadModule_body load name s).2 ∧
            grows roles s roles' (loadModule_body load name s).2 ∧
            roles' !! (loadModule_body load name s).1 = Some (RLoad name).
Proof using load_ok.
  intros Hinv. unfold loadModule_body, new_promise.
  destruct (inv_fresh _ _ (RLoad name) Hinv) as (H1 & Hself & Hg1).
  set (self := length (promises s)) in *. set (s1 := fresh s) in *. simpl.
  destruct (loadedModules s !! name) as [m|] eqn:Hm; simpl.
  { exists (roles ++ [RLoad name]). split; [|split; [|done]].
    - eapply inv_settle; [done|done|]. simpl. by eapply (inv_loaded _ _ _ Hinv).
    - eapply grows_trans; [done|]. apply grows_same_log, log_settle. }
  destruct (loadingPromises s !! name) as [p|] eqn:Hp; simpl.
  { pose proof (inv_flights _ _ _ H1 name p Hp) as Hfl.
    exists (roles ++ [RLoad name]). split; [|split; [|done]].
    - eapply inv_await; [done|apply Hfl| |].
      + by simpl.
      + intros name' self' [= <- <-]. done.
    - eapply grows_trans; [done|]. apply grows_same_log, log_await. }
  destruct (inv_doLoadModule _ s1 name H1) as (roles' & H2 & Hg2 & Hp').
  destruct (_doLoadModule load name s1) as [p s2]. simpl in *.
  assert (Hself' : roles' !! self = Some (RLoad name)) by (eapply lookup_prefix; [apply Hg2|done]).
  exists roles'. split; [|split; [|done]].
  - by apply inv_register_flight.
  - eapply grows_trans; [done|]. eapply grows_trans; [done|].
    apply grows_same_log. by rewrite log_await.
Qed.

End Nested.

Lemma loadModule_at_ok depth : load_spec (loadModule_at depth).
Proof.
  induction depth as [|depth IH]; intros name roles s Hinv; simpl.
  - unfold new_promise. destruct (inv_fresh _ _ (RLoad name) Hinv) as (H1 & Hself & Hg1).
    exists (roles ++ [RLoad name]). simpl. split; [by eapply inv_settle|]. split; [|done].
    eapply grows_trans; [done|]. apply grows_same_log, log_settle.
  - by apply inv_loadModule_body.
Qed.

(** *** Microtasks *)

(** The head of the queue is taken off; it is not an owner that marks its
    module loaded. *)
Lemma inv_pop roles s k o rest :
  inv roles s → microtasks s = (k, o) :: rest → activates k o = [] →
  inv roles (set_microtasks (λ _, rest) s).
Proof.
  intros [Hr Hl Hc Hs Hw [Hq Hj] Hf Ht Hi Htr] Hm Hact.
  rewrite Hm in Hq, Hj. apply Forall_cons in Hq as [Hk Hq]. destruct Hj as [Hj1 Hj2].
  rewrite Hact in Hj2. split; simpl; try done.
  intros name p Hp. destruct (Hf _ _ Hp) as [H1 H2]. split; [done|]. simpl.
  destruct (promises s !! p) as [[ws|[v|e]]|] eqn:Hpp; try done.
  destruct H2 as [self Hin]. exists self. rewrite Hm in Hin.
  apply elem_of_cons in Hin as [Heq|Hin]; [|done]. simplify_eq.
  destruct (Hs _ _ _ Hpp H1) as (m & -> & _). done.
Qed.

(** The head of the queue is the owner of a load that succeeded: it marks
    its module loaded and removes the entry of the load. *)
Lemma inv_pop_owner roles s name self m rest :
  inv roles s → microtasks s = (KOwner name self, Ok (VInstance m)) :: rest →
  inv roles (set_loadingPromises (λ l, delete name l)
               (record (Activated name m)
                  (set_loadedModules (λ l, <[name := m]> l)
                     (set_microtasks (λ _, rest) s)))) ∧
  roles !! self = Some (RLoad name).
Proof.
  intros [Hr Hl Hc Hs Hw [Hq Hj] Hf Ht Hi Htr] Hm.
  rewrite Hm in Hq, Hj. apply Forall_cons in Hq as [Hk Hq]. destruct Hj as [_ Hj].
  destruct Hk as (r & [-> Hself] & (m' & [= <-] & Hg & Hready)). simpl in *.
  assert (Hpre : log s `prefix_of` log s ++ [Activated name m]) by (by apply prefix_app_r).
  assert (Hact : activated_in (log s ++ [Activated name m]) name).
  { exists m. apply elem_of_app. right. by left. }
  split; [|done]. split; simpl; try done.
  - intros d m0 Hd. destruct (decide (name = d)) as [->|Hne]; [done|].
    rewrite lookup_insert_ne in Hd by done. eapply activated_in_mono; [done|]. by eapply Hl.
  - intros p o r Hp Hr'. eapply settled_ok_mono; [done|]. by eapply Hs.
  - intros p ws r Hp Hr'. destruct (Hw _ _ _ Hp Hr') as [H1 H2]. split; [|done].
    eapply Forall_impl; [done|]. intros k. by apply waits_ok_mono.
  - split.
    + eapply Forall_impl; [done|]. intros k. by apply queued_ok_mono.
    + apply (queue_joins_activated _ [name]).
      * intros n Hn. apply list_elem_of_singleton in Hn as ->. done.
      * eapply queue_joins_mono; [done| |done]. set_solver.
  - intros n p Hp. apply lookup_delete_Some in Hp as [Hne Hp].
    destruct (Hf _ _ Hp) as [H1 H2]. split; [done|]. simpl.
    destruct (promises s !! p) as [[ws|[v|e]]|] eqn:Hpp; try done.
    destruct H2 as [self' Hin]. exists self'. rewrite Hm in Hin.
    apply elem_of_cons in Hin as [Heq|Hin]; [|done]. by simplify_eq.
  - apply trace_ok_snoc; [done|]. by split.
Qed.

Lemma head_queued roles s k o rest :
  inv roles s → microtasks s = (k, o) :: rest →
  queued_ok roles (log s) (k, o) ∧
  (∀ name self v, k = KJoin name self → o = Ok v → activated_in (log s) name).
Proof.
  intros [Hr Hl Hc Hs Hw [Hq Hj] Hf Ht Hi Htr] Hm.
  rewrite Hm in Hq, Hj. apply Forall_cons in Hq as [Hk Hq]. destruct Hj as [Hj _].
  split; [done|]. intros name self v -> ->. destruct Hj as [?|Hn]; [done|].
  by apply elem_of_nil in Hn.
Qed.

(** A microtask runs. *)
Lemma inv_run_kont roles s k o rest :
  inv roles s → microtasks s = (k, o) :: rest →
  ∃ roles', inv roles' (run_kont stack k o (set_microtasks (λ _, rest) s)) ∧
            roles `prefix_of` roles'.
Proof.
  intros Hinv Hm.
  destruct (head_queued _ _ _ _ _ Hinv Hm) as [(r & Hw & Hs) Hjoin]. simpl in Hw, Hs.
  pose proof (loadModule_at_ok (S stack)) as Hload.
  destruct k as [name self|name self|name self|name m self|name m self|rest' self|name m self].
  - (* KOwner *)
    destruct Hw as [-> Hself].
    destruct o as [v|e].
    + destruct Hs as (m & -> & Hg & Hready). simpl.
      destruct (inv_pop_owner _ _ _ _ _ _ Hinv Hm) as [H1 _].
      exists roles. split; [|done]. eapply inv_settle; [done|done|].
      simpl. exists m. apply elem_of_app. right. by left.
    + simpl. exists roles. split; [|done]. eapply inv_settle; [|done|done].
      apply inv_flight_delete. by eapply inv_pop.
  - (* KJoin *)
    destruct Hw as [-> Hself]. simpl. exists roles. split; [|done].
    eapply inv_settle; [by eapply inv_pop|done|].
    destruct o as [v|e]; [|done]. simpl. by eapply Hjoin.
  - (* KFile *)
    destruct Hw as [-> Hself].
    pose proof (inv_pop _ _ _ _ _ Hinv Hm eq_refl) as H1.
    destruct o as [v|e].
    + destruct Hs as (c & -> & Hc). simpl.
      destruct (inv_instantiate _ Hload roles
                  (set_moduleCache (λ m, <[name := c]> m) (set_microtasks (λ _, rest) s))
                  name c self) as (roles' & H2 & [Hg2 _]); [by apply inv_cache_insert|done|done|].
      by exists roles'.
    + simpl. exists roles. split; [|done]. by eapply inv_settle.
  - (* KDeps *)
    destruct Hw as (-> & Hself & Hg).
    pose proof (inv_pop _ _ _ _ _ Hinv Hm eq_refl) as H1.
    destruct o as [v|e]; simpl.
    + destruct (attached s).
      * destruct (inv_registerModule roles (set_microtasks (λ _, rest) s) name m H1 Hg Hs)
          as (roles' & H2 & [Hg2 Hg3] & Hr).
        destruct (registerModule name m (set_microtasks (λ _, rest) s)) as [r s1]. simpl in *.
        exists roles'. split; [|done]. eapply inv_await; [done|done| |done].
        simpl. split; [done|]. split; [by eapply lookup_prefix|]. split; [done|].
        by eapply ready_in_mono.
      * exists roles. split; [|done]. eapply inv_settle; [done|done|].
        simpl. by exists m.
    + exists roles. split; [|done]. by eapply inv_settle.
  - (* KRegister *)
    destruct Hw as (-> & Hself & Hg & Hready).
    pose proof (inv_pop _ _ _ _ _ Hinv Hm eq_refl) as H1.
    destruct o as [v|e]; simpl; (exists roles; split; [|done]); (eapply inv_settle; [done|done|]).
    + simpl. by exists m.
    + done.
  - (* KDep *)
    destruct Hw as (d & deps & -> & Hself & Hdeps).
    pose proof (inv_pop _ _ _ _ _ Hinv Hm eq_refl) as H1.
    destruct o as [v|e]; simpl.
    + destruct (inv_dependencies_loop _ Hload roles (set_microtasks (λ _, rest) s) deps rest' self)
        as (roles' & H2 & [Hg2 _]); [done|done| |by exists roles'].
      intros x Hx. destruct (Hdeps x Hx) as [?|[?|[->|?]]]; auto.
    + exists roles. split; [|done]. by eapply inv_settle.
  - (* KInit *)
    destruct Hw as [-> Hself].
    pose proof (inv_pop _ _ _ _ _ Hinv Hm eq_refl) as H1.
    simpl. exists roles. split; [|done]. by apply inv_registered.
Qed.

Lemma inv_init core : inv [] (init core).
Proof.
  split; simpl; try done.
  - intros p m Hp. by apply elem_of_nil in Hp.
  - intros p m Hp. by apply elem_of_nil in Hp.
  - intros l1 e l2 Heq. by destruct l1.
Qed.

Lemma inv_step roles s a :
  inv roles s → ∃ roles', inv roles' (step files stack s a) ∧ roles `prefix_of` roles'.
Proof.
  intros Hinv. destruct a as [name| |n|]; simpl.
  - destruct (loadModule_at_ok (S stack) name roles s Hinv) as (roles' & H1 & [Hg _] & _).
    by exists roles'.
  - destruct (timers s) as [|[p name] rest] eqn:Ht; [by exists roles|].
    destruct (inv_timers_pop _ _ _ _ _ Hinv Ht) as [H1 Hp].
    exists roles. split; [|done]. eapply inv_settle; [done|done|].
    unfold file_outcome. destruct (files name) as [c|] eqn:Hc; [|done]. simpl. by exists c.
  - destruct (inits s !! n) as [[p m]|] eqn:Hn; [|by exists roles].
    exists roles. split; [|done]. eapply inv_settle; [by apply inv_inits_delete| |].
    + eapply (inv_inits _ _ _ Hinv). by eapply list_elem_of_lookup_2.
    + unfold init_outcome. by destruct (init_behaviour _).
  - destruct (microtasks s) as [|[k o] rest] eqn:Hm; [by exists roles|].
    by apply inv_run_kont.
Qed.

(** The invariant holds in every state the loader reaches. *)
Lemma inv_run tr : ∀ roles s,
  inv roles s → ∃ roles', inv roles' (run files stack tr s) ∧ roles `prefix_of` roles'.
Proof.
  induction tr as [|a tr IH]; intros roles s Hinv; simpl; [by exists roles|].
  destruct (inv_step _ _ a Hinv) as (roles1 & H1 & Hp1).
  destruct (IH _ _ H1) as (roles2 & H2 & Hp2). exists roles2. split; [done|]. by etrans.
Qed.

End Safety.

(** *** The synchronous part of a call *)
Lemma steady_refl s : steady s s.
Proof. by split_and!. Qed.

Lemma steady_trans s1 s2 s3 : steady s1 s2 → steady s2 s3 → steady s1 s3.
Proof.
  intros (H1 & H2 & H3 & H4) (G1 & G2 & G3 & G4). split_and!.
  - by rewrite G1.
  - lia.
  - by etrans.
  - auto.
Qed.

Lemma steady_settle p o s : steady s (settle p o s).
Proof.
  unfold settle. destruct (promises s !! p) as [[ws|o']|]; try apply steady_refl.
  split_and!; simpl; try done. by rewrite length_insert.
Qed.

Lemma steady_await p k s : steady s (await p k s).
Proof.
  unfold await. destruct (promises s !! p) as [[ws|o']|]; try apply steady_refl.
  - split_and!; simpl; try done. by rewrite length_insert.
  - by split_and!.
Qed.

Lemma steady_fresh s : steady s (set_promises (λ ps, ps ++ [Pending []]) s).
Proof. split_and!; simpl; try done. rewrite length_app. lia. Qed.

Lemma steady_record e s : is_activation e = false → steady s (record e s).
Proof.
  intros He. split_and!; simpl; try done.
  - by apply prefix_app_r.
  - intros d m Hin. apply elem_of_app in Hin as [Hin|Hin]; [done|].
    apply list_elem_of_singleton in Hin as <-. done.
Qed.

Lemma steady_registerModule name m s : steady s (registerModule name m s).2.
Proof.
  unfold registerModule, new_promise.
  set (s1 := set_promises _ s). assert (H1 : steady s s1) by apply steady_fresh.
  destruct (modules s1 !! name).
  { eapply steady_trans; [done|]. apply steady_settle. }
  destruct (validateModuleInterface _).
  2: { eapply steady_trans; [done|]. apply steady_settle. }
  assert (H2 : steady s (record (InitCalled name m) s1)).
  { eapply steady_trans; [done|]. by apply steady_record. }
  destruct (init_behaviour _); simpl.
  - eapply steady_trans; [done|]. apply steady_settle.
  - eapply steady_trans; [|apply steady_await].
    eapply steady_trans; [done|]. eapply steady_trans; [apply steady_fresh|]. by split_and!.
  - eapply steady_trans; [|apply steady_await].
    eapply steady_trans; [done|]. eapply steady_trans; [apply steady_fresh|]. by split_and!.
Qed.

Lemma steady_registered name m self o s : steady s (registered name m self o s).
Proof.
  unfold registered. destruct o as [v|e].
  - destruct (getAPI_behaviour _); (eapply steady_trans; [|apply steady_settle]); by split_and!.
  - apply steady_settle.
Qed.

Section Prefix.

Variable load : string → kernel → nat * kernel.
Hypothesis load_steady : ∀ name s, steady s (load name s).2.

Lemma steady_dependencies_loop deps self s : steady s (dependencies_loop load deps self s).
Proof using load_steady.
  unfold dependencies_loop. destruct (next_dependency s deps) as [[d rest]|].
  - pose proof (load_steady d s) as H. destruct (load d s) as [r s1]. simpl in *.
    eapply steady_trans; [done|]. apply steady_await.
  - apply steady_settle.
Qed.

Lemma steady_loadDependencies m s : steady s (_loadDependencies load m s).2.
Proof using load_steady.
  unfold _loadDependencies, new_promise. destruct (dependencies _); simpl.
  - eapply steady_trans; [apply steady_fresh|]. apply steady_dependencies_loop.
  - eapply steady_trans; [apply steady_fresh|]. apply steady_settle.
Qed.

Lemma steady_instantiate name c self s : steady s (instantiate load name c self s).
Proof using load_steady.
  unfold instantiate.
  set (m := Instance _ _). set (s1 := record _ _).
  assert (H1 : steady s s1).
  { eapply steady_trans; [|by apply steady_record]. by split_and!. }
  destruct (_validateModuleInterface c).
  - pose proof (steady_loadDependencies m s1) as H2.
    destruct (_loadDependencies load m s1) as [q s2]. simpl in *.
    eapply steady_trans; [done|]. eapply steady_trans; [done|]. apply steady_await.
  - eapply steady_trans; [done|]. apply steady_settle.
Qed.

Lemma steady_doLoadModule name s : steady s (_doLoadModule load name s).2.
Proof using load_steady.
  unfold _doLoadModule, new_promise. simpl.
  destruct (moduleCache s !! name) as [c|]; simpl.
  - eapply steady_trans; [apply steady_fresh|]. apply steady_instantiate.
  - eapply steady_trans; [apply steady_fresh|].
    eapply steady_trans; [|apply steady_await].
    eapply steady_trans; [apply steady_fresh|]. by split_and!.
Qed.

Lemma steady_loadModule_body name s : steady s (loadModule_body load name s).2.
Proof using load_steady.
  unfold loadModule_body, new_promise. simpl.
  destruct (loadedModules s !! name) as [m|]; simpl.
  { eapply steady_trans; [apply steady_fresh|]. apply steady_settle. }
  destruct (loadingPromises s !! name) as [p|]; simpl.
  { eapply steady_trans; [apply steady_fresh|]. apply steady_await. }
  set (s1 := set_promises _ s).
  pose proof (steady_doLoadModule name s1) as H2.
  destruct (_doLoadModule load name s1) as [p s2]. simpl in *.
  eapply steady_trans; [apply steady_fresh|]. eapply steady_trans; [done|].
  eapply steady_trans; [|apply steady_await]. by split_and!.
Qed.

End Prefix.

Lemma steady_loadModule_at depth name s : steady s (loadModule_at depth name s).2.
Proof.
  revert name s. induction depth as [|depth IH]; intros name s; simpl.
  - eapply steady_trans; [apply steady_fresh|]. apply steady_settle.
  - by apply steady_loadModule_body.
Qed.

Lemma marked_steady s s' : steady s s' → marked s → marked s'.
Proof.
  intros (H1 & H2 & H3 & H4) [M1 M2]. split; intros d m; rewrite H1.
  - intros Hd. destruct H3 as [k ->]. apply elem_of_app. left. by apply M1.
  - intros Hd. eapply M2. by apply H4.
Qed.

Lemma marked_init core : marked (init core).
Proof. split; intros d m H; simpl in H; [done|by apply elem_of_nil in H]. Qed.

Lemma marked_owner name m f s :
  marked s →
  marked (set_loadingPromises f (record (Activated name m) (set_loadedModules (λ l, <[name := m]> l) s))).
Proof.
  intros [M1 M2]. split; intros d m'; simpl.
  - destruct (decide (name = d)) as [->|Hne].
    + rewrite lookup_insert_eq. intros [= <-]. apply elem_of_app. right. by left.
    + rewrite lookup_insert_ne by done. intros Hd. apply elem_of_app. left. by apply M1.
  - intros Hin. apply elem_of_app in Hin as [Hin|Hin].
    + destruct (decide (name = d)) as [->|Hne]; [by rewrite lookup_insert_eq|].
      rewrite lookup_insert_ne by done. by eapply M2.
    + apply list_elem_of_singleton in Hin as [= <- <-]. by rewrite lookup_insert_eq.
Qed.

Lemma marked_run_kont stack k o s : marked s → marked (run_kont stack k o s).
Proof.
  intros Hm. pose proof (steady_loadModule_at (S stack)) as Hl.
  destruct k as [name self|name self|name self|name m self|name m self|rest' self|name m self]; simpl.
  - destruct o as [[| |m|]|e]; try (eapply marked_steady; [|done];
      (eapply steady_trans; [|apply steady_settle]); by split_and!).
    eapply marked_steady; [apply steady_settle|]. by apply marked_owner.
  - eapply marked_steady; [apply steady_settle|done].
  - destruct o as [[| | |c]|e]; try (eapply marked_steady; [apply steady_settle|done]).
    eapply marked_steady; [|done]. eapply steady_trans; [|by apply steady_instantiate].
    by split_and!.
  - destruct o as [v|e]; [|eapply marked_steady; [apply steady_settle|done]].
    destruct (attached s); [|eapply marked_steady; [apply steady_settle|done]].
    pose proof (steady_registerModule name m s) as H.
    destruct (registerModule name m s) as [r s1]. simpl in *.
    eapply marked_steady; [|done]. eapply steady_trans; [done|]. apply steady_await.
  - destruct o as [v|e]; (eapply marked_steady; [apply steady_settle|done]).
  - destruct o as [v|e]; [|eapply marked_steady; [apply steady_settle|done]].
    eapply marked_steady; [|done]. by apply steady_dependencies_loop.
  - eapply marked_steady; [apply steady_registered|done].
Qed.

Lemma marked_step files stack s a : marked s → marked (step files stack s a).
Proof.
  intros Hm. destruct a as [name| |n|]; simpl.
  - eapply marked_steady; [apply steady_loadModule_at|done].
  - destruct (timers s) as [|[p name] rest]; [done|].
    eapply marked_steady; [|done]. eapply steady_trans; [|apply steady_settle]. by split_and!.
  - destruct (inits s !! n) as [[p m]|]; [|done].
    eapply marked_steady; [|done]. eapply steady_trans; [|apply steady_settle]. by split_and!.
  - destruct (microtasks s) as [|[k o] rest]; [done|].
    apply marked_run_kont. eapply marked_steady; [|done]. by split_and!.
Qed.

Lemma marked_run files stack tr s : marked s → marked (run files stack tr s).
Proof.
  revert s. induction tr as [|a tr IH]; intros s Hm; simpl; [done|].
  apply IH. by apply marked_step.
Qed.

(** *** Reachable states *)

Lemma reachable_inv files stack core tr :
  ∃ roles, inv files roles (run files stack tr (init core)).
Proof.
  destruct (inv_run files stack tr [] (init core) (inv_init files core)) as (roles & H & _).
  by exists roles.
Qed.

Lemma reachable_marked files stack core tr : marked (run files stack tr (init core)).
Proof. apply marked_run, marked_init. Qed.

Lemma trace_ok_app files l1 l2 : trace_ok files (l1 ++ l2) → trace_ok files l1.
Proof.
  intros H k1 e k2 ->. apply (H k1 e (k2 ++ l2)). by rewrite <- app_assoc.
Qed.

Lemma cyclic_next files x : cyclic files x → ∃ y, depends files x y ∧ cyclic files y.
Proof.
  unfold cyclic. intros H. inversion H as [? ? Hd|? y ? Hd Ht]; subst.
  - exists x. split; [done|]. by apply tc_once.
  - exists y. split; [done|]. by eapply tc_r.
Qed.

(** A module on a cycle of dependencies is in no record that respects the
    order of dependencies. *)
Lemma trace_ok_acyclic files l :
  trace_ok files l → ∀ x, cyclic files x →
    ¬ activated_in l x ∧ ∀ m, InitCalled x m ∉ l.
Proof.
  induction l as [|e l IH] using rev_ind; intros Ht x Hx.
  { split; [intros [m Hm]|intros m Hm]; by apply elem_of_nil in Hm. }
  pose proof (trace_ok_app _ _ _ Ht) as Ht'.
  pose proof (Ht l e [] eq_refl) as He.
  assert (Hready : ∀ m, genuine files x m → ready_in l (needs_of m) → False).
  { intros m Hg Hr. destruct (cyclic_next _ _ Hx) as (y & (c & deps & Hc & Hdeps & Hy & Hcore) & Hcy).
    unfold genuine in Hg. rewrite Hc in Hg. injection Hg as ->.
    unfold needs_of in Hr. rewrite Hdeps in Hr. simpl in Hr.
    destruct (Hr y Hy) as [?|Hact]; [done|]. by apply (IH Ht' y Hcy). }
  split.
  - intros [m Hm]. apply elem_of_app in Hm as [Hm|Hm].
    + apply (IH Ht' x Hx). by exists m.
    + apply list_elem_of_singleton in Hm as <-. destruct He as [Hg Hr]. by eapply Hready.
  - intros m Hm. apply elem_of_app in Hm as [Hm|Hm].
    + by apply (IH Ht' x Hx) in Hm.
    + apply list_elem_of_singleton in Hm as <-. destruct He as [Hg Hr]. by eapply Hready.
Qed.

Lemma quiescent_step files stack s a : quiescent s → is_load a = false → step files stack s a = s.
Proof.
  intros (Hm & Ht & Hi) Ha. destruct a as [name| |n|]; simpl; try done.
  - by rewrite Ht.
  - by rewrite Hi.
  - by rewrite Hm.
Qed.

Lemma quiescent_run files stack tr s :
  quiescent s → Forall (λ a, is_load a = false) tr → run files stack tr s = s.
Proof.
  intros Hq Htr. induction Htr as [|a tr Ha Htr IH]; simpl; [done|].
  by rewrite quiescent_step.
Qed.

Section Order.

Variable files : string → option moduleClass.
Variable stack : nat.


(** C5.  A module that lies on a cycle of dependencies is never marked
    loaded and its [init] hook is never called; a promise that [loadModule]
    has returned for it is never fulfilled. *)
Theorem cyclic_module_is_never_loaded (core : bool) (x : string) (tr1 tr2 : list label) :
  cyclic files x →
  let s1 := run files stack tr1 (init core) in
  let p := (loadModule stack x s1).1 in
  let s2 := run files stack tr2 (loadModule stack x s1).2 in
  loadedModules s2 !! x = None ∧
  (∀ m, Activated x m ∉ log s2) ∧
  (∀ m, InitCalled x m ∉ log s2) ∧
  (∀ v, promises s2 !! p ≠ Some (Settled (Ok v))).
Proof.
  intros Hx s1 p s2.
  destruct (reachable_inv files stack core tr1) as [roles1 Hinv1]. fold s1 in Hinv1.
  destruct (loadModule_at_ok files (S stack) x roles1 s1 Hinv1) as (roles2 & Hinv2 & _ & Hp).
  destruct (inv_run files stack tr2 _ _ Hinv2) as (roles3 & Hinv3 & Hpre).
  fold (loadModule stack) in Hinv3, Hp. fold s2 in Hinv3. fold p in Hp.
  destruct (trace_ok_acyclic files (log s2) (inv_trace _ _ _ Hinv3) x Hx) as [Hna Hni].
  split_and!.
  - destruct (loadedModules s2 !! x) as [m|] eqn:Hm; [|done].
    destruct Hna. by eapply (inv_loaded _ _ _ Hinv3).
  - intros m Hm. apply Hna. by exists m.
  - done.
  - intros v Hv. apply Hna.
    apply (inv_settled _ _ _ Hinv3 p (Ok v) (RLoad x) Hv). by eapply lookup_prefix.
Qed.

End Order.

Lemma cycle_is_cyclic : cyclic cycle_files "C".
Proof.
  apply tc_l with "D"; [|apply tc_once].
  - exists (plain ["D"]), ["D"]. split_and!; try done. by left.
  - exists (plain ["C"]), ["C"]. split_and!; try done. by left.
Qed.

(** C5, at the two modules that depend on each other. *)
Lemma cyclic_module_is_never_loaded_witness :
  cyclic cycle_files "C" ∧
  loadedModules
    (run cycle_files 0 cycle_rest (loadModule 0 "C" (run cycle_files 0 [] (init true))).2)
    !! "C" = None.
Proof.
  split; [apply cycle_is_cyclic|].
  pose proof (cyclic_module_is_never_loaded cycle_files 0 true "C" [] cycle_rest
                cycle_is_cyclic) as H.
  cbv zeta in H. destruct H as [H _]. exact H.
Defined.

(** With C depending on D and D on C, whatever the depth of the stack:
    the promise that [loadModule("C")] has returned is pending when no
    timer, no [init] hook and no microtask is left, and nothing but a new
    call changes the state after that. *)
Lemma cycle_is_a_deadlock (stack : nat) :
  let s := run cycle_files stack cycle_trace (init true) in
  promises s !! 0 = Some (Pending []) ∧
  quiescent s ∧
  ∀ tr, Forall (λ a, is_load a = false) tr → run cycle_files stack tr s = s.
Proof.
  intros s. assert (Hq : quiescent s) by (by vm_compute).
  split_and!; [by vm_compute|done|]. intros tr Htr. by apply quiescent_run.
Qed.

(** C5, counterexample.  With C depending on D and D on C,
    [loadModule("C")] is not rejected: its promise stays pending, no
    timer, no [init] hook and no microtask is left, and nothing but a new
    call changes the state after that. *)
Lemma load_of_a_cycle_stays_pending :
  promises (run cycle_files deep cycle_trace (init true)) !! 0 = Some (Pending []) ∧
  quiescent (run cycle_files deep cycle_trace (init true)) ∧
  ∀ tr, Forall (λ a, is_load a = false) tr →
    run cycle_files deep tr (run cycle_files deep cycle_trace (init true))
    = run cycle_files deep cycle_trace (init true).
Proof.
  assert (Hq : quiescent (run cycle_files deep cycle_trace (init true))) by (by vm_compute).
  split_and!; [by vm_compute|done|]. intros tr Htr. by apply quiescent_run.
Qed.

(** With A depending on B, [loadModule("A")] marks B loaded before the
    [init] hook of A is called. *)
Lemma dependency_is_loaded_before_init (stack : nat) :
  let a := Instance 0 (plain ["B"]) in
  let b := Instance 1 (plain []) in
  log (run pair_files stack pair_trace (init true)) =
  [Instantiated "A" a; Instantiated "B" b; InitCalled "B" b; Activated "B" b;
   InitCalled "A" a; Activated "A" a].
Proof. by vm_compute. Qed.


(** *** Loads in flight *)

Lemma loadingPromises_settle p o s : loadingPromises (settle p o s) = loadingPromises s.
Proof. unfold settle. by destruct (promises s !! p) as [[|]|]. Qed.

Lemma loadingPromises_await p k s : loadingPromises (await p k s) = loadingPromises s.
Proof. unfold await. by destruct (promises s !! p) as [[|]|]. Qed.

Lemma settle_pending p o s ws :
  promises s !! p = Some (Pending ws) → promises (settle p o s) !! p = Some (Settled o).
Proof.
  intros H. unfold settle. rewrite H. simpl. apply list_lookup_insert_eq.
  by eapply lookup_lt_Some.
Qed.

Lemma settle_queue p o s ws :
  promises s !! p = Some (Pending ws) →
  microtasks (settle p o s) = microtasks s ++ ((λ k, (k, o)) <$> ws).
Proof. intros H. unfold settle. by rewrite H. Qed.

Lemma await_pending p k s ws :
  promises s !! p = Some (Pending ws) →
  promises (await p k s) !! p = Some (Pending (ws ++ [k])) ∧
  microtasks (await p k s) = microtasks s.
Proof.
  intros H. unfold await. rewrite H. simpl. split; [|done].
  apply list_lookup_insert_eq. by eapply lookup_lt_Some.
Qed.

Lemma await_settled p k s o :
  promises s !! p = Some (Settled o) →
  promises (await p k s) !! p = Some (Settled o) ∧
  microtasks (await p k s) = microtasks s ++ [(k, o)].
Proof. intros H. unfold await. by rewrite H. Qed.

Lemma unaffected_refl X s : unaffected X s s.
Proof. by intros p Hp. Qed.

Lemma unaffected_trans X s1 s2 s3 :
  unaffected X s1 s2 → unaffected X s2 s3 → unaffected X s1 s3.
Proof.
  intros H1 H2 p Hp. destruct (H1 p Hp) as [Hp2 Hr2]. destruct (H2 p Hp2) as [Hp3 Hr3].
  split; [done|]. by rewrite Hr3.
Qed.

Lemma unaffected_same X s s' :
  loadingPromises s' = loadingPromises s → log s' = log s → unaffected X s s'.
Proof. intros H1 H2 p Hp. by rewrite H1, H2. Qed.

Lemma unaffected_settle X p o s : unaffected X s (settle p o s).
Proof. apply unaffected_same; [apply loadingPromises_settle|apply log_settle]. Qed.

Lemma unaffected_await X p k s : unaffected X s (await p k s).
Proof. apply unaffected_same; [apply loadingPromises_await|apply log_await]. Qed.

Lemma unaffected_record X e s : subject e ≠ X → unaffected X s (record e s).
Proof.
  intros He p Hp. split; [done|]. simpl. unfold record_of.
  rewrite filter_app, filter_cons_False, filter_nil, app_nil_r; done.
Qed.

Section Flight.

Variable X : string.
Variable load : string → kernel → nat * kernel.
Hypothesis load_unaffected : ∀ name s, unaffected X s (load name s).2.

Lemma unaffected_dependencies_loop deps self s :
  unaffected X s (dependencies_loop load deps self s).
Proof using load_unaffected.
  unfold dependencies_loop. destruct (next_dependency s deps) as [[d rest]|].
  - pose proof (load_unaffected d s) as H. destruct (load d s) as [r s1]. simpl in *.
    eapply unaffected_trans; [done|]. apply unaffected_await.
  - apply unaffected_settle.
Qed.

Lemma unaffected_loadDependencies m s : unaffected X s (_loadDependencies load m s).2.
Proof using load_unaffected.
  unfold _loadDependencies, new_promise. destruct (dependencies _); simpl.
  - eapply unaffected_trans; [|apply unaffected_dependencies_loop]. by apply unaffected_same.
  - eapply unaffected_trans; [|apply unaffected_settle]. by apply unaffected_same.
Qed.

Lemma unaffected_instantiate name c self s :
  name ≠ X → unaffected X s (instantiate load name c self s).
Proof using load_unaffected.
  intros Hne. unfold instantiate.
  set (m := Instance _ _). set (s1 := record _ _).
  assert (H1 : unaffected X s s1).
  { eapply unaffected_trans; [|by apply unaffected_record]. by apply unaffected_same. }
  destruct (_validateModuleInterface c).
  - pose proof (unaffected_loadDependencies m s1) as H2.
    destruct (_loadDependencies load m s1) as [q s2]. simpl in *.
    eapply unaffected_trans; [done|]. eapply unaffected_trans; [done|]. apply unaffected_await.
  - eapply unaffected_trans; [done|]. apply unaffected_settle.
Qed.

Lemma unaffected_doLoadModule name s :
  name ≠ X → unaffected X s (_doLoadModule load name s).2.
Proof using load_unaffected.
  intros Hne. unfold _doLoadModule, new_promise. simpl.
  destruct (moduleCache s !! name) as [c|]; simpl.
  - eapply unaffected_trans; [|by apply unaffected_instantiate]. by apply unaffected_same.
  - eapply unaffected_trans; [|apply unaffected_await]. by apply unaffected_same.
Qed.

Lemma unaffected_loadModule_body name s : unaffected X s (loadModule_body load name s).2.
Proof using load_unaffected.
  unfold loadModule_body, new_promise. simpl.
  destruct (loadedModules s !! name) as [m|]; simpl.
  { eapply unaffected_trans; [|apply unaffected_settle]. by apply unaffected_same. }
  destruct (loadingPromises s !! name) as [p|] eqn:He; simpl.
  { eapply unaffected_trans; [|apply unaffected_await]. by apply unaffected_same. }
  destruct (decide (name = X)) as [->|Hne]; [intros q Hq; congruence|].
  set (s1 := set_promises _ s).
  pose proof (unaffected_doLoadModule name s1 Hne) as H2.
  destruct (_doLoadModule load name s1) as [p s2]. simpl in *.
  eapply unaffected_trans; [by apply (unaffected_same X s s1)|].
  eapply unaffected_trans; [done|].
  eapply unaffected_trans; [|apply unaffected_await].
  intros q Hq. simpl. by rewrite lookup_insert_ne.
Qed.

End Flight.

Lemma unaffected_loadModule_at X depth name s : unaffected X s (loadModule_at depth name s).2.
Proof.
  revert name s. induction depth as [|depth IH]; intros name s; simpl.
  - eapply unaffected_trans; [|apply unaffected_settle]. by apply unaffected_same.
  - by apply unaffected_loadModule_body.
Qed.

(** [_doLoadModule] returns a new promise of the table. *)
Lemma doLoadModule_promise load name s :
  (∀ n t, steady t (load n t).2) →
  (_doLoadModule load name s).1 = length (promises s) ∧
  length (promises s) < length (promises (_doLoadModule load name s).2) ∧
  loadedModules (_doLoadModule load name s).2 = loadedModules s.
Proof.
  intros Hload. unfold _doLoadModule, new_promise. simpl.
  set (s0 := set_promises _ s).
  assert (Hlen : length (promises s0) = S (length (promises s))).
  { simpl. rewrite length_app. simpl. lia. }
  destruct (moduleCache s !! name) as [c|]; simpl.
  - destruct (steady_instantiate load Hload name c (length (promises s)) s0) as (H1 & H2 & _).
    split_and!; [done|lia|done].
  - assert (H : steady s0 (await (length (promises s0)) (KFile name (length (promises s)))
                 (set_timers (λ l, l ++ [(length (promises s0), name)])
                    (set_promises (λ ps, ps ++ [Pending []]) s0)))).
    { eapply steady_trans; [apply steady_fresh|].
      eapply steady_trans; [|apply steady_await]. by split_and!. }
    destruct H as (H1 & H2 & _). split_and!; [done| |done].
    subst s0. simpl in *. lia.
Qed.

Section SingleFlight.

Variable stack : nat.


End SingleFlight.


(** Two calls [loadModule("A")] in a row on a new loader, run to the end:
    one instance, one call of [init], and both promises are fulfilled with
    that instance. *)
Lemma two_loads_run_init_once (stack : nat) :
  let s := run mock_files stack twice_trace (init true) in
  let m := Instance 0 MockModule in
  promises s !! 0 = Some (Settled (Ok (VInstance m))) ∧
  promises s !! 3 = Some (Settled (Ok (VInstance m))) ∧
  loadedModules s !! "A" = Some m ∧
  loadingPromises s !! "A" = None ∧
  log s = [Instantiated "A" m; InitCalled "A" m; Activated "A" m].
Proof. intros s m. split_and!; by vm_compute. Qed.

(** Two calls for a module whose file cannot be loaded: both promises
    are rejected with the same error, the entry is removed, and the next
    call starts a new file load. *)
Lemma failed_load_can_be_retried (stack : nat) :
  let s := run no_files stack failing_trace (init true) in
  promises s !! 0 = Some (Settled (Err (FileLoadFailed "A"))) ∧
  promises s !! 3 = Some (Settled (Err (FileLoadFailed "A"))) ∧
  loadedModules s !! "A" = None ∧
  loadingPromises s !! "A" = None ∧
  timers s = [] ∧
  timers (step no_files stack s (Load "A")) = [(6, "A")] ∧
  loadingPromises (step no_files stack s (Load "A")) !! "A" = Some 5.
Proof. intros s. split_and!; by vm_compute. Qed.

Section Registration.

Variable stack : nat.

(** C9.  When the module does not pass [validateModuleInterface], or its
    [init] throws, [registerModule] resolves with [false] and [modules],
    [apis] and the emitted events are as before the call.  When [init]
    returns a promise that is rejected, the call leaves the three as they
    are, and so does its continuation, which resolves with [false]. *)
Theorem failed_registration_changes_no_registry (name : string) (m : instance) (s : kernel) :
  validateModuleInterface (inst_class m) = false ∨
  init_behaviour (inst_class m) = InitThrows ∨
  init_behaviour (inst_class m) = InitRejects →
  let call := registerModule name m s in
  (modules call.2 = modules s ∧ apis call.2 = apis s ∧ emitted call.2 = emitted s) ∧
  (validateModuleInterface (inst_class m) = false ∨
   init_behaviour (inst_class m) = InitThrows →
     promises call.2 !! call.1 = Some (Settled (Ok (VBool false)))) ∧
  (init_behaviour (inst_class m) = InitRejects → init_outcome m = Err InitFailed) ∧
  (∀ t e, let t' := run_kont stack (KInit name m call.1) (Err e) t in
     (modules t' = modules t ∧ apis t' = apis t ∧ emitted t' = emitted t) ∧
     (∀ ws, promises t !! call.1 = Some (Pending ws) →
            promises t' !! call.1 = Some (Settled (Ok (VBool false))))).
Proof.
  intros Hfail call.
  assert (Hsettle : ∀ p o t, modules (settle p o t) = modules t ∧
            apis (settle p o t) = apis t ∧ emitted (settle p o t) = emitted t).
  { intros p o t. unfold settle. by destruct (promises t !! p) as [[|]|]. }
  assert (Hawait : ∀ p k t, modules (await p k t) = modules t ∧
            apis (await p k t) = apis t ∧ emitted (await p k t) = emitted t).
  { intros p k t. unfold await. by destruct (promises t !! p) as [[|]|]. }
  set (self := length (promises s)).
  set (s0 := set_promises (λ ps, ps ++ [Pending []]) s).
  assert (Hself : ∀ e, promises (record e s0) !! self = Some (Pending []) ∧
                       promises s0 !! self = Some (Pending [])).
  { intros e. simpl. unfold self. by rewrite lookup_app_r, Nat.sub_diag by lia. }
  assert (H1 : call.1 = self).
  { unfold call, registerModule, new_promise. fold s0.
    destruct (modules s0 !! name); [done|]. destruct (validateModuleInterface _); [|done].
    by destruct (init_behaviour _). }
  rewrite H1. split; [|split; [|split]].
  - unfold call, registerModule, new_promise. fold s0. fold self.
    destruct (modules s0 !! name); [simpl; apply (Hsettle _ _ s0)|].
    destruct (validateModuleInterface _); [|simpl; apply (Hsettle _ _ s0)].
    destruct (init_behaviour _); simpl.
    + apply (Hsettle _ _ (record (InitCalled name m) s0)).
    + match goal with |- context [await ?p ?k ?t] => apply (Hawait p k t) end.
    + match goal with |- context [await ?p ?k ?t] => apply (Hawait p k t) end.
  - intros Hf. unfold call, registerModule, new_promise. fold s0. fold self.
    destruct (modules s0 !! name).
    { simpl. eapply settle_pending. apply (Hself (InitCalled name m)). }
    destruct (validateModuleInterface _) eqn:Hv.
    2: { simpl. eapply settle_pending. apply (Hself (InitCalled name m)). }
    destruct Hf as [Hf|Hf]; [done|]. rewrite Hf. simpl.
    eapply settle_pending. apply (Hself (InitCalled name m)).
  - intros Hr. unfold init_outcome. by rewrite Hr.
  - intros t e t'. unfold t'. simpl. split; [apply Hsettle|].
    intros ws Hws. by eapply settle_pending.
Qed.

End Registration.

(** C9, at an instance whose [init] is not a function. *)
Lemma failed_registration_changes_no_registry_witness :
  validateModuleInterface faulty = false ∧
  promises (registerModule "A" (Instance 0 faulty) (init true)).2
    !! (registerModule "A" (Instance 0 faulty) (init true)).1
  = Some (Settled (Ok (VBool false))) ∧
  modules (registerModule "A" (Instance 0 faulty) (init true)).2 = modules (init true).
Proof.
  assert (H1 : validateModuleInterface (inst_class (Instance 0 faulty)) = false) by reflexivity.
  split; [exact H1|].
  pose proof (failed_registration_changes_no_registry 0 "A" (Instance 0 faulty) (init true)
                (or_introl H1)) as H.
  cbv zeta in H. destruct H as ([Hm _] & Hp & _).
  split; [exact (Hp (or_introl H1))|exact Hm].
Defined.

End KernelFacts.

(** * More properties of the event bus *)

Module EventBusMore.
Import EventBus.
Import EventBusFacts.

Lemma wild_errors_cons behaves w ws :
  wild_errors behaves (w :: ws) =
  match behaves (wcallback w) with Throws x => [(wconfig w, x)] | Returns _ => [] end
  ++ wild_errors behaves ws.
Proof. unfold wild_errors. simpl. by destruct (behaves _). Qed.

Lemma exact_errors_cons behaves l ls :
  exact_errors behaves (l :: ls) =
  match behaves (callback l) with Throws x => [(lconfig l, x)] | Returns _ => [] end
  ++ exact_errors behaves ls.
Proof. unfold exact_errors. simpl. by destruct (behaves _). Qed.

Lemma consumed_cons behaves x l :
  consumed behaves (x :: l) =
  (if once (lconfig x) then
     match behaves (callback x) with Returns _ => [x] | Throws _ => [] end
   else []) ++ consumed behaves l.
Proof.
  unfold consumed.
  destruct (once (lconfig x)) eqn:Ho; destruct (behaves (callback x)) eqn:Hb; simpl.
  - rewrite filter_cons_True; [done|]. unfold returns. by rewrite Hb.
  - rewrite filter_cons_False; [done|]. unfold returns. rewrite Hb. by intros [? ?].
  - rewrite filter_cons_False; [done|]. intros [H1 H2]. simpl in H1. congruence.
  - rewrite filter_cons_False; [done|]. intros [H1 H2]. simpl in H1. congruence.
Qed.

Section Ends.

Variable regex_test : string → string → option bool.
Variable behaves : nat → outcome.

Local Abbreviation emit := (emit regex_test).
Local Abbreviation sp := (respawn regex_test).
Local Abbreviation next_wild := (next_wild regex_test sp).
Local Abbreviation next_exact := (next_exact regex_test sp).
Local Abbreviation finish := (finish sp).
Local Abbreviation resume := (resume regex_test).
Local Abbreviation drive := (drive regex_test behaves).
Local Abbreviation complete := (complete regex_test behaves).
Local Abbreviation publish := (publish regex_test behaves).
Local Abbreviation wild_plan := (wild_plan regex_test).
Local Abbreviation remaining := (remaining regex_test).
Local Abbreviation consumed := (consumed behaves).
Local Abbreviation exact_errors := (exact_errors behaves).
Local Abbreviation wild_errors := (wild_errors behaves).

(** What a call of [emit] leaves behind at once. *)
Lemma emit_record t d src s :
  eventHistory (emit t d src s) = pushed (Envelope t d (nextEvent s) src) (eventHistory s) ∧
  nextEvent (emit t d src s) = S (nextEvent s) ∧
  (∃ e, emissions (emit t d src s) = emissions s ++ [e] ∧ e_type e = t ∧ e_id e = nextEvent s) ∧
  (t = system_error → timers (emit t d src s) = timers s).
Proof.
  rewrite emit_eq. unfold EventBus.next_exact, log_event, pushed. simpl.
  destruct (list_of _ _ !! 0) as [l|] eqn:Hl; simpl.
  - split_and!; try done. eexists. split; [apply insert_last|done].
  - unfold EventBus.next_wild. simpl.
    destruct (scan_wild _ _ _ _) as [i w| |]; simpl.
    + split_and!; try done. eexists. split; [apply insert_last|done].
    + unfold EventBus.finish. simpl.
      split_and!; try done. eexists. split; [apply insert_last|done].
    + unfold critical. simpl. destruct (decide (t = _)) as [->|Hne]; simpl.
      * split_and!; try done. eexists. split; [apply insert_last|done].
      * split_and!; try done. eexists. split; [apply insert_last|done].
Qed.


(** The tail of [emit] and the report it starts. *)
Lemma finish_record k e s :
  k < length (emissions s) →
  let s' := finish k e s in
  emissions s' !! k = Some (with_state e Resolved) ∧
  timers s' = timers s ∧
  (if decide (e_errors e ≠ [] ∧ e_type e ≠ system_error)
   then eventHistory s' =
          pushed (Envelope system_error (PListenerErrors (e_type e) (e_errors e) (e_id e))
                           (nextEvent s) "unknown") (eventHistory s) ∧
        nextEvent s' = S (nextEvent s) ∧
        (∃ e2, emissions s' !! length (emissions s) = Some e2 ∧ e_type e2 = system_error) ∧
        length (emissions s') = S (length (emissions s))
   else eventHistory s' = eventHistory s ∧ nextEvent s' = nextEvent s ∧
        length (emissions s') = length (emissions s)).
Proof.
  intros Hk. unfold EventBus.finish. simpl.
  destruct (e_errors e) as [|x xs] eqn:Herr.
  { rewrite decide_False by (intros [? ?]; done). simpl.
    rewrite list_lookup_insert_eq by done. rewrite length_insert. done. }
  destruct (decide (e_type e = TStr "system:error")) as [Hsys|Hsys].
  { rewrite decide_False by (intros [? ?]; done). simpl.
    rewrite list_lookup_insert_eq by done. rewrite length_insert. done. }
  rewrite decide_True by done.
  destruct (emit_record (TStr "system:error") (PListenerErrors (e_type e) (x :: xs) (e_id e))
              "unknown" s) as (Hh & Hn & (e2 & He2 & Hty & _) & Ht).
  unfold respawn. fold emit. simpl. rewrite length_insert.
  rewrite He2, length_app. simpl.
  split_and!.
  - rewrite list_lookup_insert_eq; [done|]. rewrite length_app. simpl. lia.
  - by apply Ht.
  - done.
  - done.
  - exists e2. split; [|done]. rewrite list_lookup_insert_ne by lia.
    rewrite lookup_app_r by lia. by rewrite Nat.sub_diag.
  - lia.
Qed.

Lemma critical_record k e s :
  k < length (emissions s) →
  let s' := critical k e s in
  emissions s' !! k = Some (with_state e Rejected) ∧
  timers s' = timers s ++ (if decide (e_type e = system_error) then [] else [(e_type e, e_id e)]) ∧
  eventHistory s' = eventHistory s ∧ nextEvent s' = nextEvent s ∧
  length (emissions s') = length (emissions s).
Proof.
  intros Hk. unfold critical, system_error. destruct (decide _); simpl;
    rewrite list_lookup_insert_eq by done; rewrite length_insert; split_and!; try done.
  by rewrite app_nil_r.
Qed.

(** The wildcard loop, run to its end: the errors collected, the deferred
    report when [matchesWildcard] throws, and the report on failed
    listeners. *)
Lemma wild_end k t (l : list wildcard) : ∀ idx e s ws fuel,
  e_type e = t → k < length (emissions s) → drop idx (wset_at s ws) = l → length l ≤ fuel →
  let plan := wild_plan t l in
  let errs := e_errors e ++ wild_errors plan.1 in
  ∃ s', drive fuel k (next_wild k e ws idx s) = s' ∧
  (∃ e', emissions s' !! k = Some e' ∧ e_errors e' = errs ∧ e_id e' = e_id e) ∧
  timers s' = timers s ++
    (if plan.2 then (if decide (t = system_error) then [] else [(t, e_id e)]) else []) ∧
  (if decide (plan.2 = false ∧ errs ≠ [] ∧ t ≠ system_error)
   then eventHistory s' =
          pushed (Envelope system_error (PListenerErrors t errs (e_id e)) (nextEvent s) "unknown")
                 (eventHistory s) ∧
        nextEvent s' = S (nextEvent s) ∧
        (∃ e2, emissions s' !! length (emissions s) = Some e2 ∧ e_type e2 = system_error) ∧
        length (emissions s') = S (length (emissions s))
   else eventHistory s' = eventHistory s ∧ nextEvent s' = nextEvent s ∧
        length (emissions s') = length (emissions s)).
Proof.
  induction l as [|w l IH]; intros idx e s ws fuel Ht Hk Hdrop Hfuel plan errs.
  - unfold EventBus.next_wild. rewrite Hdrop. simpl.
    destruct (finish_record k e s Hk) as (He & Htm & Hrep). fold finish in He, Htm, Hrep.
    rewrite (drive_settled _ _ _ _ _ _ He) by (by left).
    eexists. split; [done|]. subst plan errs. simpl. rewrite !app_nil_r.
    split; [by eexists|]. split; [done|]. rewrite Ht in Hrep.
    destruct (decide (e_errors e ≠ [] ∧ t ≠ system_error)) as [[H1 H2]|Hn].
    + by rewrite decide_True.
    + rewrite decide_False; [done|]. intros (_ & H1 & H2). by apply Hn.
  - unfold EventBus.next_wild. rewrite Hdrop. simpl. rewrite Ht.
    assert (Hdrop' : drop (S idx) (wset_at s ws) = l).
    { change l with (drop 1 (w :: l)). rewrite <- Hdrop, drop_drop. f_equal. lia. }
    subst plan errs. simpl.
    destruct (matchesWildcard regex_test t (pattern w)) as [[|]|] eqn:Hm.
    + destruct fuel as [|fuel]; [simpl in Hfuel; lia|]. simpl.
      unfold awaited. simpl. rewrite list_lookup_insert_eq by done. simpl.
      unfold EventBus.resume, resume_with. simpl. rewrite list_lookup_insert_eq by done. simpl.
      set (s1 := put k _ _).
      destruct (EventBus.wild_plan regex_test t l) as [p b] eqn:Hplan. simpl.
      assert (Hk1 : k < length (emissions s1)) by (by subst s1; simpl; rewrite length_insert).
      assert (Hf : length l ≤ fuel) by (simpl in Hfuel; lia).
      assert (Hlen1 : length (emissions s1) = length (emissions s))
        by (by subst s1; simpl; rewrite length_insert).
      destruct (behaves (wcallback w)) as [v|x] eqn:Hb; simpl.
      * destruct (IH (S idx) (add_result (with_state e (AwaitWild ws idx w)) v) s1 ws fuel
                    Ht Hk1 Hdrop' Hf) as (s' & Hs' & He' & Htm & Hrep).
        simpl in He', Htm, Hrep. rewrite ?length_insert in Hrep.
        exists s'. split; [done|]. done.
      * destruct (IH (S idx) (add_error (with_state e (AwaitWild ws idx w)) (wconfig w) x) s1 ws fuel
                    Ht Hk1 Hdrop' Hf) as (s' & Hs' & He' & Htm & Hrep).
        simpl in He', Htm, Hrep. rewrite ?length_insert in Hrep.
        rewrite <- app_assoc in He', Hrep. simpl in He', Hrep.
        exists s'. split; [done|]. done.
    + destruct (IH (S idx) e s ws fuel Ht Hk Hdrop') as (s' & Hs' & Hrest);
        [simpl in Hfuel; lia|].
      unfold EventBus.next_wild in Hs'. rewrite Hdrop', Ht in Hs'. by exists s'.
    + destruct (critical_record k e s Hk) as (He & Htm & Hh & Hn & Hlen).
      rewrite (drive_settled _ _ _ _ _ _ He) by (by right).
      eexists. split; [done|]. rewrite Ht in Htm.
      split; [eexists; split; [exact He|]; simpl; by rewrite app_nil_r|].
      split; [exact Htm|].
      rewrite decide_False; [done|]. by intros (? & _).
Qed.

Lemma remove_listeners_rest t arr rm s :
  let s' := remove_listeners t arr rm s in
  timers s' = timers s ∧ eventHistory s' = eventHistory s ∧ nextEvent s' = nextEvent s ∧
  nextListener s' = nextListener s.
Proof.
  unfold remove_listeners. destruct rm; [done|]. destruct t; [|done].
  by destruct (decide _).
Qed.

Lemma remove_listeners_store t arr rm s1 s :
  arrays s1 = arrays s → events s1 = events s →
  arrays (remove_listeners t arr rm s1) = arrays (remove_listeners t arr rm s) ∧
  events (remove_listeners t arr rm s1) = events (remove_listeners t arr rm s).
Proof.
  intros Ha He. unfold remove_listeners. destruct rm as [|x rm]; [done|]. destruct t; [|done].
  assert (Hl : list_of s1 arr = list_of s arr).
  { destruct arr; simpl; [|done]. unfold array_at. by rewrite Ha. }
  rewrite Hl. destruct (decide _); simpl; by rewrite ?Ha, ?He.
Qed.

(** The first loop and the wildcard loop, run to their end. *)
Lemma exact_end k t (l : list listener) : ∀ idx e s arr rm fuel,
  e_type e = t → k < length (emissions s) → drop idx (list_of s arr) = l →
  length l + length (wset_at s (wildcardListeners s)) ≤ fuel →
  let plan := wild_plan t (wset_at s (wildcardListeners s)) in
  let errs := e_errors e ++ exact_errors l ++ wild_errors plan.1 in
  ∃ s', drive fuel k (next_exact k e arr idx rm s) = s' ∧
  (∃ e', emissions s' !! k = Some e' ∧ e_errors e' = errs ∧ e_id e' = e_id e) ∧
  timers s' = timers s ++
    (if plan.2 then (if decide (t = system_error) then [] else [(t, e_id e)]) else []) ∧
  (if decide (plan.2 = false ∧ errs ≠ [] ∧ t ≠ system_error)
   then eventHistory s' =
          pushed (Envelope system_error (PListenerErrors t errs (e_id e)) (nextEvent s) "unknown")
                 (eventHistory s) ∧
        nextEvent s' = S (nextEvent s) ∧
        (∃ e2, emissions s' !! length (emissions s) = Some e2 ∧ e_type e2 = system_error) ∧
        length (emissions s') = S (length (emissions s))
   else eventHistory s' = eventHistory s ∧ nextEvent s' = nextEvent s ∧
        length (emissions s') = length (emissions s)) ∧
  arrays s' = arrays (remove_listeners t arr (rm ++ consumed l) s) ∧
  events s' = events (remove_listeners t arr (rm ++ consumed l) s).
Proof.
  induction l as [|x l IH]; intros idx e s arr rm fuel Ht Hk Hdrop Hfuel plan errs.
  - unfold EventBus.next_exact.
    assert (Hnone : list_of s arr !! idx = None).
    { rewrite <- (Nat.add_0_r idx), <- lookup_drop, Hdrop. done. }
    rewrite Hnone.
    destruct (remove_listeners_frame t arr rm s) as (Hw & Hwl & Hem & Hc).
    destruct (remove_listeners_rest t arr rm s) as (Htm0 & Hh0 & Hn0 & _).
    rewrite Ht. set (s1 := remove_listeners t arr rm s) in *.
    assert (HW : wset_at s1 (wildcardListeners s1) = wset_at s (wildcardListeners s)).
    { unfold wset_at. by rewrite Hw, Hwl. }
    assert (Hk1 : k < length (emissions s1)) by (by rewrite Hem).
    assert (Hf1 : length (wset_at s1 (wildcardListeners s1)) ≤ fuel).
    { rewrite HW. simpl in Hfuel. lia. }
    destruct (wild_end k t (wset_at s1 (wildcardListeners s1)) 0 e s1 (wildcardListeners s1) fuel
                Ht Hk1 eq_refl Hf1) as (s' & Hs' & He' & Htm & Hrep).
    destruct (run_wild regex_test behaves k t (wset_at s1 (wildcardListeners s1)) 0 e s1
                (wildcardListeners s1) fuel Ht Hk1 eq_refl Hf1)
      as (s2 & Hs2 & _ & _ & Ha & _ & Hev & _).
    rewrite Hs' in Hs2. subst s2.
    exists s'. split; [done|]. rewrite HW in He', Htm, Hrep.
    rewrite Htm0, Hh0, Hn0, Hem in *. subst errs plan. simpl. rewrite ?app_nil_r.
    split; [done|]. split; [done|]. split; [done|]. done.
  - unfold EventBus.next_exact.
    assert (Hsome : list_of s arr !! idx = Some x).
    { rewrite <- (Nat.add_0_r idx), <- lookup_drop, Hdrop. done. }
    assert (Hdrop' : drop (S idx) (list_of s arr) = l).
    { change l with (drop 1 (x :: l)). rewrite <- Hdrop, drop_drop. f_equal. lia. }
    rewrite Hsome.
    destruct fuel as [|fuel]; [simpl in Hfuel; lia|]. simpl.
    unfold awaited. simpl. rewrite list_lookup_insert_eq by done. simpl.
    unfold EventBus.resume, resume_with. simpl. rewrite list_lookup_insert_eq by done. simpl.
    set (s1 := put k _ _).
    assert (Hk1 : k < length (emissions s1)) by (by subst s1; simpl; rewrite length_insert).
    assert (Hf : length l + length (wset_at s1 (wildcardListeners s1)) ≤ fuel)
      by (simpl in Hfuel; subst s1; unfold wset_at in *; simpl; lia).
    assert (Hstore : ∀ rm0, arrays (remove_listeners t arr rm0 s1) = arrays (remove_listeners t arr rm0 s) ∧
                      events (remove_listeners t arr rm0 s1) = events (remove_listeners t arr rm0 s)).
    { intros rm0. by apply remove_listeners_store. }
    subst errs plan. rewrite exact_errors_cons, consumed_cons.
    destruct (behaves (callback x)) as [v|y] eqn:Hb.
    + destruct (IH (S idx) (add_result (with_state e (AwaitExact arr idx x rm)) v) s1 arr
                  (if once (lconfig x) then rm ++ [x] else rm) fuel Ht Hk1 Hdrop' Hf)
        as (s' & Hs' & He' & Htm & Hrep & Ha & Hev).
      exists s'. split; [done|]. simpl in He', Htm, Hrep. rewrite ?length_insert in Hrep.
      rewrite (proj1 (Hstore _)) in Ha. rewrite (proj2 (Hstore _)) in Hev.
      split; [done|]. split; [done|]. split; [done|].
      destruct (once (lconfig x)); simpl; rewrite <- ?app_assoc in Ha, Hev; simpl in *;
        by rewrite ?app_nil_r.
    + destruct (IH (S idx) (add_error (with_state e (AwaitExact arr idx x rm)) (lconfig x) y) s1 arr
                  rm fuel Ht Hk1 Hdrop' Hf)
        as (s' & Hs' & He' & Htm & Hrep & Ha & Hev).
      exists s'. split; [done|]. simpl in He', Htm, Hrep. rewrite ?length_insert in Hrep.
      rewrite (proj1 (Hstore _)) in Ha. rewrite (proj2 (Hstore _)) in Hev.
      rewrite <- !app_assoc in He', Hrep. simpl in He', Hrep.
      split; [done|]. split; [done|]. split; [done|].
      destruct (once (lconfig x)); simpl; by rewrite ?app_nil_r.
Qed.

End Ends.

Lemma place_perm l ls : place l ls ≡ₚ l :: ls.
Proof.
  induction ls as [|x ls IH]; [done|]. rewrite place_cons.
  destruct (_ <? _)%Z; [done|]. rewrite IH. apply perm_swap.
Qed.

Lemma NoDup_fmap_filter {A B} (f : A → B) (P : A → Prop) `{∀ x, Decision (P x)} (l : list A) :
  NoDup (f <$> l) → NoDup (f <$> filter P l).
Proof.
  intros Hn. eapply sublist_NoDup; first [done|apply fmap_sublist, sublist_filter].
Qed.

Lemma NoDup_fmap_eq {A B} (f : A → B) (l : list A) x y :
  NoDup (f <$> l) → x ∈ l → y ∈ l → f x = f y → x = y.
Proof.
  induction l as [|a l IH]; intros Hn Hx Hy Hf; [by apply elem_of_nil in Hx|].
  rewrite fmap_cons in Hn. apply NoDup_cons in Hn as [Ha Hn].
  apply elem_of_cons in Hx as [->|Hx]; apply elem_of_cons in Hy as [->|Hy]; try done.
  - destruct Ha. rewrite Hf. by apply list_elem_of_fmap_2.
  - destruct Ha. rewrite <- Hf. by apply list_elem_of_fmap_2.
  - by apply IH.
Qed.

Lemma filter_ext_in {A} (P Q : A → Prop) `{∀ x, Decision (P x)} `{∀ x, Decision (Q x)} (l : list A) :
  (∀ x, x ∈ l → P x ↔ Q x) → filter P l = filter Q l.
Proof.
  induction l as [|a l IH]; intros Hpq; [done|].
  rewrite !filter_cons. rewrite IH by (intros x Hx; apply Hpq; by right).
  destruct (decide (P a)) as [Hp|Hp], (decide (Q a)) as [Hq|Hq]; try done.
  - destruct Hq. apply Hpq; [by left|done].
  - destruct Hp. apply Hpq; [by left|done].
Qed.

Lemma filter_all {A} (P : A → Prop) `{∀ x, Decision (P x)} (l : list A) :
  (∀ x, x ∈ l → P x) → filter P l = l.
Proof.
  induction l as [|a l IH]; intros Hp; [done|].
  rewrite filter_cons_True by (apply Hp; by left). f_equal. apply IH.
  intros x Hx. apply Hp. by right.
Qed.

Section Distinct.

Variable regex_test : string → string → option bool.

Lemma distinct_init : distinct_ids init.
Proof. intros ls Hls. by apply elem_of_nil in Hls. Qed.

Lemma distinct_array_at s r : distinct_ids s → NoDup (id ∘ lconfig <$> array_at s r).
Proof.
  intros Hd. unfold array_at. destruct (arrays s !! r) as [A|] eqn:HA; simpl; [|constructor].
  apply Hd. by eapply list_elem_of_lookup_2.
Qed.

Lemma distinct_on t cb o s s' :
  wf s → distinct_ids s → on t cb o s = Some s' → distinct_ids s'.
Proof.
  intros Hwf Hd Hon. unfold on in Hon. destruct t as [name|]; [|done]. destruct cb as [f|]; [|done].
  destruct (includes_star name).
  { simplify_eq. done. }
  pose (l := Listener f (Config (o_once o) (o_priority o) (o_module o) (nextListener s))).
  assert (Hplace : ∀ A, NoDup (id ∘ lconfig <$> A) →
            (∀ x, x ∈ A → id (lconfig x) < nextListener s) →
            NoDup (id ∘ lconfig <$> place l A)).
  { intros A Hn Hlt. rewrite place_perm. rewrite fmap_cons. apply NoDup_cons. split; [|done].
    intros Hin. apply list_elem_of_fmap in Hin as (x & Hx & Hin). apply Hlt in Hin.
    simpl in Hx. rewrite <- Hx in Hin. simpl in Hin. lia. }
  simpl in Hon. destruct (events s !! name) as [r|] eqn:Hr; simpl in Hon; simplify_eq;
    intros ls Hls; simpl in Hls.
  - apply list_elem_of_lookup in Hls as [i Hi].
    apply list_lookup_insert_Some in Hi as [(-> & <- & Hlt)|(Hne & Hi)].
    + destruct (array_at_wf s i Hwf) as [_ Hid].
      apply Hplace; [by apply distinct_array_at|done].
    + apply Hd. by eapply list_elem_of_lookup_2.
  - apply list_elem_of_lookup in Hls as [i Hi].
    apply list_lookup_insert_Some in Hi as [(Heq & <- & Hlt)|(Hne & Hi)].
    + unfold array_at. simpl. rewrite lookup_app_r by lia. rewrite Nat.sub_diag. simpl.
      apply NoDup_singleton.
    + apply lookup_app_Some in Hi as [Hi|[Hge Hi]]; [apply Hd; by eapply list_elem_of_lookup_2|].
      apply list_lookup_singleton_Some in Hi as [_ <-]. constructor.
Qed.

Lemma distinct_app s ls :
  distinct_ids s → NoDup (id ∘ lconfig <$> ls) → ∀ l, l ∈ arrays s ++ [ls] → NoDup (id ∘ lconfig <$> l).
Proof.
  intros Hd Hn l Hl. apply elem_of_app in Hl as [Hl|Hl]; [by apply Hd|].
  by apply list_elem_of_singleton in Hl as ->.
Qed.

Lemma distinct_list_of s arr : distinct_ids s → NoDup (id ∘ lconfig <$> list_of s arr).
Proof. intros Hd. destruct arr; simpl; [by apply distinct_array_at|constructor]. Qed.

Lemma distinct_off name f s : distinct_ids s → distinct_ids (off name f s).
Proof.
  intros Hd. unfold off. destruct (includes_star name); [by intros ls Hls; apply Hd|].
  destruct (events s !! name) as [r|]; [|done].
  destruct (decide _); [by intros ls Hls; apply Hd|]. simpl. intros l Hl.
  apply (distinct_app s (filter (λ l, callback l ≠ f) (array_at s r))); [done| |done].
  by apply NoDup_fmap_filter, distinct_array_at.
Qed.

Lemma distinct_frame s s' : distinct_ids s → frame s s' → distinct_ids s'.
Proof.
  intros Hd [Ha _ _ _ _ _ _ _]. destruct Ha as [Ha|(rm & arr & Ha)]; intros l Hl; rewrite Ha in Hl.
  - by apply Hd.
  - apply (distinct_app s (filter (λ l, ¬ includes rm l) (list_of s arr))); [done| |done].
    by apply NoDup_fmap_filter, distinct_list_of.
Qed.

Lemma distinct_step s a : wf s → distinct_ids s → distinct_ids (step regex_test s a).
Proof.
  intros Hwf Hd. destruct a as [t cb o|name f|t d src|k o|]; simpl.
  - destruct (on t cb o s) as [s'|] eqn:Hon; [|done]. by eapply distinct_on.
  - by apply distinct_off.
  - eapply distinct_frame; [done|]. apply emit_frame.
  - eapply distinct_frame; [done|]. apply resume_frame.
  - unfold fire_timer. destruct (timers s) as [|[t eid] rest]; [done|].
    eapply distinct_frame; [|apply emit_frame]. done.
Qed.

Lemma distinct_run tr : ∀ s, wf s → distinct_ids s → distinct_ids (run regex_test tr s).
Proof.
  induction tr as [|a tr IH]; intros s Hwf Hd; [done|]. simpl.
  apply IH; [by apply wf_step|by apply distinct_step].
Qed.

End Distinct.

Section Published.

Variable regex_test : string → string → option bool.
Variable behaves : nat → outcome.

Local Abbreviation emit := (emit regex_test).
Local Abbreviation run := (run regex_test).
Local Abbreviation complete := (complete regex_test behaves).
Local Abbreviation publish := (publish regex_test behaves).
Local Abbreviation wild_plan := (wild_plan regex_test).
Local Abbreviation consumed := (consumed behaves).
Local Abbreviation exact_errors := (exact_errors behaves).
Local Abbreviation wild_errors := (wild_errors behaves).

(** What an undisturbed emission leaves behind. *)
Lemma publish_end t d src s :
  let k := length (emissions s) in
  let ls := list_of s (bucket_ref s t) in
  let plan := wild_plan t (wset_at s (wildcardListeners s)) in
  let errs := exact_errors ls ++ wild_errors plan.1 in
  let primary := Envelope t d (nextEvent s) src in
  let report := Envelope system_error (PListenerErrors t errs (nextEvent s))
                         (S (nextEvent s)) "unknown" in
  let s' := publish t d src s in
  (∃ e', emissions s' !! k = Some e' ∧ e_errors e' = errs ∧ e_id e' = nextEvent s) ∧
  timers s' = timers s ++
    (if plan.2 then (if decide (t = system_error) then [] else [(t, nextEvent s)]) else []) ∧
  (if decide (plan.2 = false ∧ errs ≠ [] ∧ t ≠ system_error)
   then eventHistory s' = pushed report (pushed primary (eventHistory s)) ∧
        nextEvent s' = S (S (nextEvent s)) ∧
        (∃ e2, emissions s' !! S k = Some e2 ∧ e_type e2 = system_error) ∧
        length (emissions s') = S (S k)
   else eventHistory s' = pushed primary (eventHistory s) ∧ nextEvent s' = S (nextEvent s) ∧
        length (emissions s') = S k) ∧
  arrays s' = arrays (remove_listeners t (bucket_ref s t) (consumed ls) s) ∧
  events s' = events (remove_listeners t (bucket_ref s t) (consumed ls) s).
Proof.
  intros k ls plan errs primary report s'. subst s'.
  unfold EventBus.publish, EventBus.complete.
  rewrite budget_emit, emit_eq.
  destruct (exact_end regex_test behaves k t ls 0 (Emission t (nextEvent s) [] [] Resolved)
              (log_event t d src s) (bucket_ref s t) [] (budget s))
    as (s' & Hs' & He' & Htm & Hrep & Ha & Hev).
  - done.
  - unfold log_event. simpl. rewrite length_app. simpl. lia.
  - done.
  - pose proof (list_of_budget s (bucket_ref s t)).
    pose proof (wset_at_budget s (wildcardListeners s)).
    unfold budget. change (list_of (log_event t d src s) (bucket_ref s t)) with ls.
    change (wset_at (log_event t d src s) (wildcardListeners (log_event t d src s)))
      with (wset_at s (wildcardListeners s)). subst ls. lia.
  - fold k. rewrite Hs'.
    change (wset_at (log_event t d src s) (wildcardListeners (log_event t d src s)))
      with (wset_at s (wildcardListeners s)) in *.
    fold plan in He', Htm, Hrep. simpl in He', Htm, Hrep. fold errs in He', Hrep.
    destruct (remove_listeners_store t (bucket_ref s t) (consumed ls) (log_event t d src s) s
                eq_refl eq_refl) as [Ha' Hev'].
    simpl in Ha, Hev. rewrite Ha' in Ha. rewrite Hev' in Hev.
    split; [done|]. split; [done|]. split; [|done].
    assert (Hlen : length (emissions s ++ [Emission t (nextEvent s) [] [] Resolved]) = S k).
    { rewrite length_app. simpl. unfold k. lia. }
    rewrite Hlen in Hrep. done.
Qed.

Lemma publish_wsets t d src s :
  wsets (publish t d src s) = wsets s ∧
  wildcardListeners (publish t d src s) = wildcardListeners s.
Proof.
  unfold EventBus.publish, EventBus.complete. rewrite budget_emit, emit_eq.
  destruct (run_exact regex_test behaves (length (emissions s)) t (list_of s (bucket_ref s t)) 0
              (Emission t (nextEvent s) [] [] Resolved)
              (log_event t d src s) (bucket_ref s t) [] (budget s))
    as (s' & Hs' & _ & _ & Hw & Hc).
  - done.
  - unfold log_event. simpl. rewrite length_app. simpl. lia.
  - done.
  - pose proof (list_of_budget s (bucket_ref s t)).
    pose proof (wset_at_budget s (wildcardListeners s)).
    unfold budget.
    change (list_of (log_event t d src s) (bucket_ref s t)) with (list_of s (bucket_ref s t)).
    change (wset_at (log_event t d src s) (wildcardListeners (log_event t d src s)))
      with (wset_at s (wildcardListeners s)). lia.
  - rewrite Hs'. done.
Qed.

(** X1, report of failed listeners.  An undisturbed emission collects one
    error for every listener that failed, in the order of delivery.  When
    there is one, the wildcard loop did not throw and the type is not
    ['system:error'], exactly one emission of ['system:error'] is started
    after the last listener, with these errors as its data; otherwise none
    is started. *)
Theorem failed_listeners_are_reported_once (s : bus) (t : evtype) (d : payload) (src : string) :
  let k := length (emissions s) in
  let ls := list_of s (bucket_ref s t) in
  let plan := wild_plan t (wset_at s (wildcardListeners s)) in
  let errs := exact_errors ls ++ wild_errors plan.1 in
  let primary := Envelope t d (nextEvent s) src in
  let report := Envelope system_error (PListenerErrors t errs (nextEvent s))
                         (S (nextEvent s)) "unknown" in
  let s' := publish t d src s in
  (∃ e, emissions s' !! k = Some e ∧ e_errors e = errs) ∧
  (plan.2 = false → errs ≠ [] → t ≠ system_error →
     eventHistory s' = pushed report (pushed primary (eventHistory s)) ∧
     length (emissions s') = k + 2 ∧
     ∃ e2, emissions s' !! (k + 1) = Some e2 ∧ e_type e2 = system_error) ∧
  (plan.2 = true ∨ errs = [] ∨ t = system_error →
     eventHistory s' = pushed primary (eventHistory s) ∧
     length (emissions s') = k + 1).
Proof.
  intros k ls plan errs primary report s'.
  destruct (publish_end t d src s) as ((e & He & Herr & _) & _ & Hrep & _).
  fold k ls plan errs primary report s' in He, Herr, Hrep.
  split; [by exists e|]. split.
  - intros H1 H2 H3. rewrite decide_True in Hrep by done.
    destruct Hrep as (Hh & _ & (e2 & He2 & Hty) & Hlen).
    split; [done|]. split; [lia|]. exists e2. by rewrite Nat.add_1_r.
  - intros H. rewrite decide_False in Hrep.
    + destruct Hrep as (Hh & _ & Hlen). split; [done|lia].
    + intros (H1 & H2 & H3). destruct H as [H|[H|H]]; [congruence|done|done].
Qed.

(** X2, a wildcard pattern that cannot be compiled.  When [matchesWildcard]
    throws on a wildcard entry that the emission comes to, the emission is
    rejected: it has invoked the whole bucket and the matching wildcard
    entries before that one, it starts no report of failed listeners, and
    it schedules one deferred ['system:error'] report, unless it is itself
    a ['system:error'] emission. *)
Theorem uncompilable_pattern_rejects_emit (s : bus) (t : evtype) (d : payload) (src : string) :
  (wild_plan t (wset_at s (wildcardListeners s))).2 = true →
  let k := length (emissions s) in
  let s' := publish t d src s in
  (∃ e, emissions s' !! k = Some e ∧ e_state e = Rejected) ∧
  delivered k s' = delivered k s ++ (id ∘ lconfig <$> list_of s (bucket_ref s t)) ++
    (id ∘ wconfig <$> (wild_plan t (wset_at s (wildcardListeners s))).1) ∧
  timers s' = timers s ++ (if decide (t = system_error) then [] else [(t, nextEvent s)]) ∧
  length (emissions s') = k + 1 ∧
  eventHistory s' = pushed (Envelope t d (nextEvent s) src) (eventHistory s).
Proof.
  intros Hthrow k s'.
  destruct (publish_spec regex_test behaves t d src s) as (Hd & e & He & Hst & _).
  fold k s' in Hd, He. rewrite Hthrow in Hst.
  destruct (publish_end t d src s) as (_ & Htm & Hrep & _).
  fold k s' in Htm, Hrep. rewrite Hthrow in Htm.
  rewrite decide_False in Hrep by (intros (H & _); congruence).
  destruct Hrep as (Hh & _ & Hlen).
  split; [by exists e|]. split; [done|]. split; [done|]. split; [lia|done].
Qed.

(** X3, the deferred report.  When the timer of a deferred report fires, a
    ['system:error'] emission is started with the type and the id of the
    emission that failed, and the timer is gone; running that emission to
    its end schedules no further report, whatever the wildcard patterns
    are. *)
Theorem deferred_report_is_not_repeated (s : bus) (t0 : evtype) (eid : nat) (rest : list (evtype * nat)) :
  timers s = (t0, eid) :: rest →
  let k := length (emissions s) in
  let s1 := fire_timer regex_test s in
  timers (complete k s1) = rest ∧
  eventHistory s1 =
    pushed (Envelope system_error (PCritical t0 eid) (nextEvent s) "unknown") (eventHistory s) ∧
  (∃ e, emissions s1 !! k = Some e ∧ e_type e = system_error) ∧
  length (emissions (complete k s1)) = k + 1.
Proof.
  intros Ht k s1. subst s1. unfold fire_timer. rewrite Ht.
  set (s0 := set_timers (λ _, rest) s).
  change (complete k (emit (TStr "system:error") (PCritical t0 eid) "unknown" s0))
    with (publish system_error (PCritical t0 eid) "unknown" s0).
  destruct (publish_end system_error (PCritical t0 eid) "unknown" s0) as (_ & Htm & Hrep & _).
  rewrite decide_False in Hrep by (intros (_ & _ & H); done).
  destruct Hrep as (_ & _ & Hlen).
  destruct (emit_record regex_test system_error (PCritical t0 eid) "unknown" s0)
    as (Hh & _ & (e & He & Hty & _) & _).
  split; [|split; [done|split]].
  - rewrite Htm. destruct (_.2); [|by rewrite app_nil_r].
    destruct (decide _); [by rewrite app_nil_r|done].
  - exists e. split; [|done]. unfold system_error in He. rewrite He.
    rewrite lookup_app_r by (simpl; lia). simpl. by rewrite Nat.sub_diag.
  - rewrite Hlen. simpl. lia.
Qed.

(** X4, wildcard subscriptions are not consumed.  No call of [emit], no
    resumption of an emission and no deferred report changes the wildcard
    Set, so the once flag of a wildcard subscription has no effect: an
    entry that an undisturbed emission invokes is invoked again by the
    next emission of the same type. *)
Theorem wildcard_subscriptions_are_not_consumed (s : bus) (t : evtype) (d : payload) (src : string) :
  let k := length (emissions s) in
  let s1 := publish t d src s in
  let s2 := publish t d src s1 in
  (∀ t' d' src', wsets (emit t' d' src' s) = wsets s ∧
                 wildcardListeners (emit t' d' src' s) = wildcardListeners s) ∧
  (∀ j o, wsets (resume regex_test j o s) = wsets s ∧
          wildcardListeners (resume regex_test j o s) = wildcardListeners s) ∧
  (wsets (fire_timer regex_test s) = wsets s ∧
   wildcardListeners (fire_timer regex_test s) = wildcardListeners s) ∧
  (wsets s1 = wsets s ∧ wildcardListeners s1 = wildcardListeners s) ∧
  (∀ w, w ∈ (wild_plan t (wset_at s (wildcardListeners s))).1 →
        id (wconfig w) ∈ delivered k s1 ∧
        id (wconfig w) ∈ delivered (length (emissions s1)) s2).
Proof.
  intros k s1 s2.
  destruct (publish_wsets t d src s) as [Hw Hc]. fold s1 in Hw, Hc.
  split_and!.
  - intros t' d' src'. destruct (emit_frame regex_test t' d' src' s). done.
  - intros j o. destruct (resume_frame regex_test j o s). done.
  - unfold fire_timer. destruct (timers s) as [|[t0 eid] rest]; [done|].
    destruct (emit_frame regex_test (TStr "system:error") (PCritical t0 eid) "unknown"
                (set_timers (λ _, rest) s)). done.
  - unfold fire_timer. destruct (timers s) as [|[t0 eid] rest]; [done|].
    destruct (emit_frame regex_test (TStr "system:error") (PCritical t0 eid) "unknown"
                (set_timers (λ _, rest) s)). done.
  - done.
  - done.
  - intros w Hin. split.
    + destruct (publish_spec regex_test behaves t d src s) as [Hd _]. fold k s1 in Hd.
      rewrite Hd. apply elem_of_app. right. apply elem_of_app. right.
      by apply (list_elem_of_fmap_2 (id ∘ wconfig)).
    + destruct (publish_spec regex_test behaves t d src s1) as [Hd _]. fold s2 in Hd.
      rewrite Hd. apply elem_of_app. right. apply elem_of_app. right.
      unfold wset_at. rewrite Hw, Hc. by apply (list_elem_of_fmap_2 (id ∘ wconfig)).
Qed.

End Published.

Lemma place_not_nil l ls : place l ls ≠ [].
Proof.
  intros H. assert (Hl : l ∈ place l ls) by (apply elem_of_place; by left).
  rewrite H in Hl. by apply elem_of_nil in Hl.
Qed.

Lemma array_at_app s r ls :
  r < length (arrays s) → default [] ((arrays s ++ [ls]) !! r) = array_at s r.
Proof. intros Hr. unfold array_at. by rewrite lookup_app_l. Qed.

Section Tidy.

Variable regex_test : string → string → option bool.
Variable behaves : nat → outcome.

Local Abbreviation emit := (emit regex_test).
Local Abbreviation sp := (respawn regex_test).
Local Abbreviation run := (run regex_test).
Local Abbreviation publish := (publish regex_test behaves).
Local Abbreviation wild_plan := (wild_plan regex_test).
Local Abbreviation consumed := (consumed behaves).

Lemma tidy_init : no_empty_bucket init.
Proof. intros name r H. done. Qed.

Lemma tidy_same s s' :
  arrays s' = arrays s → events s' = events s → no_empty_bucket s → no_empty_bucket s'.
Proof. intros Ha He Ht name r Hr. unfold array_at. rewrite Ha. rewrite He in Hr. by eapply Ht. Qed.

Lemma tidy_on t cb o s s' :
  wf s → no_empty_bucket s → on t cb o s = Some s' → no_empty_bucket s'.
Proof.
  intros Hwf Ht Hon. unfold on in Hon. destruct t as [name|]; [|done]. destruct cb as [f|]; [|done].
  destruct (includes_star name).
  { simplify_eq. by eapply tidy_same. }
  simpl in Hon. destruct (events s !! name) as [r|] eqn:Hr; simpl in Hon; simplify_eq;
    intros n r' Hn; simpl in Hn; unfold array_at; simpl.
  - destruct (decide (r' = r)) as [->|Hne].
    + rewrite list_lookup_insert_eq by (by eapply (wf_events _ Hwf)). simpl. apply place_not_nil.
    + rewrite list_lookup_insert_ne by done. by eapply Ht.
  - destruct (decide (r' = length (arrays s))) as [->|Hne].
    + rewrite list_lookup_insert_eq by (rewrite length_app; simpl; lia). simpl. apply place_not_nil.
    + rewrite list_lookup_insert_ne by done.
      apply lookup_insert_Some in Hn as [[_ <-]|[_ Hn]]; [done|].
      rewrite lookup_app_l by (by eapply (wf_events _ Hwf)). by eapply Ht.
Qed.

Lemma tidy_replace name ls s :
  (∀ n r, events s !! n = Some r → r < length (arrays s)) →
  no_empty_bucket s →
  no_empty_bucket
    (if decide (length ls = 0) then set_events (λ m, delete name m) s
     else set_events (λ m, <[name := length (arrays s)]> m) (set_arrays (λ h, h ++ [ls]) s)).
Proof.
  intros Hev Ht. destruct (decide _) as [Hz|Hz]; intros n r Hn; simpl in Hn.
  - apply lookup_delete_Some in Hn as [_ Hn]. by eapply Ht.
  - unfold array_at. simpl. apply lookup_insert_Some in Hn as [[_ <-]|[_ Hn]].
    + rewrite lookup_app_r by lia. rewrite Nat.sub_diag. simpl. by destruct ls.
    + rewrite lookup_app_l by (by eapply Hev). by eapply Ht.
Qed.

Lemma tidy_off name f s : wf s → no_empty_bucket s → no_empty_bucket (off name f s).
Proof.
  intros Hwf Ht. unfold off. destruct (includes_star name); [by eapply tidy_same|].
  destruct (events s !! name) as [r|]; [|done].
  apply tidy_replace; [apply (wf_events _ Hwf)|done].
Qed.

Lemma tidy_remove t arr rm s :
  (∀ n r, events s !! n = Some r → r < length (arrays s)) →
  no_empty_bucket s → no_empty_bucket (remove_listeners t arr rm s).
Proof.
  intros Hev Ht. unfold remove_listeners. destruct rm as [|x rm]; [done|].
  destruct t as [name|]; [|done]. by apply tidy_replace.
Qed.

Lemma tidy_next_wild k e ws idx s :
  k < length (emissions s) →
  no_empty_bucket s → no_empty_bucket (next_wild regex_test sp k e ws idx s).
Proof.
  intros Hk Ht. unfold EventBus.next_wild.
  destruct (scan_wild _ _ _ _) as [i w| |].
  - by eapply tidy_same.
  - destruct (finish_spec regex_test k e s Hk) as (_ & _ & Ha & _ & He & _).
    by eapply tidy_same.
  - destruct (critical_spec k e s Hk) as (_ & _ & Ha & _ & He & _).
    by eapply tidy_same.
Qed.

Lemma tidy_next_exact k e arr idx rm s :
  (∀ n r, events s !! n = Some r → r < length (arrays s)) →
  k < length (emissions s) →
  no_empty_bucket s → no_empty_bucket (next_exact regex_test sp k e arr idx rm s).
Proof.
  intros Hev Hk Ht. unfold EventBus.next_exact.
  destruct (list_of s arr !! idx) as [l|]; [by eapply tidy_same|].
  destruct (remove_listeners_frame (e_type e) arr rm s) as (_ & _ & Hem & _).
  apply tidy_next_wild; [by rewrite Hem|]. by apply tidy_remove.
Qed.

Lemma tidy_emit t d src s : no_empty_bucket s → no_empty_bucket (emit t d src s).
Proof.
  intros Ht. destruct (emit_extends regex_test t d src s) as [Ha _ He _ _ _ _ _].
  by eapply tidy_same.
Qed.

Lemma tidy_resume k o s : wf s → no_empty_bucket s → no_empty_bucket (resume regex_test k o s).
Proof.
  intros Hwf Ht. unfold EventBus.resume, resume_with.
  destruct (emissions s !! k) as [e|] eqn:He; [|done].
  assert (Hk : k < length (emissions s)) by (by eapply lookup_lt_Some).
  pose proof (wf_events _ Hwf) as Hev.
  destruct (e_state e) as [arr idx cur rm|ws idx cur| |]; destruct o as [v|x]; try done;
    first [by apply tidy_next_exact | by apply tidy_next_wild].
Qed.

Lemma tidy_step s a : wf s → no_empty_bucket s → no_empty_bucket (step regex_test s a).
Proof.
  intros Hwf Ht. destruct a as [t cb o|name f|t d src|k o|]; simpl.
  - destruct (on t cb o s) as [s'|] eqn:Hon; [|done]. by eapply tidy_on.
  - by apply tidy_off.
  - by apply tidy_emit.
  - by apply tidy_resume.
  - unfold fire_timer. destruct (timers s) as [|[t eid] rest]; [done|].
    apply tidy_emit. by eapply tidy_same.
Qed.

Lemma own_same s s' : events s' = events s → own_buckets s → own_buckets s'.
Proof. intros He Ho n1 n2 r. rewrite He. apply Ho. Qed.

Lemma own_replace name (ls : list listener) s :
  (∀ n r, events s !! n = Some r → r < length (arrays s)) →
  own_buckets s →
  own_buckets
    (if decide (length ls = 0) then set_events (λ m, delete name m) s
     else set_events (λ m, <[name := length (arrays s)]> m) (set_arrays (λ h, h ++ [ls]) s)).
Proof.
  intros Hev Ho. destruct (decide _) as [Hz|Hz]; intros n1 n2 r H1 H2; simpl in *.
  - apply lookup_delete_Some in H1 as [_ H1]. apply lookup_delete_Some in H2 as [_ H2].
    by eapply Ho.
  - apply lookup_insert_Some in H1 as [[<- <-]|[N1 H1]];
      apply lookup_insert_Some in H2 as [[<- E2]|[N2 H2]]; try done.
    + apply Hev in H2. lia.
    + apply Hev in H1. lia.
    + by eapply Ho.
Qed.

Lemma own_on t cb o s s' : wf s → own_buckets s → on t cb o s = Some s' → own_buckets s'.
Proof.
  intros Hwf Ho Hon. unfold on in Hon. destruct t as [name|]; [|done]. destruct cb as [f|]; [|done].
  destruct (includes_star name).
  { simplify_eq. by eapply own_same. }
  simpl in Hon. destruct (events s !! name) as [r|] eqn:Hr; simpl in Hon; simplify_eq.
  - by eapply own_same.
  - intros n1 n2 r H1 H2. simpl in *.
    apply lookup_insert_Some in H1 as [[<- <-]|[N1 H1]];
      apply lookup_insert_Some in H2 as [[<- E2]|[N2 H2]]; try done.
    + apply (wf_events _ Hwf) in H2. lia.
    + apply (wf_events _ Hwf) in H1. lia.
    + by eapply Ho.
Qed.

Lemma own_off name f s : wf s → own_buckets s → own_buckets (off name f s).
Proof.
  intros Hwf Ho. unfold off. destruct (includes_star name); [by eapply own_same|].
  destruct (events s !! name) as [r|]; [|done].
  apply own_replace; [apply (wf_events _ Hwf)|done].
Qed.

Lemma own_remove t arr rm s :
  (∀ n r, events s !! n = Some r → r < length (arrays s)) →
  own_buckets s → own_buckets (remove_listeners t arr rm s).
Proof.
  intros Hev Ho. unfold remove_listeners. destruct rm as [|x rm]; [done|].
  destruct t as [name|]; [|done]. by apply own_replace.
Qed.

Lemma own_next_wild k e ws idx s :
  k < length (emissions s) →
  own_buckets s → own_buckets (next_wild regex_test sp k e ws idx s).
Proof.
  intros Hk Ho. unfold EventBus.next_wild.
  destruct (scan_wild _ _ _ _) as [i w| |].
  - by eapply own_same.
  - destruct (finish_spec regex_test k e s Hk) as (_ & _ & Ha & _ & He & _).
    by eapply own_same.
  - destruct (critical_spec k e s Hk) as (_ & _ & Ha & _ & He & _).
    by eapply own_same.
Qed.

Lemma own_next_exact k e arr idx rm s :
  (∀ n r, events s !! n = Some r → r < length (arrays s)) →
  k < length (emissions s) →
  own_buckets s → own_buckets (next_exact regex_test sp k e arr idx rm s).
Proof.
  intros Hev Hk Ho. unfold EventBus.next_exact.
  destruct (list_of s arr !! idx) as [l|]; [by eapply own_same|].
  destruct (remove_listeners_frame (e_type e) arr rm s) as (_ & _ & Hem & _).
  apply own_next_wild; [by rewrite Hem|]. by apply own_remove.
Qed.

Lemma own_emit t d src s : own_buckets s → own_buckets (emit t d src s).
Proof.
  intros Ho. destruct (emit_extends regex_test t d src s) as [Ha _ He _ _ _ _ _].
  by eapply own_same.
Qed.

Lemma own_resume k o s : wf s → own_buckets s → own_buckets (resume regex_test k o s).
Proof.
  intros Hwf Ho. unfold EventBus.resume, resume_with.
  destruct (emissions s !! k) as [e|] eqn:He; [|done].
  assert (Hk : k < length (emissions s)) by (by eapply lookup_lt_Some).
  pose proof (wf_events _ Hwf) as Hev.
  destruct (e_state e) as [arr idx cur rm|ws idx cur| |]; destruct o as [v|x]; try done;
    first [by apply own_next_exact | by apply own_next_wild].
Qed.

Lemma own_step s a : wf s → own_buckets s → own_buckets (step regex_test s a).
Proof.
  intros Hwf Ho. destruct a as [t cb o|name f|t d src|k o|]; simpl.
  - destruct (on t cb o s) as [s'|] eqn:Hon; [|done]. by eapply own_on.
  - by apply own_off.
  - by apply own_emit.
  - by apply own_resume.
  - unfold fire_timer. destruct (timers s) as [|[t eid] rest]; [done|].
    apply own_emit. by eapply own_same.
Qed.

(** The invariants of the reachable states together. *)
Lemma reachable tr :
  let s := run tr init in
  wf s ∧ no_empty_bucket s ∧ own_buckets s ∧ distinct_ids s.
Proof.
  simpl. assert (H0 : wf init ∧ no_empty_bucket init ∧ own_buckets init ∧ distinct_ids init).
  { split; [apply wf_init|]. split; [apply tidy_init|]. split; [|apply distinct_init].
    by intros n1 n2 r H. }
  revert H0. generalize init. induction tr as [|a tr IH]; intros s0 (Hwf & Ht & Ho & Hd); [done|].
  simpl. apply IH. split; [by apply wf_step|]. split; [by apply tidy_step|].
  split; [by apply own_step|by apply distinct_step].
Qed.

(** X5, no empty bucket.  In every state the bus reaches, a name that is
    registered in [events] has at least one listener in its bucket: [off]
    and the removal of once listeners delete a bucket that they have
    emptied. *)
Theorem registered_buckets_are_not_empty (tr : list label) (name : string) :
  let s := run tr init in
  bucket s name ≠ Some [] ∧
  (is_Some (events s !! name) ↔ ∃ l ls, bucket s name = Some (l :: ls)).
Proof.
  intros s.
  destruct (reachable tr) as (Hwf & Ht & _). fold s in Hwf, Ht.
  unfold bucket. split.
  - destruct (events s !! name) as [r|] eqn:Hr; [|done]. simpl. intros [= H]. by eapply Ht.
  - split.
    + intros [r Hr]. rewrite Hr. simpl. destruct (array_at s r) as [|l ls] eqn:Ha; [|by eauto].
      by destruct (Ht name r Hr).
    + intros (l & ls & H). destruct (events s !! name); [done|discriminate].
Qed.

End Tidy.

Section Once.

Variable regex_test : string → string → option bool.
Variable behaves : nat → outcome.

Local Abbreviation emit := (emit regex_test).
Local Abbreviation run := (run regex_test).
Local Abbreviation publish := (publish regex_test behaves).
Local Abbreviation wild_plan := (wild_plan regex_test).
Local Abbreviation consumed := (consumed behaves).
Local Abbreviation returns := (returns behaves).

Lemma includes_consumed ls l :
  NoDup (id ∘ lconfig <$> ls) → l ∈ ls →
  includes (consumed ls) l ↔ once (lconfig l) = true ∧ returns (callback l) = true.
Proof.
  intros Hn Hl. unfold includes, EventBus.consumed. split.
  - intros Hin. apply list_elem_of_fmap in Hin as (l' & Hid & Hl').
    apply list_elem_of_filter in Hl' as [Hp Hl'].
    assert (l' = l) as ->; [|done].
    eapply (NoDup_fmap_eq (id ∘ lconfig)); [done|done|done|]. simpl. by rewrite Hid.
  - intros Hp. apply (list_elem_of_fmap_2 (id ∘ lconfig)). by apply list_elem_of_filter.
Qed.

(** X6, removal of once listeners.  After an undisturbed emission, the
    bucket of its type has lost exactly the listeners with the once flag
    whose callback returned; a once listener whose callback failed is
    still subscribed.  When nothing is left the bucket is deleted, and
    when no once listener returned the Map and the arrays are as they
    were.  No other bucket changes. *)
Theorem once_listeners_leave_when_they_return (tr : list label) (t : evtype) (d : payload)
    (src : string) :
  let s := run tr init in
  let ls := list_of s (bucket_ref s t) in
  let kept := filter (λ l, ¬ (once (lconfig l) = true ∧ returns (callback l) = true)) ls in
  let s' := publish t d src s in
  (consumed ls = [] → events s' = events s ∧ arrays s' = arrays s) ∧
  (∀ P, t = TStr P → consumed ls ≠ [] →
     bucket s' P = if decide (kept = []) then None else Some kept) ∧
  (∀ Q, t ≠ TStr Q → bucket s' Q = bucket s Q).
Proof.
  intros s ls kept s'.
  destruct (reachable regex_test tr) as (Hwf & _ & _ & Hd). fold s in Hwf, Hd.
  destruct (publish_end regex_test behaves t d src s) as (_ & _ & _ & Ha & Hev).
  fold ls s' in Ha, Hev.
  assert (Hkept : filter (λ l, ¬ includes (consumed ls) l) ls = kept).
  { apply filter_ext_in. intros l Hl.
    pose proof (includes_consumed ls l (distinct_list_of s _ Hd) Hl) as Hiff. tauto. }
  split; [|split].
  - intros Hc. rewrite Hc in Ha, Hev. done.
  - intros P -> Hc. unfold bucket. rewrite Hev. unfold array_at. rewrite Ha.
    unfold remove_listeners. destruct (consumed ls) as [|x xs] eqn:Hcs; [done|].
    fold ls. rewrite Hkept.
    destruct (decide (length kept = 0)) as [Hz|Hz]; simpl.
    + rewrite lookup_delete_eq. simpl. rewrite decide_True; [done|]. by destruct kept.
    + rewrite lookup_insert_eq. simpl. rewrite lookup_app_r by lia. rewrite Nat.sub_diag. simpl.
      rewrite decide_False; [done|]. by intros ->.
  - intros Q HQ. unfold bucket. rewrite Hev.
    assert (Hsame : events (remove_listeners t (bucket_ref s t) (consumed ls) s) !! Q = events s !! Q).
    { unfold remove_listeners. destruct (consumed ls); [done|]. destruct t as [P|]; [|done].
      assert (P ≠ Q) by congruence.
      destruct (decide _); simpl; [by rewrite lookup_delete_ne|by rewrite lookup_insert_ne]. }
    rewrite Hsame. destruct (events s !! Q) as [r|] eqn:Hr; [|done]. simpl. f_equal.
    unfold array_at. rewrite Ha.
    pose proof (wf_events _ Hwf Q r Hr) as Hlt.
    unfold remove_listeners. destruct (consumed ls); [done|]. destruct t; [|done].
    destruct (decide _); simpl; [done|]. by rewrite lookup_app_l.
Qed.

(** What [on] does on an exact pattern. *)
Lemma on_exact P f o s :
  includes_star P = false →
  (∀ n r, events s !! n = Some r → r < length (arrays s)) →
  let l := Listener f (Config (o_once o) (o_priority o) (o_module o) (nextListener s)) in
  let r := default (length (arrays s)) (events s !! P) in
  ∃ s1, on (TStr P) (Some f) o s = Some s1 ∧
    events s1 !! P = Some r ∧
    (∀ Q, Q ≠ P → events s1 !! Q = events s !! Q) ∧
    array_at s1 r = place l (array_at s r) ∧
    (∀ r', r' ≠ r → array_at s1 r' = array_at s r') ∧
    length (arrays s) ≤ length (arrays s1) ∧ r < length (arrays s1) ∧
    wsets s1 = wsets s ∧ wildcardListeners s1 = wildcardListeners s ∧
    emissions s1 = emissions s ∧ calls s1 = calls s ∧
    nextListener s1 = S (nextListener s).
Proof.
  intros Hstar Hev l r. unfold on. rewrite Hstar. simpl. subst r.
  destruct (events s !! P) as [r|] eqn:Hr; simpl.
  - pose proof (Hev P r Hr) as Hlt. eexists. split; [done|]. simpl.
    unfold array_at. simpl. rewrite length_insert.
    split; [done|]. split; [done|]. split; [by rewrite list_lookup_insert_eq|].
    split; [intros r' Hne; by rewrite list_lookup_insert_ne|]. done.
  - eexists. split; [done|]. simpl. unfold array_at. simpl.
    rewrite length_insert, length_app. simpl.
    split; [by rewrite lookup_insert_eq|]. split; [intros Q HQ; by rewrite lookup_insert_ne|].
    split.
    { rewrite list_lookup_insert_eq by (rewrite length_app; simpl; lia). simpl.
      rewrite lookup_app_r by lia. rewrite Nat.sub_diag. simpl.
      by rewrite (lookup_ge_None_2 (arrays s)) by lia. }
    split.
    { intros r' Hne. rewrite list_lookup_insert_ne by done.
      destruct (decide (r' < length (arrays s))) as [Hlt|Hge]; [by rewrite lookup_app_l|].
      rewrite (lookup_ge_None_2 (arrays s)) by lia.
      rewrite lookup_app_r by lia.
      destruct (r' - length (arrays s)) as [|n] eqn:Hn; [lia|]. done. }
    split; [lia|]. split; [lia|]. done.
Qed.

(** X7, [on] and [off].  [on] throws exactly when the type is not a string
    or the callback is not a function.  In every state the bus reaches, on
    an exact pattern [P] that holds no subscription of [f], [on(P, f)]
    places one new listener in the bucket of [P], and [off(P, f)] after it
    leaves the bucket of [P] with the listeners it had before, and every
    other bucket as it was. *)
Theorem on_then_off_restores_the_bucket (tr : list label) (P : string) (f : nat) (o : options) :
  let s := run tr init in
  includes_star P = false →
  (∀ l, l ∈ default [] (bucket s P) → callback l ≠ f) →
  (∀ t cb, on t cb o s = None ↔ (∀ name, t ≠ TStr name) ∨ cb = None) ∧
  ∃ s1, on (TStr P) (Some f) o s = Some s1 ∧
        (∃ l, callback l = f ∧ id (lconfig l) = nextListener s ∧
              bucket s1 P = Some (place l (default [] (bucket s P)))) ∧
        bucket (off P f s1) P = bucket s P ∧
        ∀ Q, Q ≠ P → bucket (off P f s1) Q = bucket s Q.
Proof.
  intros s Hstar Hf.
  destruct (reachable regex_test tr) as (Hwf & Ht & Ho & _). fold s in Hwf, Ht, Ho.
  split.
  { intros t cb. unfold on. destruct t as [name|r], cb as [g|].
    - split.
      + intros H. exfalso. destruct (includes_star name); [done|]. simpl in H.
        by destruct (events s !! name).
      + intros [H|H]; [by destruct (H name)|done].
    - split; [by right|done].
    - split; [intros _; left; by intros name|done].
    - split; [by right|done]. }
  set (l := Listener f (Config (o_once o) (o_priority o) (o_module o) (nextListener s))).
  assert (Hfilter : ∀ A, (∀ x, x ∈ A → callback x ≠ f) → filter (λ x, callback x ≠ f) (place l A) = A).
  { intros A HA. induction A as [|a A IH].
    - unfold place. simpl. rewrite filter_cons_False by (by intros H; apply H). done.
    - rewrite place_cons. destruct (_ <? _)%Z.
      + rewrite filter_cons_False by (by intros H; apply H).
        by apply filter_all.
      + rewrite filter_cons_True by (apply HA; by left). f_equal. apply IH.
        intros x Hx. apply HA. by right. }
  destruct (on_exact P f o s Hstar (wf_events _ Hwf))
    as (s1 & Hon & HP & HQ & Hr & Hr' & Hlen & Hlt & _).
  fold l in Hr. set (r := default (length (arrays s)) (events s !! P)) in *.
  assert (Hold : default [] (bucket s P) = array_at s r).
  { unfold bucket. subst r. destruct (events s !! P) as [r0|] eqn:E; simpl; [done|].
    unfold array_at. by rewrite lookup_ge_None_2. }
  rewrite Hold in Hf.
  exists s1. split; [done|]. split.
  { exists l. split; [done|]. split; [done|]. rewrite Hold. unfold bucket. rewrite HP. simpl.
    by rewrite Hr. }
  assert (Hafter : ∀ r0, r0 < length (arrays s1) →
            default [] ((arrays s1 ++ [array_at s r]) !! r0) = array_at s1 r0).
  { intros r0 H0. unfold array_at. by rewrite lookup_app_l. }
  unfold off. rewrite Hstar, HP, Hr, (Hfilter _ Hf).
  assert (Hother : ∀ Q r0, Q ≠ P → events s !! Q = Some r0 → r0 ≠ r ∧ r0 < length (arrays s)).
  { intros Q r0 HQP HQ0. pose proof (wf_events _ Hwf Q r0 HQ0) as H0. split; [|done].
    subst r. destruct (events s !! P) as [rp|] eqn:E; simpl; [|lia].
    intros ->. apply HQP. by eapply Ho. }
  destruct (decide (length (array_at s r) = 0)) as [Hz|Hz].
  - assert (Hnone : events s !! P = None).
    { destruct (events s !! P) as [rp|] eqn:E; [|done].
      destruct (Ht P rp E). subst r. simpl in Hz. by destruct (array_at s rp). }
    unfold bucket. simpl. rewrite lookup_delete_eq, Hnone. split; [done|].
    intros Q HQP. rewrite lookup_delete_ne, HQ by done.
    destruct (events s !! Q) as [r0|] eqn:E; [|done]. simpl. f_equal.
    destruct (Hother Q r0 HQP E) as [Hne _]. by apply Hr'.
  - unfold bucket. simpl. rewrite lookup_insert_eq. simpl. unfold array_at at 1. simpl.
    rewrite lookup_app_r by lia. rewrite Nat.sub_diag. simpl.
    split.
    { destruct (events s !! P) as [rp|] eqn:E; simpl; [done|].
      subst r. simpl in Hz. unfold array_at in Hz. rewrite lookup_ge_None_2 in Hz by lia. done. }
    intros Q HQP. rewrite lookup_insert_ne, HQ by done.
    destruct (events s !! Q) as [r0|] eqn:E; [|done]. simpl. f_equal.
    destruct (Hother Q r0 HQP E) as [Hne H0].
    unfold array_at at 1. simpl. rewrite lookup_app_l by lia. by apply Hr'.
Qed.

End Once.

Lemma findIndex_Some {A} (p : A → bool) (l : list A) i :
  findIndex p l = Some i →
  ∃ x, l !! i = Some x ∧ p x = true ∧ ∀ j y, j < i → l !! j = Some y → p y = false.
Proof.
  revert i. induction l as [|a l IH]; intros i H; [done|]. simpl in H.
  destruct (p a) eqn:Hp.
  - injection H as <-. exists a. split; [done|]. split; [done|]. intros j y Hj. lia.
  - destruct (findIndex p l) as [i'|] eqn:Hf; [|done]. injection H as <-.
    destruct (IH i' eq_refl) as (x & Hx & Hpx & Hbefore).
    exists x. split; [done|]. split; [done|]. intros [|j] y Hj Hy.
    + by injection Hy as <-.
    + eapply (Hbefore j); [lia|done].
Qed.

Lemma findIndex_None {A} (p : A → bool) (l : list A) :
  findIndex p l = None → ∀ x, x ∈ l → p x = false.
Proof.
  induction l as [|a l IH]; intros H x Hx; [by apply elem_of_nil in Hx|]. simpl in H.
  destruct (p a) eqn:Hp; [done|]. destruct (findIndex p l); [done|].
  apply elem_of_cons in Hx as [->|Hx]; [done|]. by apply IH.
Qed.

Lemma findIndex_first {A} (p : A → bool) (l : list A) idx x :
  l !! idx = Some x → p x = true → ∃ i, findIndex p l = Some i ∧ i ≤ idx.
Proof.
  intros Hx Hp. destruct (findIndex p l) as [i|] eqn:Hf.
  - exists i. split; [done|]. destruct (findIndex_Some p l i Hf) as (y & Hy & Hpy & Hb).
    destruct (decide (i ≤ idx)) as [|Hgt]; [done|].
    rewrite (Hb idx x) in Hp by (done || lia). done.
  - rewrite (findIndex_None p l Hf x) in Hp; [done|]. by eapply list_elem_of_lookup_2.
Qed.

Lemma drop_lookup {A} (l : list A) n x : l !! n = Some x → drop n l = x :: drop (S n) l.
Proof.
  revert n. induction l as [|a l IH]; intros [|n] H; try done.
  - by injection H as <-.
  - simpl. by apply IH.
Qed.

Section Iterator.

Variable regex_test : string → string → option bool.
Variable behaves : nat → outcome.

Local Abbreviation run := (run regex_test).
Local Abbreviation complete := (complete regex_test behaves).
Local Abbreviation remaining := (remaining regex_test).
Local Abbreviation wild_plan := (wild_plan regex_test).

(** X8, [on] while an emission is in its first loop.  The listener is
    placed into the array that the emission iterates.  When its priority is
    higher than that of the listener the emission is waiting for, it comes
    to lie before the iterator: the emission does not invoke it, and
    invokes the listener it was waiting for a second time.  Otherwise it
    comes to lie behind the iterator and the emission invokes it, among
    the listeners it had left. *)
Theorem subscribing_shifts_the_iterator (tr : list label) (k : nat) (P : string) (g : nat)
    (o : options) (e : emission) (r idx : nat) (cur : listener) (rm : list listener) :
  let s := run tr init in
  includes_star P = false →
  emissions s !! k = Some e → e_state e = AwaitExact (Some r) idx cur rm →
  events s !! P = Some r → array_at s r !! idx = Some cur →
  ∃ s', on (TStr P) (Some g) o s = Some s' ∧
    ((priority (lconfig cur) < o_priority o)%Z →
       delivered k (complete k s') = delivered k s ++ id (lconfig cur) :: remaining s k ∧
       nextListener s ∉ id (lconfig cur) :: remaining s k) ∧
    ((o_priority o ≤ priority (lconfig cur))%Z →
       ∃ before after, remaining s k = before ++ after ∧
         delivered k (complete k s') = delivered k s ++ before ++ nextListener s :: after).
Proof.
  intros s Hstar He Hst HP Hcur.
  destruct (reachable regex_test tr) as (Hwf & _). fold s in Hwf.
  destruct (on_exact P g o s Hstar (wf_events _ Hwf))
    as (s' & Hon & _ & _ & Hr & _ & _ & _ & Hw & Hc & Hem & Hcalls & _).
  rewrite HP in Hr. simpl in Hr.
  set (l := Listener g (Config (o_once o) (o_priority o) (o_module o) (nextListener s))) in *.
  set (A := array_at s r) in *.
  exists s'. split; [done|].
  destruct (complete_spec regex_test behaves k s') as [Hd _].
  assert (Hds : delivered k s' = delivered k s) by (unfold delivered; by rewrite Hcalls).
  set (W := id ∘ wconfig <$> (wild_plan (e_type e) (wset_at s (wildcardListeners s))).1).
  assert (Hrem : remaining s k = (id ∘ lconfig <$> drop (S idx) A) ++ W).
  { unfold EventBus.remaining. rewrite He, Hst. done. }
  assert (Hrem' : remaining s' k = (id ∘ lconfig <$> drop (S idx) (place l A)) ++ W).
  { unfold EventBus.remaining. rewrite Hem, He, Hst. simpl. rewrite Hr.
    unfold wset_at. by rewrite Hw, Hc. }
  rewrite Hd, Hds, Hrem'. clear Hd.
  assert (Hlen : idx < length A) by (by eapply lookup_lt_Some).
  destruct (array_at_wf s r Hwf) as [Hord Hids]. fold A in Hord, Hids.
  split.
  - intros Hprio. split.
    + destruct (findIndex_first (λ x, (priority (lconfig x) <? priority (lconfig l))%Z) A idx cur Hcur)
        as (i & Hi & Hle); [simpl; by apply Z.ltb_lt|].
      unfold place. rewrite Hi. unfold splice_in.
      rewrite drop_app_ge by (rewrite length_take; lia).
      rewrite length_take, Nat.min_l by lia.
      replace (S idx - i) with (S (idx - i)) by lia. simpl.
      rewrite drop_drop. replace (i + (idx - i)) with idx by lia.
      rewrite (drop_lookup A idx cur Hcur), Hrem. done.
    + rewrite Hrem. intros Hin. apply elem_of_cons in Hin as [Hin|Hin].
      { assert (id (lconfig cur) < nextListener s) by (apply Hids; by eapply list_elem_of_lookup_2).
        lia. }
      apply elem_of_app in Hin as [Hin|Hin].
      * apply list_elem_of_fmap in Hin as (x & Hx & Hin). simpl in Hx.
        assert (id (lconfig x) < nextListener s).
        { apply Hids. eapply elem_of_sublist; [done|]. apply sublist_drop. }
        lia.
      * apply list_elem_of_fmap in Hin as (w & Hx & Hin). simpl in Hx.
        destruct (wset_at_wf s (wildcardListeners s) Hwf) as [_ Hwids].
        assert (id (wconfig w) < nextListener s).
        { apply Hwids. destruct (wild_plan_until regex_test (e_type e) (wset_at s (wildcardListeners s)))
            as [Hp _]. rewrite Hp in Hin. apply list_elem_of_filter in Hin as [_ Hin].
          eapply elem_of_sublist; [done|]. apply until_throw_sublist. }
        lia.
  - intros Hprio.
    assert (Hhead : ∀ j y, j ≤ idx → A !! j = Some y →
              (priority (lconfig y) <? priority (lconfig l))%Z = false).
    { intros j y Hj Hy. apply Z.ltb_ge. simpl.
      destruct (decide (j = idx)) as [->|Hne].
      { rewrite Hcur in Hy. by injection Hy as <-. }
      assert (Hb : before (lconfig y) (lconfig cur)).
      { rewrite <- (take_drop idx A) in Hord.
        eapply (StronglySorted_app_1_elem_of _ _ _ _ _ Hord).
        - apply list_elem_of_lookup. exists j. rewrite lookup_take_lt by lia. done.
        - apply list_elem_of_lookup. exists 0. rewrite lookup_drop, Nat.add_0_r. done. }
      destruct Hb as [Hb|[Hb _]]; lia. }
    unfold place.
    destruct (findIndex _ A) as [i|] eqn:Hi.
    + destruct (findIndex_Some _ A i Hi) as (y & Hy & Hpy & _).
      assert (Hgt : idx < i).
      { destruct (decide (idx < i)) as [|Hle]; [done|].
        rewrite (Hhead i y) in Hpy by (done || lia). done. }
      assert (Hi_len : i < length A) by (by eapply lookup_lt_Some).
      unfold splice_in. rewrite drop_app_le by (rewrite length_take; lia).
      exists (id ∘ lconfig <$> drop (S idx) (take i A)),
             ((id ∘ lconfig <$> drop i A) ++ W).
      split.
      * rewrite Hrem. rewrite <- (take_drop i A) at 1.
        rewrite drop_app_le by (rewrite length_take; lia).
        by rewrite fmap_app, <- app_assoc.
      * rewrite fmap_app, fmap_cons, <- !app_assoc. done.
    + exists (id ∘ lconfig <$> drop (S idx) A), W. split; [done|].
      rewrite drop_app_le by lia. rewrite fmap_app, <- !app_assoc. done.
Qed.

End Iterator.

(** The emission of [in_flight] waits for its only listener; a listener
    of priority 10 is subscribed, and the emission invokes the first
    listener again. *)
Lemma subscribing_shifts_the_iterator_witness :
  includes_star "P" = false ∧
  ∃ s', on (TStr "P") (Some 2) (Options false 10%Z "unknown") in_flight = Some s' ∧
        delivered 0 (EventBus.complete idle_engine first_throws 0 s') = [0; 0].
Proof.
  split; [reflexivity|].
  destruct (subscribing_shifts_the_iterator idle_engine first_throws
              [LOn (TStr "P") (Some 1) default_options; LEmit (TStr "P") PNull "unknown"]
              0 "P" 2 (Options false 10%Z "unknown")
              (Emission (TStr "P") 0 [] [] (AwaitExact (Some 0) 0 (Listener 1 (Config false 0%Z "unknown" 0)) []))
              0 0 (Listener 1 (Config false 0%Z "unknown" 0)) [])
    as (s' & Hon & H1 & _); [reflexivity|vm_compute; reflexivity|reflexivity|
                             vm_compute; reflexivity|vm_compute; reflexivity|].
  exists s'. split; [exact Hon|].
  destruct H1 as [H1 _]; [reflexivity|]. rewrite H1. vm_compute. reflexivity.
Defined.

Section Removal.

Variable regex_test : string → string → option bool.
Variable behaves : nat → outcome.

Local Abbreviation run := (run regex_test).
Local Abbreviation complete := (complete regex_test behaves).
Local Abbreviation publish := (publish regex_test behaves).
Local Abbreviation remaining := (remaining regex_test).
Local Abbreviation wild_plan := (wild_plan regex_test).

(** What an emission in flight goes on to invoke, when the arrays it may
    hold are as they were and the wildcard Set has changed. *)
Lemma remaining_after s s' k e :
  wf s → emissions s !! k = Some e →
  emissions s' = emissions s → calls s' = calls s →
  (∀ r, r < length (arrays s) → array_at s' r = array_at s r) →
  (∀ e0 ws idx cur, e_state e = AwaitWild ws idx cur → e0 = e → wset_at s' ws = wset_at s ws) →
  match e_state e with
  | AwaitExact arr idx _ _ =>
      delivered k (complete k s') =
        delivered k s ++ (id ∘ lconfig <$> drop (S idx) (list_of s arr)) ++
        (id ∘ wconfig <$> (wild_plan (e_type e) (wset_at s' (wildcardListeners s'))).1)
  | _ => delivered k (complete k s') = delivered k (complete k s)
  end.
Proof.
  intros Hwf He Hem Hcalls Harr Hws.
  destruct (complete_spec regex_test behaves k s') as [Hd' _].
  destruct (complete_spec regex_test behaves k s) as [Hd _].
  assert (Hds : delivered k s' = delivered k s) by (unfold delivered; by rewrite Hcalls).
  assert (Hok : refs_ok s e).
  { pose proof (wf_emissions _ Hwf) as Hr. rewrite Forall_forall in Hr. apply Hr.
    by eapply list_elem_of_lookup_2. }
  unfold refs_ok in Hok. rewrite Hd', Hds. clear Hd'.
  unfold EventBus.remaining in *. rewrite Hem, He in *.
  destruct (e_state e) as [[r|] idx cur rm|ws idx cur| |] eqn:Hst; simpl in *.
  - rewrite Harr by done. done.
  - done.
  - rewrite Hd. by rewrite (Hws e ws idx cur).
  - by rewrite Hd.
  - by rewrite Hd.
Qed.

(** X9, [off] on a wildcard pattern.  The wildcard Set is replaced by a Set
    without the entries that have this pattern and this callback; the
    other entries keep their order, and the buckets are as they were.  An
    emission that is in its wildcard loop goes on with the Set it started
    on and invokes what it would have invoked; an emission that is still
    in its first loop reads the new Set when it comes to the wildcard
    loop. *)
Theorem off_on_a_wildcard_pattern (tr : list label) (W : string) (f k : nat) :
  let s := run tr init in
  includes_star W = true →
  let s' := off W f s in
  let kept := filter (λ w, ¬ (pattern w = W ∧ wcallback w = f)) (wset_at s (wildcardListeners s)) in
  wset_at s' (wildcardListeners s') = kept ∧
  events s' = events s ∧ arrays s' = arrays s ∧
  (∀ e ws idx cur, emissions s !! k = Some e → e_state e = AwaitWild ws idx cur →
     delivered k (complete k s') = delivered k (complete k s)) ∧
  (∀ e arr idx cur rm, emissions s !! k = Some e → e_state e = AwaitExact arr idx cur rm →
     delivered k (complete k s') =
       delivered k s ++ (id ∘ lconfig <$> drop (S idx) (list_of s arr)) ++
       (id ∘ wconfig <$> (wild_plan (e_type e) kept).1)).
Proof.
  intros s Hstar s' kept.
  destruct (reachable regex_test tr) as (Hwf & _). fold s in Hwf.
  assert (Hs' : s' = set_wildcardListeners (length (wsets s)) (set_wsets (λ h, h ++ [kept]) s)).
  { subst s'. unfold off. by rewrite Hstar. }
  assert (Hkept : wset_at s' (wildcardListeners s') = kept).
  { rewrite Hs'. unfold wset_at. simpl. rewrite lookup_app_r by lia. by rewrite Nat.sub_diag. }
  assert (Hrem : ∀ e, emissions s !! k = Some e →
    match e_state e with
    | AwaitExact arr idx _ _ =>
        delivered k (complete k s') =
          delivered k s ++ (id ∘ lconfig <$> drop (S idx) (list_of s arr)) ++
          (id ∘ wconfig <$> (wild_plan (e_type e) (wset_at s' (wildcardListeners s'))).1)
    | _ => delivered k (complete k s') = delivered k (complete k s)
    end).
  { intros e He. apply remaining_after; try done; try (by rewrite Hs').
    intros e0 ws idx cur Hst ->.
    assert (Hok : refs_ok s e).
    { pose proof (wf_emissions _ Hwf) as Hr. rewrite Forall_forall in Hr. apply Hr.
      by eapply list_elem_of_lookup_2. }
    unfold refs_ok in Hok. rewrite Hst in Hok.
    rewrite Hs'. unfold wset_at. simpl. by rewrite lookup_app_l. }
  split; [done|]. split; [by rewrite Hs'|]. split; [by rewrite Hs'|]. split.
  - intros e ws idx cur He Hst. specialize (Hrem e He). by rewrite Hst in Hrem.
  - intros e arr idx cur rm He Hst. specialize (Hrem e He). rewrite Hst, Hkept in Hrem. done.
Qed.

(** X10, [removeAllListeners(name)] for a name that is not empty.  The
    bucket of the name is gone and the other buckets are as they were; the
    wildcard Set is replaced by a Set without the entries whose pattern is
    this name, whatever their callback.  The next emission of the name
    invokes the matching wildcard entries only.  An emission in flight goes
    on with the array it holds: the listeners it has left in the first loop
    are still invoked. *)
Theorem removeAllListeners_of_a_name (tr : list label) (name : string) (k : nat)
    (d : payload) (src : string) :
  let s := run tr init in
  name ≠ "" →
  let s' := removeAllListeners (Some name) s in
  let kept := filter (λ w, pattern w ≠ name) (wset_at s (wildcardListeners s)) in
  bucket s' name = None ∧
  (∀ Q, Q ≠ name → bucket s' Q = bucket s Q) ∧
  wset_at s' (wildcardListeners s') = kept ∧
  delivered (length (emissions s')) (publish (TStr name) d src s') =
    (id ∘ wconfig <$> (wild_plan (TStr name) kept).1) ∧
  (∀ e ws idx cur, emissions s !! k = Some e → e_state e = AwaitWild ws idx cur →
     delivered k (complete k s') = delivered k (complete k s)) ∧
  (∀ e arr idx cur rm, emissions s !! k = Some e → e_state e = AwaitExact arr idx cur rm →
     delivered k (complete k s') =
       delivered k s ++ (id ∘ lconfig <$> drop (S idx) (list_of s arr)) ++
       (id ∘ wconfig <$> (wild_plan (e_type e) kept).1)).
Proof.
  intros s Hname s' kept.
  destruct (reachable regex_test tr) as (Hwf & _). fold s in Hwf.
  assert (Hs' : s' = set_wildcardListeners (length (wsets s))
                       (set_wsets (λ h, h ++ [kept]) (set_events (λ m, delete name m) s))).
  { subst s'. unfold removeAllListeners. by rewrite decide_False. }
  assert (Hkept : wset_at s' (wildcardListeners s') = kept).
  { rewrite Hs'. unfold wset_at. simpl. rewrite lookup_app_r by lia. by rewrite Nat.sub_diag. }
  assert (Hrem : ∀ e, emissions s !! k = Some e →
    match e_state e with
    | AwaitExact arr idx _ _ =>
        delivered k (complete k s') =
          delivered k s ++ (id ∘ lconfig <$> drop (S idx) (list_of s arr)) ++
          (id ∘ wconfig <$> (wild_plan (e_type e) (wset_at s' (wildcardListeners s'))).1)
    | _ => delivered k (complete k s') = delivered k (complete k s)
    end).
  { intros e He. apply remaining_after; try done; try (by rewrite Hs').
    intros e0 ws idx cur Hst ->.
    assert (Hok : refs_ok s e).
    { pose proof (wf_emissions _ Hwf) as Hr. rewrite Forall_forall in Hr. apply Hr.
      by eapply list_elem_of_lookup_2. }
    unfold refs_ok in Hok. rewrite Hst in Hok.
    rewrite Hs'. unfold wset_at. simpl. by rewrite lookup_app_l. }
  split; [|split; [|split; [done|split; [|split]]]].
  - rewrite Hs'. unfold bucket. simpl. by rewrite lookup_delete_eq.
  - intros Q HQ. rewrite Hs'. unfold bucket. simpl. by rewrite lookup_delete_ne.
  - destruct (publish_spec regex_test behaves (TStr name) d src s') as [Hd _].
    rewrite Hd, Hkept.
    assert (Hfresh : delivered (length (emissions s')) s' = []).
    { pose proof (delivered_fresh s Hwf) as H. rewrite Hs'. done. }
    assert (Hb : bucket_ref s' (TStr name) = None).
    { rewrite Hs'. simpl. by rewrite lookup_delete_eq. }
    rewrite Hfresh, Hb. done.
  - intros e ws idx cur He Hst. specialize (Hrem e He). by rewrite Hst in Hrem.
  - intros e arr idx cur rm He Hst. specialize (Hrem e He). rewrite Hst, Hkept in Hrem. done.
Qed.


End Removal.

(** On [bad_pattern] the emission of ['x'] is rejected. *)
Lemma uncompilable_pattern_rejects_emit_witness :
  (EventBus.wild_plan open_group (TStr "x")
     (wset_at bad_pattern (wildcardListeners bad_pattern))).2 = true ∧
  (∃ e, emissions (EventBus.publish open_group first_throws (TStr "x") PNull "unknown" bad_pattern)
          !! length (emissions bad_pattern) = Some e ∧ e_state e = Rejected).
Proof.
  assert (H : (EventBus.wild_plan open_group (TStr "x")
                 (wset_at bad_pattern (wildcardListeners bad_pattern))).2 = true)
    by (vm_compute; reflexivity).
  split; [exact H|].
  pose proof (uncompilable_pattern_rejects_emit open_group first_throws bad_pattern
                (TStr "x") PNull "unknown" H) as H0.
  cbv zeta in H0. destruct H0 as [He _]. exact He.
Defined.

(** The report that [rejected_once] has scheduled: its emission meets the
    same pattern and is rejected too, and no timer is left. *)
Lemma deferred_report_is_not_repeated_witness :
  timers rejected_once = [(TStr "x", 0)] ∧
  timers (EventBus.complete open_group first_throws (length (emissions rejected_once))
            (fire_timer open_group rejected_once)) = [].
Proof.
  assert (H : timers rejected_once = [(TStr "x", 0)]) by (vm_compute; reflexivity).
  split; [exact H|].
  pose proof (deferred_report_is_not_repeated open_group first_throws rejected_once
                (TStr "x") 0 [] H) as H0.
  cbv zeta in H0. destruct H0 as [Ht _]. exact Ht.
Defined.

Lemma on_then_off_restores_the_bucket_witness :
  includes_star "x" = false ∧
  ∃ s1, on (TStr "x") (Some 2) default_options (EventBus.run idle_engine one_listener init) = Some s1 ∧
        bucket (off "x" 2 s1) "x" = bucket (EventBus.run idle_engine one_listener init) "x".
Proof.
  assert (H : includes_star "x" = false) by reflexivity.
  split; [exact H|].
  assert (Hb : bucket (EventBus.run idle_engine one_listener init) "x" =
               Some [Listener 1 (Config false 0%Z "unknown" 0)]) by (vm_compute; reflexivity).
  pose proof (on_then_off_restores_the_bucket idle_engine one_listener "x" 2 default_options) as H0.
  cbv zeta in H0. destruct (H0 H) as (_ & s1 & Hon & _ & Hoff & _).
  - intros l Hl. rewrite Hb in Hl. simpl in Hl. apply list_elem_of_singleton in Hl. by subst l.
  - exists s1. split; [exact Hon|exact Hoff].
Defined.

Lemma off_on_a_wildcard_pattern_witness :
  includes_star "a*" = true ∧
  pattern <$> wset_at (off "a*" 1 (EventBus.run idle_engine two_patterns init))
    (wildcardListeners (off "a*" 1 (EventBus.run idle_engine two_patterns init))) = ["b*"].
Proof.
  assert (H : includes_star "a*" = true) by reflexivity.
  split; [exact H|].
  pose proof (off_on_a_wildcard_pattern idle_engine first_throws two_patterns "a*" 1 0) as H0.
  cbv zeta in H0. destruct (H0 H) as (Hw & _). rewrite Hw. vm_compute. reflexivity.
Defined.

Lemma removeAllListeners_of_a_name_witness :
  "x" ≠ "" ∧
  bucket (removeAllListeners (Some "x") (EventBus.run idle_engine one_listener init)) "x" = None.
Proof.
  assert (H : "x" ≠ "") by discriminate.
  split; [exact H|].
  pose proof (removeAllListeners_of_a_name idle_engine first_throws one_listener "x" 0
                PNull "unknown") as H0.
  cbv zeta in H0. destruct (H0 H) as (Hb & _). exact Hb.
Defined.

(** [on] leaves history, event counter and timers alone. *)
Lemma on_history t cb o s s1 :
  on t cb o s = Some s1 →
  eventHistory s1 = eventHistory s ∧ nextEvent s1 = nextEvent s ∧ timers s1 = timers s.
Proof.
  unfold on. destruct t as [name|?], cb as [f|]; try done.
  destruct (includes_star name); [intros; by simplify_eq|].
  simpl. destruct (events s !! name); intros; by simplify_eq.
Qed.

Section Destroyed.

Variable regex_test : string → string → option bool.
Variable behaves : nat → outcome.

Local Abbreviation emit := (emit regex_test).
Local Abbreviation run := (run regex_test).
Local Abbreviation publish := (publish regex_test behaves).


End Destroyed.


End EventBusMore.

(** * More properties of loader and core *)

Module KernelMore.
Import Kernel.
Import KernelFacts.

(** The two validators make the same checks. *)
Lemma validators_agree c : _validateModuleInterface c = validateModuleInterface c.
Proof.
  unfold _validateModuleInterface, validateModuleInterface.
  destruct (has_name c), (has_version c), (init_slot c), (getAPI_slot c); reflexivity.
Qed.

Lemma next_dependency_loaded s deps :
  (∀ d, d ∈ deps → d = "core" ∨ is_Some (loadedModules s !! d)) →
  next_dependency s deps = None.
Proof.
  induction deps as [|d deps IH]; intros H; [done|]. simpl.
  rewrite decide_False.
  - apply IH. intros x Hx. apply H. by right.
  - intros [H1 H2]. destruct (H d) as [?|[m Hm]]; [by left|done|congruence].
Qed.

Ltac crunch :=
  cbv beta iota zeta delta
    [step run_kont loadModule loadModule_at loadModule_body _doLoadModule _loadModuleFile
     instantiate _loadDependencies dependencies_loop registerModule registered
     new_promise settle await record file_outcome init_outcome
     set_promises set_microtasks set_timers set_inits set_moduleCache
     set_loadedModules set_loadingPromises set_modules set_apis set_emitted
     set_nextInstance set_log
     promises microtasks timers inits moduleCache loadedModules loadingPromises attached
     modules apis emitted nextInstance log
     has_name has_version init_slot getAPI_slot dependencies init_behaviour getAPI_behaviour
     inst_id inst_class
     _validateModuleInterface validateModuleInterface is_callable is_present andb negb
     fst snd lookup insert delete list_lookup list_insert list_delete app fmap list_fmap length].

Lemma log_three {A} (l : list A) a b c : ((l ++ [a]) ++ [b]) ++ [c] = l ++ [a; b; c].
Proof. by rewrite <- !app_assoc. Qed.

Lemma next_dependency_ext s s' deps :
  loadedModules s = loadedModules s' → next_dependency s deps = next_dependency s' deps.
Proof.
  intros H. induction deps as [|d deps IH]; [done|]. simpl. rewrite H, IH. done.
Qed.

Ltac crunchv :=
  cbv beta iota zeta delta
    [step run_kont loadModule loadModule_at loadModule_body _doLoadModule _loadModuleFile
     instantiate _loadDependencies dependencies_loop registerModule registered
     new_promise settle await record file_outcome init_outcome
     set_promises set_microtasks set_timers set_inits set_moduleCache
     set_loadedModules set_loadingPromises set_modules set_apis set_emitted
     set_nextInstance set_log
     promises microtasks timers inits moduleCache loadedModules loadingPromises attached
     modules apis emitted nextInstance log
     inst_id inst_class
     fst snd lookup insert delete list_lookup list_insert list_delete app fmap list_fmap length].

Section Idle.
Variable files : string → option moduleClass.
Variable stack : nat.

Lemma run_cons a tr s : run files stack (a :: tr) s = run files stack tr (step files stack s a).
Proof. done. Qed.

Lemma run_nil s : run files stack [] s = s.
Proof. done. Qed.

(** X14, the loader does not look at the result of the registration.  On a
    loader with a core, a module whose file yields a class with a valid
    interface and whose dependencies are loaded is loaded by one call of
    [loadModule]: the promise of the call is fulfilled with the new
    instance and the module is marked loaded, and this whether or not the
    core has accepted the module.  The module is in the registry of the
    core exactly when its [init] has resolved; it has an API there when
    also [getAPI] returned an object; the event of the registration is
    emitted when [init] has resolved and [getAPI] has returned. *)
Theorem load_ignores_the_result_of_registration (X : string) (c : moduleClass) (s : kernel) :
  untouched s → attached s = true →
  files X = Some c → _validateModuleInterface c = true →
  (∀ d, d ∈ default [] (dependencies c) → d = "core" ∨ is_Some (loadedModules s !! d)) →
  moduleCache s !! X = None → loadedModules s !! X = None →
  loadingPromises s !! X = None → modules s !! X = None →
  let s' := run files stack (solo X) s in
  let m := Instance (nextInstance s) c in
  promises s' !! (loadModule stack X s).1 = Some (Settled (Ok (VInstance m))) ∧
  loadedModules s' = <[X := m]> (loadedModules s) ∧
  isModuleLoaded X s' = true ∧
  loadingPromises s' = loadingPromises s ∧
  moduleCache s' = <[X := c]> (moduleCache s) ∧
  quiescent s' ∧
  log s' = log s ++ [Instantiated X m; InitCalled X m; Activated X m] ∧
  modules s' = (match init_behaviour c with
                | InitResolves => <[X := m]> (modules s) | _ => modules s end) ∧
  hasModule X s' = (match init_behaviour c with InitResolves => true | _ => false end) ∧
  apis s' = (match init_behaviour c, getAPI_behaviour c with
             | InitResolves, ApiObject a => <[X := a]> (apis s) | _, _ => apis s end) ∧
  emitted s' = (if registers c then emitted s ++ [X] else emitted s).
Proof.
  intros (Hp & Hq & Ht & Hi) Ha Hf Hv Hdeps Hc Hl Hg Hm s' m.
  destruct s as [ps q ts ins cache loaded loading att mods aps em n lg].
  simpl in Hp, Hq, Ht, Hi, Ha, Hdeps, Hc, Hl, Hg, Hm. subst ps q ts ins att. subst s' m.
  destruct c as [hn hv i_s g_s deps ib ab].
  destruct hn, hv, i_s, g_s; try discriminate Hv. clear Hv.
  simpl in Hdeps.
  assert (Hmods := Hm).
  cbv [lookup] in Hc, Hl, Hg, Hm.
  assert (Hnext : ∀ ps q ts ins cache loading mods aps em n lg,
            next_dependency (Kernel.Kernel ps q ts ins cache loaded loading true mods aps em n lg)
              (default [] deps) = None).
  { intros. apply next_dependency_loaded. exact Hdeps. }
  assert (H0 : (loadModule stack X (Kernel.Kernel [] [] [] [] cache loaded loading true mods aps em n lg)).1 = 0).
  { crunch. rewrite Hl, Hg. crunch. rewrite Hc. crunch. reflexivity. }
  rewrite H0. clear H0.
  destruct deps as [ds|]; simpl in Hnext;
  destruct ib, ab;
  (eassert (E : run files stack (solo X) (Kernel.Kernel [] [] [] [] cache loaded loading true mods aps em n lg) = _);
   [ unfold solo;
     rewrite run_cons; crunch; rewrite Hl, Hg; crunch; rewrite Hc; crunch;
     rewrite run_cons; crunch; rewrite Hf; crunch;
     rewrite run_cons; crunch; rewrite ?Hnext; crunch;
     rewrite run_cons; crunch; rewrite Hm; crunch;
     rewrite run_cons; crunch;
     rewrite run_cons; crunch;
     rewrite run_cons; crunch;
     rewrite run_cons; crunch;
     rewrite run_nil; reflexivity
   | rewrite E; clear E ]).
  all: unfold quiescent, isModuleLoaded, hasModule, registers; simpl.
  all: split_and!; try reflexivity.
  all: try (apply bool_decide_eq_true; eexists; exact (lookup_insert_eq _ _ _)).
  all: try exact (delete_insert_id loading X _ Hg).
  all: try exact (log_three lg _ _ _).
  all: try (apply bool_decide_eq_false; rewrite Hmods; by intros [? ?]).
Qed.


(** X15, a load that fails at the file.  The promise of the call is rejected
    with the error of the file, and loader and core are as before the
    call: nothing is loaded, cached, registered or left in flight, no
    instance has been made, and the next call starts from the beginning. *)
Theorem failed_file_load_leaves_no_trace (X : string) (s : kernel) :
  untouched s → files X = None →
  moduleCache s !! X = None → loadedModules s !! X = None → loadingPromises s !! X = None →
  let s' := run files stack (solo_fails X) s in
  promises s' !! (loadModule stack X s).1 = Some (Settled (Err (FileLoadFailed X))) ∧
  loadedModules s' = loadedModules s ∧ loadingPromises s' = loadingPromises s ∧
  moduleCache s' = moduleCache s ∧ modules s' = modules s ∧ apis s' = apis s ∧
  emitted s' = emitted s ∧ log s' = log s ∧ nextInstance s' = nextInstance s ∧
  quiescent s' ∧
  (timers (step files stack s' (Load X))).*2 = [X].
Proof.
  intros (Hp & Hq & Ht & Hi) Hf Hc Hl Hg s'.
  destruct s as [ps q ts ins cache loaded loading att mods aps em n lg].
  simpl in Hp, Hq, Ht, Hi, Hc, Hl, Hg. subst ps q ts ins. subst s'.
  assert (Hg0 := Hg).
  cbv [lookup] in Hc, Hl, Hg.
  assert (H0 : (loadModule stack X (Kernel.Kernel [] [] [] [] cache loaded loading att mods aps em n lg)).1 = 0).
  { crunch. rewrite Hl, Hg. crunch. rewrite Hc. crunch. reflexivity. }
  rewrite H0. clear H0.
  eassert (E : run files stack (solo_fails X) (Kernel.Kernel [] [] [] [] cache loaded loading att mods aps em n lg) = _).
  { unfold solo_fails.
    rewrite run_cons; crunch; rewrite Hl, Hg; crunch; rewrite Hc; crunch.
    rewrite run_cons; crunch; rewrite Hf; crunch.
    rewrite run_cons; crunch.
    rewrite run_cons; crunch.
    rewrite run_nil; reflexivity. }
  rewrite E. clear E.
  assert (Hd : map_delete X (map_insert X 1 loading) = loading)
    by exact (delete_insert_id loading X _ Hg0).
  rewrite Hd. unfold quiescent. simpl.
  split_and!; try reflexivity.
  crunch. rewrite Hl, Hg. crunch. rewrite Hc. crunch. reflexivity.
Qed.

(** X16, a class with an invalid interface is cached.  A load whose file
    yields a class that does not pass [_validateModuleInterface] is
    rejected with the error of the interface; one instance has been made,
    its [init] has not been called, nothing is loaded or registered.  The
    class stays in the cache: the next call for the module starts no file
    load, makes one more instance and is rejected in the same way. *)
Theorem invalid_class_is_cached (X : string) (c : moduleClass) (s : kernel) :
  untouched s → files X = Some c → _validateModuleInterface c = false →
  moduleCache s !! X = None → loadedModules s !! X = None → loadingPromises s !! X = None →
  let s' := run files stack (solo_fails X) s in
  let s2 := run files stack [Load X; Tick] s' in
  (promises s' !! (loadModule stack X s).1 = Some (Settled (Err (InvalidInterface X))) ∧
   moduleCache s' = <[X := c]> (moduleCache s) ∧
   loadedModules s' = loadedModules s ∧ loadingPromises s' = loadingPromises s ∧
   modules s' = modules s ∧ apis s' = apis s ∧ emitted s' = emitted s ∧
   log s' = log s ++ [Instantiated X (Instance (nextInstance s) c)] ∧
   quiescent s') ∧
  (timers (step files stack s' (Load X)) = [] ∧
   promises s2 !! (loadModule stack X s').1 = Some (Settled (Err (InvalidInterface X))) ∧
   log s2 = log s' ++ [Instantiated X (Instance (S (nextInstance s)) c)] ∧
   loadedModules s2 = loadedModules s ∧ loadingPromises s2 = loadingPromises s ∧
   quiescent s2).
Proof.
  intros (Hp & Hq & Ht & Hi) Hf Hv Hc Hl Hg s' s2.
  destruct s as [ps q ts ins cache loaded loading att mods aps em n lg].
  simpl in Hp, Hq, Ht, Hi, Hc, Hl, Hg. subst ps q ts ins. subst s2 s'.
  assert (Hg0 := Hg).
  assert (Hc1 : <[X := c]> cache !! X = Some c) by apply lookup_insert_eq.
  cbv [lookup insert] in Hc, Hl, Hg, Hc1.
  assert (Hd : map_delete X (map_insert X 1 loading) = loading)
    by exact (delete_insert_id loading X _ Hg0).
  assert (Hd' : ∀ p, map_delete X (map_insert X p loading) = loading)
    by (intros p; exact (delete_insert_id loading X _ Hg0)).
  assert (H0 : (loadModule stack X (Kernel.Kernel [] [] [] [] cache loaded loading att mods aps em n lg)).1 = 0).
  { crunch. rewrite Hl, Hg. crunch. rewrite Hc. crunch. reflexivity. }
  rewrite H0. clear H0.
  eassert (E : run files stack (solo_fails X) (Kernel.Kernel [] [] [] [] cache loaded loading att mods aps em n lg) = _).
  { unfold solo_fails.
    rewrite run_cons; crunchv; rewrite Hl, Hg; crunchv; rewrite Hc; crunchv.
    rewrite run_cons; crunchv; rewrite Hf; crunchv.
    rewrite run_cons; crunchv. rewrite Hv. crunchv.
    rewrite run_cons; crunchv.
    rewrite run_nil; reflexivity. }
  rewrite E. clear E. rewrite Hd.
  split.
  { unfold quiescent. simpl. split_and!; try reflexivity. }
  set (s1 := Kernel.Kernel _ _ _ _ _ _ _ _ _ _ _ _ _).
  assert (H1 : (loadModule stack X s1).1 = 3).
  { unfold s1. crunchv. rewrite Hl, Hg. crunchv. rewrite Hc1. crunchv. reflexivity. }
  rewrite H1. clear H1.
  eassert (E : run files stack [Load X; Tick] s1 = _).
  { unfold s1.
    rewrite run_cons; crunchv; rewrite Hl, Hg; crunchv; rewrite Hc1; crunchv; rewrite Hv; crunchv.
    rewrite run_cons; crunchv.
    rewrite run_nil; reflexivity. }
  rewrite E. clear E. rewrite Hd'.
  unfold quiescent. simpl. split_and!; try reflexivity.
  unfold s1. crunchv. rewrite Hl, Hg. crunchv. rewrite Hc1. crunchv. rewrite Hv. reflexivity.
Qed.


(** X17, a dependency that cannot be loaded.  When the first dependency
    that has to be loaded has no file, the load of the dependent module is
    rejected with the error of the dependency.  One instance of the
    dependent module has been made; its [init] has not been called, the
    dependencies after the failing one have not been asked for, nothing is
    loaded or registered, and no load is left in flight. *)
Theorem failed_dependency_fails_the_dependent (X D : string) (c : moduleClass)
    (rest : list string) (s : kernel) :
  untouched s → files X = Some c → _validateModuleInterface c = true →
  files D = None → X ≠ D →
  next_dependency s (default [] (dependencies c)) = Some (D, rest) →
  moduleCache s !! X = None → moduleCache s !! D = None →
  loadedModules s !! X = None →
  loadingPromises s !! X = None → loadingPromises s !! D = None →
  let s' := run files stack (dependency_fails X) s in
  promises s' !! (loadModule stack X s).1 = Some (Settled (Err (FileLoadFailed D))) ∧
  loadedModules s' = loadedModules s ∧ loadingPromises s' = loadingPromises s ∧
  moduleCache s' = <[X := c]> (moduleCache s) ∧
  modules s' = modules s ∧ apis s' = apis s ∧ emitted s' = emitted s ∧
  log s' = log s ++ [Instantiated X (Instance (nextInstance s) c)] ∧
  quiescent s'.
Proof.
  intros (Hp & Hq & Ht & Hi) Hf Hv HfD Hne Hnext Hc HcD Hl Hg HgD s'.
  destruct s as [ps q ts ins cache loaded loading att mods aps em n lg].
  simpl in Hp, Hq, Ht, Hi, Hc, HcD, Hl, Hg, HgD. subst ps q ts ins. subst s'.
  destruct (dependencies c) as [ds|] eqn:Hdeps; [|done]. simpl in Hnext.
  assert (HlD : loaded !! D = None).
  { by destruct (next_dependency_Some _ _ _ _ Hnext) as (_ & H & _). }
  assert (Hnext' : ∀ ps q ts ins cache loading mods aps em n lg,
            next_dependency (Kernel.Kernel ps q ts ins cache loaded loading att mods aps em n lg) ds
            = Some (D, rest)).
  { intros. rewrite <- Hnext. by apply next_dependency_ext. }
  assert (Hg1 : <[X := 1]> loading !! D = None) by (by rewrite lookup_insert_ne).
  assert (Hc1 : <[X := c]> cache !! D = None) by (by rewrite lookup_insert_ne).
  assert (Hfin : ∀ p, delete X (delete D (<[D := p]> (<[X := 1]> loading))) = loading).
  { intros p. rewrite delete_insert_id by done. by apply delete_insert_id. }
  cbv [lookup insert delete] in Hc, HcD, Hl, HlD, Hg, HgD, Hg1, Hc1, Hfin.
  assert (H0 : (loadModule stack X (Kernel.Kernel [] [] [] [] cache loaded loading att mods aps em n lg)).1 = 0).
  { crunchv. rewrite Hl, Hg. crunchv. rewrite Hc. crunchv. reflexivity. }
  rewrite H0. clear H0.
  eassert (E : run files stack (dependency_fails X) (Kernel.Kernel [] [] [] [] cache loaded loading att mods aps em n lg) = _).
  { unfold dependency_fails.
    rewrite run_cons; crunchv; rewrite Hl, Hg; crunchv; rewrite Hc; crunchv.
    rewrite run_cons; crunchv; rewrite Hf; crunchv.
    rewrite run_cons; crunchv. rewrite Hv. crunchv. rewrite Hdeps. crunchv.
    rewrite Hnext'. crunchv. rewrite HlD, Hg1. crunchv. rewrite Hc1. crunchv.
    rewrite run_cons; crunchv; rewrite HfD; crunchv.
    rewrite run_cons; crunchv.
    rewrite run_cons; crunchv.
    rewrite run_cons; crunchv.
    rewrite run_cons; crunchv.
    rewrite run_cons; crunchv.
    rewrite run_nil; reflexivity. }
  rewrite E. clear E. rewrite Hfin.
  unfold quiescent. simpl. split_and!; reflexivity.
Qed.


End Idle.

(** X13, the two validators.  [ModuleLoader._validateModuleInterface] and
    [VaultCore.validateModuleInterface] accept the same instances: those
    that have the members [name], [version], [init] and [getAPI], the
    last two being functions.  An instance that the loader has accepted is
    not refused by the core for its interface. *)
Theorem validators_accept_the_same_instances (c : moduleClass) :
  _validateModuleInterface c = validateModuleInterface c ∧
  (validateModuleInterface c = true ↔
     has_name c = true ∧ has_version c = true ∧
     init_slot c = Callable ∧ getAPI_slot c = Callable).
Proof.
  unfold _validateModuleInterface, validateModuleInterface.
  destruct (has_name c), (has_version c), (init_slot c), (getAPI_slot c); simpl;
    (split; [reflexivity|]); (split; [try discriminate; by intros _|by intros (? & ? & ? & ?)]).
Qed.

Lemma untouched_init core : untouched (init core).
Proof. by repeat split. Qed.

(** A module whose [init] is rejected is loaded and not registered. *)
Lemma load_ignores_the_result_of_registration_witness :
  _validateModuleInterface rejecting = true ∧
  isModuleLoaded "A" (run rejecting_files 0 (solo "A") (init true)) = true ∧
  hasModule "A" (run rejecting_files 0 (solo "A") (init true)) = false.
Proof.
  assert (Hv : _validateModuleInterface rejecting = true) by reflexivity.
  split; [exact Hv|].
  pose proof (load_ignores_the_result_of_registration rejecting_files 0 "A" rejecting (init true)
                (untouched_init true) eq_refl eq_refl Hv) as H.
  cbv zeta in H.
  destruct H as (_ & _ & Hl & _ & _ & _ & _ & _ & Hh & _); try reflexivity.
  - intros d Hd. by apply elem_of_nil in Hd.
  - split; [exact Hl|exact Hh].
Defined.

Lemma failed_file_load_leaves_no_trace_witness :
  no_files "A" = None ∧
  loadedModules (run no_files 0 (solo_fails "A") (init true)) = loadedModules (init true) ∧
  moduleCache (run no_files 0 (solo_fails "A") (init true)) = moduleCache (init true).
Proof.
  split; [reflexivity|].
  pose proof (failed_file_load_leaves_no_trace no_files 0 "A" (init true)
                (untouched_init true) eq_refl eq_refl eq_refl eq_refl) as H.
  cbv zeta in H. destruct H as (_ & Hl & _ & Hc & _).
  split; [exact Hl|exact Hc].
Defined.

Lemma invalid_class_is_cached_witness :
  _validateModuleInterface faulty = false ∧
  moduleCache (run faulty_files 0 (solo_fails "A") (init true)) =
    <[ "A" := faulty ]> (moduleCache (init true)) ∧
  timers (step faulty_files 0 (run faulty_files 0 (solo_fails "A") (init true)) (Load "A")) = [].
Proof.
  assert (Hv : _validateModuleInterface faulty = false) by reflexivity.
  split; [exact Hv|].
  pose proof (invalid_class_is_cached faulty_files 0 "A" faulty (init true)
                (untouched_init true) eq_refl Hv eq_refl eq_refl eq_refl) as H.
  cbv zeta in H. destruct H as ((_ & Hc & _) & Ht & _).
  split; [exact Hc|exact Ht].
Defined.

Lemma failed_dependency_fails_the_dependent_witness :
  next_dependency (init true) (default [] (dependencies (plain ["B"]))) = Some ("B", []) ∧
  promises (run orphan_files 0 (dependency_fails "A") (init true))
    !! (loadModule 0 "A" (init true)).1 = Some (Settled (Err (FileLoadFailed "B"))).
Proof.
  assert (Hn : next_dependency (init true) (default [] (dependencies (plain ["B"]))) = Some ("B", []))
    by reflexivity.
  split; [exact Hn|].
  assert (Hne : "A" ≠ "B") by discriminate.
  pose proof (failed_dependency_fails_the_dependent orphan_files 0 "A" "B" (plain ["B"]) [] (init true)
                (untouched_init true) eq_refl eq_refl eq_refl Hne Hn
                eq_refl eq_refl eq_refl eq_refl eq_refl) as H.
  cbv zeta in H. destruct H as (Hp & _). exact Hp.
Defined.

End KernelMore.

(** * Properties of unloading and shutdown *)

Module LifecycleFacts.
Import Lifecycle.

Lemma jget_jdelete_eq k m : jget k (jdelete k m) = None.
Proof.
  unfold jdelete. induction m as [|[k' v] m IH]; [done|].
  destruct (decide (k' = k)) as [->|Hne].
  - by rewrite filter_cons_False by (simpl; tauto).
  - rewrite filter_cons_True by done. simpl. by rewrite decide_False.
Qed.

Lemma jget_jdelete_ne k k' m : k ≠ k' → jget k' (jdelete k m) = jget k' m.
Proof.
  intros Hne. unfold jdelete. induction m as [|[k0 v] m IH]; [done|].
  destruct (decide (k0 = k)) as [->|Hne0].
  - rewrite filter_cons_False by (simpl; tauto). simpl. by rewrite decide_False.
  - rewrite filter_cons_True by done. simpl. by rewrite IH.
Qed.

Lemma jdelete_absent k m : jget k m = None → jdelete k m = m.
Proof.
  unfold jdelete. induction m as [|[k0 v] m IH]; [done|]. simpl.
  destruct (decide (k0 = k)) as [->|Hne]; [done|]. intros H.
  rewrite filter_cons_True by done. by rewrite IH.
Qed.

Lemma jget_Some_elem k m v : jget k m = Some v → (k, v) ∈ m.
Proof.
  induction m as [|[k0 v0] m IH]; [done|]. simpl.
  destruct (decide (k0 = k)) as [->|Hne]; intros H.
  - simplify_eq. by left.
  - right. by apply IH.
Qed.

Lemma jget_None_keys k m : jget k m = None ↔ k ∉ jkeys m.
Proof.
  unfold jkeys. induction m as [|[k0 v0] m IH]; simpl.
  - split; [intros _; by apply not_elem_of_nil|done].
  - rewrite not_elem_of_cons. destruct (decide (k0 = k)) as [->|Hne].
    + split; [done|]. by intros [? _].
    + rewrite IH. split; [by split|by intros [_ ?]].
Qed.

(** What [call_destroy] changes. *)
Lemma call_destroy_frame m s :
  let r := call_destroy m s in
  modules r.2 = modules s ∧ apis r.2 = apis s ∧ initialized r.2 = initialized s ∧
  loadedModules r.2 = loadedModules s ∧ moduleCache r.2 = moduleCache s ∧
  attached r.2 = attached s ∧ emitted r.2 = emitted s ∧
  destroyed r.2 = destroyed s ++ (match destroy_hook m with Some _ => [comp_id m] | None => [] end) ∧
  r.1 = match destroy_hook m with Some f => f (calls_of (comp_id m) s) | None => true end.
Proof.
  unfold call_destroy. destruct (destroy_hook m); simpl; by rewrite ?app_nil_r.
Qed.

(** The two ways in which [unregisterModule] ends. *)
Lemma unregisterModule_outcome (name : string) (s : system) :
  let r := unregisterModule name s in
  (r.1 = true ↔
     ∃ m, jget name (modules s) = Some m ∧
          ∀ f, destroy_hook m = Some f → f (calls_of (comp_id m) s) = true) ∧
  (r.1 = true →
     jget name (modules r.2) = None ∧ apis r.2 !! name = None ∧
     emitted r.2 = emitted s ++ [ModuleUnregistered name] ∧
     ∀ other, other ≠ name →
       jget other (modules r.2) = jget other (modules s) ∧
       apis r.2 !! other = apis s !! other) ∧
  (r.1 = false →
     modules r.2 = modules s ∧ apis r.2 = apis s ∧ emitted r.2 = emitted s) ∧
  loadedModules r.2 = loadedModules s.
Proof.
  intros r. subst r. unfold unregisterModule.
  destruct (jget name (modules s)) as [m|] eqn:Hm; simpl.
  2:{ split_and!; try done. split; [done|]. by intros (m & ? & _). }
  pose proof (call_destroy_frame m s) as H. cbv zeta in H.
  destruct (call_destroy m s) as [ok s1]. simpl in H.
  destruct H as (H1 & H2 & _ & H4 & _ & _ & H7 & _ & H9).
  destruct ok; simpl.
  - split_and!; try done.
    + split; [intros _|done]. exists m. split; [done|]. intros f Hf. by rewrite Hf in H9.
    + intros _. rewrite H1, H2, H7. split; [apply jget_jdelete_eq|].
      split; [apply lookup_delete_eq|]. split; [done|].
      intros other Hne. split; [by apply jget_jdelete_ne|by apply lookup_delete_ne].
  - split_and!; try done.
    split; [done|]. intros (m' & Hm' & Hf). simplify_eq.
    destruct (destroy_hook m') as [f|]; [|done]. by rewrite (Hf f eq_refl) in H9.
Qed.

(** X18, [unregisterModule].  The promise resolves with [true] exactly when
    the module is registered and its [destroy] hook, if it has one,
    returns.  Then the module and its API are gone from the registries of
    the core, one event is emitted, and the other modules and APIs are as
    they were.  Otherwise the registries and the emitted events are as
    they were.  In both cases the loader is not told: what it holds as
    loaded modules is as before the call. *)
Theorem unregisterModule_removes_module_and_api (name : string) (s : system) :
  let r := unregisterModule name s in
  (r.1 = true ↔
     ∃ m, jget name (modules s) = Some m ∧
          ∀ f, destroy_hook m = Some f → f (calls_of (comp_id m) s) = true) ∧
  (r.1 = true →
     jget name (modules r.2) = None ∧ apis r.2 !! name = None ∧
     emitted r.2 = emitted s ++ [ModuleUnregistered name] ∧
     ∀ other, other ≠ name →
       jget other (modules r.2) = jget other (modules s) ∧
       apis r.2 !! other = apis s !! other) ∧
  (r.1 = false →
     modules r.2 = modules s ∧ apis r.2 = apis s ∧ emitted r.2 = emitted s) ∧
  loadedModules r.2 = loadedModules s.
Proof. exact (unregisterModule_outcome name s). Qed.

(** What [unregisterModule] changes beside the registries. *)
Lemma unregisterModule_frame name s :
  let r := unregisterModule name s in
  loadedModules r.2 = loadedModules s ∧ moduleCache r.2 = moduleCache s ∧
  attached r.2 = attached s ∧ initialized r.2 = initialized s ∧
  destroyed r.2 = destroyed s ++
    match jget name (modules s) with
    | Some m => match destroy_hook m with Some _ => [comp_id m] | None => [] end
    | None => []
    end.
Proof.
  unfold unregisterModule. destruct (jget name (modules s)) as [m|]; simpl;
    [|by rewrite app_nil_r].
  pose proof (call_destroy_frame m s) as H. cbv zeta in H.
  destruct (call_destroy m s) as [ok s1]. simpl in H.
  destruct H as (_ & _ & H3 & H4 & H5 & H6 & _ & H8 & _).
  by destruct ok.
Qed.

Lemma calls_of_snoc i j s s' :
  destroyed s' = destroyed s ++ [j] →
  calls_of i s' = calls_of i s + (if decide (j = i) then 1 else 0).
Proof.
  intros H. unfold calls_of. rewrite H, filter_app, length_app.
  destruct (decide (j = i)) as [->|Hne].
  - by rewrite filter_cons_True.
  - by rewrite filter_cons_False.
Qed.

(** X19, [unloadModule] calls [destroy] twice.  When the loader has a core
    and the module is registered there, [unloadModule] calls the [destroy]
    hook of the instance through [unregisterModule] and then once more
    itself, whatever the first call did.  When the first call returns and
    the second fails, [unloadModule] resolves with [false] and the module
    is still marked loaded, but it is registered no more. *)
Theorem unloadModule_calls_destroy_twice (name : string) (m : component) (f : nat → bool)
    (s : system) :
  attached s = true →
  jget name (loadedModules s) = Some m → jget name (modules s) = Some m →
  destroy_hook m = Some f →
  let r := unloadModule name s in
  let n := calls_of (comp_id m) s in
  destroyed r.2 = destroyed s ++ [comp_id m; comp_id m] ∧
  r.1 = f (S n) ∧
  (f n = true → f (S n) = false →
     r.1 = false ∧ jget name (loadedModules r.2) = Some m ∧
     jget name (modules r.2) = None ∧ apis r.2 !! name = None) ∧
  (f n = true → f (S n) = true →
     r.1 = true ∧ jget name (loadedModules r.2) = None ∧ jget name (modules r.2) = None) ∧
  (f n = false → jget name (modules r.2) = Some m).
Proof.
  intros Ha Hl Hm Hf r n. subst r. unfold unloadModule. rewrite Hl, Ha.
  pose proof (unregisterModule_frame name s) as Hfr. cbv zeta in Hfr.
  rewrite Hm, Hf in Hfr. destruct Hfr as (F1 & F2 & F3 & F4 & F5).
  pose proof (unregisterModule_outcome name s) as Hu. cbv zeta in Hu.
  destruct Hu as (U1 & U2 & U3 & _).
  set (s1 := (unregisterModule name s).2) in *.
  pose proof (call_destroy_frame m s1) as H. cbv zeta in H.
  assert (Hn : calls_of (comp_id m) s1 = S n).
  { rewrite (calls_of_snoc _ (comp_id m) s s1 F5). rewrite decide_True by done. subst n. lia. }
  destruct (call_destroy m s1) as [ok s2]. simpl in H.
  destruct H as (H1 & H2 & _ & H4 & _ & _ & _ & H8 & H9).
  rewrite Hf in H8, H9. rewrite Hn in H9. subst ok.
  assert (Hd : destroyed s2 = destroyed s ++ [comp_id m; comp_id m]).
  { rewrite H8, F5. by rewrite <- app_assoc. }
  assert (Hfirst : (unregisterModule name s).1 = f n).
  { unfold unregisterModule. rewrite Hm. unfold call_destroy. rewrite Hf. simpl.
    by destruct (f _). }
  destruct (f (S n)) eqn:H2nd; simpl.
  - split; [done|]. split; [done|]. split; [done|]. split.
    + intros H1st _. split; [done|]. split; [apply jget_jdelete_eq|].
      rewrite H1. apply U2. by rewrite Hfirst.
    + intros H1st. rewrite H1. destruct U3 as (U & _); [by rewrite Hfirst|].
      fold s1 in U. by rewrite U.
  - split; [done|]. split; [done|]. split.
    + intros H1st _. split; [done|]. rewrite H4, F1. split; [done|].
      rewrite H1, H2. destruct U2 as (U & U' & _); [by rewrite Hfirst|]. done.
    + split; [done|]. intros H1st. rewrite H1. destruct U3 as (U & _); [by rewrite Hfirst|].
      fold s1 in U. by rewrite U.
Qed.

Lemma jdelete_sublist k m : jdelete k m `sublist_of` m.
Proof. apply sublist_filter. Qed.

Lemma jget_jdelete_None k k' m : jget k' m = None → jget k' (jdelete k m) = None.
Proof.
  intros H. destruct (decide (k = k')) as [->|Hne]; [apply jget_jdelete_eq|].
  by rewrite jget_jdelete_ne.
Qed.

Lemma call_destroy_reliable m s : reliable m → (call_destroy m s).1 = true.
Proof.
  intros Hr. unfold call_destroy. destruct (destroy_hook m) as [f|] eqn:Hf; [|done].
  simpl. by apply Hr.
Qed.

(** What one call of [unloadModule] does to the two Maps. *)
Lemma unloadModule_maps name s :
  let r := unloadModule name s in
  attached r.2 = attached s ∧
  (loadedModules r.2 = loadedModules s ∨
   loadedModules r.2 = jdelete name (loadedModules s)) ∧
  (r.1 = true → loadedModules r.2 = jdelete name (loadedModules s)) ∧
  (r.1 = false → loadedModules r.2 = loadedModules s) ∧
  (modules r.2 = modules s ∨ modules r.2 = jdelete name (modules s)) ∧
  moduleCache r.2 = moduleCache s.
Proof.
  unfold unloadModule. destruct (jget name (loadedModules s)) as [m|] eqn:Hl; simpl.
  2:{ split_and!; auto. done. }
  set (s1 := if attached s then (unregisterModule name s).2 else s).
  assert (H1 : attached s1 = attached s ∧ loadedModules s1 = loadedModules s ∧
               moduleCache s1 = moduleCache s ∧
               (modules s1 = modules s ∨ modules s1 = jdelete name (modules s))).
  { subst s1. destruct (attached s) eqn:Ha; [|by auto].
    pose proof (unregisterModule_frame name s) as F. cbv zeta in F.
    destruct F as (F1 & F2 & F3 & _). rewrite Ha in F3.
    pose proof (unregisterModule_outcome name s) as U. cbv zeta in U.
    destruct U as (_ & _ & U3 & _).
    split; [done|]. split; [done|]. split; [done|].
    destruct ((unregisterModule name s).1) eqn:Hr.
    - right. unfold unregisterModule in *. destruct (jget name (modules s)) as [m'|]; [|done].
      pose proof (call_destroy_frame m' s) as C. cbv zeta in C.
      destruct (call_destroy m' s) as [ok s2]. simpl in C. destruct C as (C1 & _).
      destruct ok; [|done]. simpl. by rewrite C1.
    - left. by apply U3. }
  destruct H1 as (A1 & A2 & A3 & A4).
  pose proof (call_destroy_frame m s1) as C. cbv zeta in C.
  destruct (call_destroy m s1) as [ok s2]. simpl in C.
  destruct C as (C1 & _ & _ & C4 & C5 & C6 & _).
  destruct ok; simpl; rewrite ?C1, ?C4, ?C5, ?C6, ?A1, ?A2, ?A3; split_and!; auto; done.
Qed.

(** A reliable module that is loaded is unloaded. *)
Lemma unloadModule_reliable name m s :
  jget name (loadedModules s) = Some m → reliable m →
  (attached s = true → ∀ m', jget name (modules s) = Some m' → reliable m') →
  let r := unloadModule name s in
  loadedModules r.2 = jdelete name (loadedModules s) ∧
  (attached s = true → jget name (modules r.2) = None).
Proof.
  intros Hl Hr Hm. unfold unloadModule. rewrite Hl.
  set (s1 := if attached s then (unregisterModule name s).2 else s).
  assert (H1 : loadedModules s1 = loadedModules s ∧
               (attached s = true → jget name (modules s1) = None)).
  { subst s1. destruct (attached s) eqn:Ha; [|done].
    pose proof (unregisterModule_frame name s) as F. cbv zeta in F.
    destruct F as (F1 & _). split; [done|]. intros _.
    pose proof (unregisterModule_outcome name s) as U. cbv zeta in U.
    destruct U as (U1 & U2 & U3 & _).
    destruct (jget name (modules s)) as [m'|] eqn:Hm'.
    - apply U2, U1. exists m'. split; [done|]. intros f Hf. by apply (Hm eq_refl m').
    - unfold unregisterModule. by rewrite Hm'. }
  destruct H1 as [A1 A2].
  pose proof (call_destroy_frame m s1) as C. cbv zeta in C.
  pose proof (call_destroy_reliable m s1 Hr) as Hok.
  destruct (call_destroy m s1) as [ok s2]. simpl in C, Hok. subst ok.
  destruct C as (C1 & _ & _ & C4 & _). simpl. rewrite C1, C4, A1. done.
Qed.

Lemma fold_jdelete_all (ks : list string) (m : jsmap) :
  (∀ kv, kv ∈ m → kv.1 ∈ ks) → foldl (λ m k, jdelete k m) m ks = [].
Proof.
  revert m. induction ks as [|k ks IH]; intros m H; simpl.
  - destruct m as [|kv m]; [done|]. specialize (H kv ltac:(left)). by apply elem_of_nil in H.
  - apply IH. intros kv Hkv. unfold jdelete in Hkv. apply list_elem_of_filter in Hkv as [Hne Hin].
    specialize (H kv Hin). apply elem_of_cons in H as [?|?]; [done|done].
Qed.

Lemma unload_fold_sublist ks s :
  let s' := foldl (λ s name, (unloadModule name s).2) s ks in
  loadedModules s' `sublist_of` loadedModules s ∧
  modules s' `sublist_of` modules s ∧
  attached s' = attached s ∧
  (∀ name, name ∉ ks → jget name (modules s') = jget name (modules s)).
Proof.
  revert s. induction ks as [|k ks IH]; intros s; simpl.
  { split_and!; done. }
  pose proof (unloadModule_maps k s) as U. cbv zeta in U.
  destruct U as (U1 & U2 & _ & _ & U3 & _).
  destruct (IH (unloadModule k s).2) as (I1 & I2 & I3 & I4).
  split_and!.
  - etrans; [exact I1|]. destruct U2 as [->| ->]; [done|apply jdelete_sublist].
  - etrans; [exact I2|]. destruct U3 as [->| ->]; [done|apply jdelete_sublist].
  - by rewrite I3.
  - intros name Hn. apply not_elem_of_cons in Hn as [Hne Hn]. rewrite (I4 name Hn).
    destruct U3 as [->| ->]; [done|]. by apply jget_jdelete_ne.
Qed.

Lemma unload_fold_reliable ks s :
  (∀ name m, (name, m) ∈ loadedModules s → reliable m) →
  (attached s = true → ∀ name m, (name, m) ∈ modules s → reliable m) →
  let s' := foldl (λ s name, (unloadModule name s).2) s ks in
  loadedModules s' = foldl (λ m k, jdelete k m) (loadedModules s) ks ∧
  (attached s = true →
     ∀ name, name ∈ ks →
       is_Some (jget name (loadedModules s)) ∨ jget name (modules s) = None →
       jget name (modules s') = None).
Proof.
  revert s. induction ks as [|k ks IH]; intros s Hl Hm; simpl.
  { split; [done|]. intros _ name Hn. by apply elem_of_nil in Hn. }
  pose proof (unloadModule_maps k s) as U. cbv zeta in U.
  destruct U as (U1 & U2 & _ & U2' & U3 & _).
  set (s1 := (unloadModule k s).2) in *.
  assert (Hl1 : ∀ name m, (name, m) ∈ loadedModules s1 → reliable m).
  { intros name m Hin. apply (Hl name m).
    destruct U2 as [E|E]; rewrite E in Hin; [done|].
    eapply elem_of_sublist; [exact Hin|apply jdelete_sublist]. }
  assert (Hm1 : attached s1 = true → ∀ name m, (name, m) ∈ modules s1 → reliable m).
  { rewrite U1. intros Ha name m Hin. apply (Hm Ha name m).
    destruct U3 as [E|E]; rewrite E in Hin; [done|].
    eapply elem_of_sublist; [exact Hin|apply jdelete_sublist]. }
  destruct (IH s1 Hl1 Hm1) as [I1 I2].
  assert (Hstep : loadedModules s1 = jdelete k (loadedModules s) ∧
                  (attached s = true →
                   is_Some (jget k (loadedModules s)) ∨ jget k (modules s) = None →
                   jget k (modules s1) = None)).
  { destruct (jget k (loadedModules s)) as [m|] eqn:Hk.
    - pose proof (unloadModule_reliable k m s Hk) as R. cbv zeta in R.
      destruct R as [R1 R2].
      + apply (Hl k). by apply jget_Some_elem.
      + intros Ha m' Hm'. apply (Hm Ha k). by apply jget_Some_elem.
      + split; [done|]. intros Ha _. by apply R2.
    - split.
      + rewrite jdelete_absent by done. subst s1. unfold unloadModule. by rewrite Hk.
      + intros _ [[? ?]|Hn]; [done|]. subst s1. unfold unloadModule. by rewrite Hk. }
  destruct Hstep as [S1 S2].
  split; [by rewrite I1, S1|].
  intros Ha name Hn Hcase.
  pose proof (unload_fold_sublist ks s1) as F. cbv zeta in F. destruct F as (_ & F2 & _ & F4).
  assert (Hnone : ∀ x, jget x (modules s1) = None →
            jget x (modules (foldl (λ s name, (unloadModule name s).2) s1 ks)) = None).
  { intros x Hx. apply jget_None_keys. apply jget_None_keys in Hx. intros Hin. apply Hx.
    unfold jkeys in *. eapply elem_of_sublist; [exact Hin|]. by apply fmap_sublist. }
  destruct (decide (name = k)) as [->|Hne].
  - apply Hnone. by apply S2.
  - apply elem_of_cons in Hn as [?|Hn]; [done|].
    apply I2; [by rewrite U1|done|].
    destruct Hcase as [Hs|Hn'].
    + left. rewrite S1. by rewrite jget_jdelete_ne.
    + right. destruct U3 as [->| ->]; [done|]. by apply jget_jdelete_None.
Qed.

(** X20, [unloadAllModules].  What is left in [loadedModules] afterwards was
    there before, in the same order; the modules that the core holds and
    the loader has not loaded are registered as before.  When no [destroy]
    hook fails, nothing is left in [loadedModules], and with a core every
    module that was loaded is registered no more. *)
Theorem unloadAllModules_unloads_what_can_be_destroyed (s : system) :
  let s' := unloadAllModules s in
  loadedModules s' `sublist_of` loadedModules s ∧
  (∀ name, name ∉ jkeys (loadedModules s) → jget name (modules s') = jget name (modules s)) ∧
  ((∀ name m, (name, m) ∈ loadedModules s → reliable m) →
   (attached s = true → ∀ name m, (name, m) ∈ modules s → reliable m) →
   loadedModules s' = [] ∧
   (attached s = true →
      ∀ name, name ∈ jkeys (loadedModules s) → jget name (modules s') = None)).
Proof.
  intros s'. subst s'. unfold unloadAllModules.
  pose proof (unload_fold_sublist (jkeys (loadedModules s)) s) as F. cbv zeta in F.
  destruct F as (F1 & _ & _ & F4).
  split; [done|]. split; [done|]. intros Hl Hm.
  pose proof (unload_fold_reliable (jkeys (loadedModules s)) s Hl Hm) as R. cbv zeta in R.
  destruct R as [R1 R2]. split.
  - rewrite R1. apply fold_jdelete_all. intros kv Hkv. unfold jkeys.
    by apply (list_elem_of_fmap_2 fst).
  - intros Ha name Hn. apply R2; [done|done|]. left.
    destruct (jget name (loadedModules s)) eqn:Hg; [by eexists|].
    by apply jget_None_keys in Hg.
Qed.

Lemma hooked_cons k m ms :
  hooked ((k, m) :: ms) = (match destroy_hook m with Some _ => [comp_id m] | None => [] end) ++ hooked ms.
Proof.
  unfold hooked. simpl. destruct (destroy_hook m) eqn:H.
  - rewrite filter_cons_True by (by rewrite H). done.
  - rewrite filter_cons_False by (rewrite H; tauto). done.
Qed.

(** The loop of [destroy]: the hooks are called in the order of the Map,
    up to the first one that fails. *)
Lemma destroy_each_calls ms s :
  let r := destroy_each ms s in
  modules r.2 = modules s ∧ apis r.2 = apis s ∧ initialized r.2 = initialized s ∧
  loadedModules r.2 = loadedModules s ∧ moduleCache r.2 = moduleCache s ∧
  attached r.2 = attached s ∧ emitted r.2 = emitted s ∧
  ∃ k, destroyed r.2 = destroyed s ++ take k (hooked ms) ∧
       (r.1 = true → k = length (hooked ms)) ∧
       (r.1 = false → 0 < k ≤ length (hooked ms)) ∧
       ((∀ name m, (name, m) ∈ ms → reliable m) → r.1 = true).
Proof.
  revert s. induction ms as [|[name m] ms IH]; intros s; simpl.
  { split_and!; try done. exists 0. rewrite app_nil_r. split_and!; done. }
  pose proof (call_destroy_frame m s) as C. cbv zeta in C.
  pose proof (call_destroy_reliable m s) as R.
  destruct (call_destroy m s) as [ok s1]. simpl in C, R.
  destruct C as (C1 & C2 & C3 & C4 & C5 & C6 & C7 & C8 & C9).
  rewrite hooked_cons.
  destruct ok; simpl.
  - destruct (IH s1) as (I1 & I2 & I3 & I4 & I5 & I6 & I7 & k & Ik & Ht & Hf & Hr).
    rewrite I1, I2, I3, I4, I5, I6, I7. split_and!; try done.
    exists (length (match destroy_hook m with Some _ => [comp_id m] | None => [] end) + k).
    rewrite take_app_add'. 2: done.
    split_and!.
    + rewrite Ik, C8. by rewrite <- app_assoc.
    + intros H. rewrite length_app. by rewrite (Ht H).
    + intros H. rewrite length_app. specialize (Hf H). lia.
    + intros Hrel. apply Hr. intros n' m' Hin. apply (Hrel n' m'). by right.
  - split_and!; try done.
    destruct (destroy_hook m) as [f|] eqn:Hh; [|done].
    exists 1. simpl. rewrite take_0. split_and!; try done.
    + lia.
    + intros Hrel. apply R. apply (Hrel name m). by left.
Qed.

(** X21, [VaultCore.destroy].  The shutdown event is emitted first; the
    [destroy] hooks of the registered modules are called in the order of
    their registration, up to the first one that fails.  When none fails,
    the registries are emptied and the core is no longer initialised.
    When one fails, the hooks after it are not called, every module and
    API stays registered and the core stays initialised.  What the loader
    holds as loaded modules is as before in both cases. *)
Theorem destroy_clears_all_or_nothing (s : system) :
  let s' := destroy s in
  emitted s' = emitted s ++ [CoreShutdown] ∧
  loadedModules s' = loadedModules s ∧ moduleCache s' = moduleCache s ∧
  (∃ k, destroyed s' = destroyed s ++ take k (hooked (modules s)) ∧
     ((k = length (hooked (modules s)) ∧
       modules s' = [] ∧ apis s' = ∅ ∧ initialized s' = false) ∨
      (0 < k ≤ length (hooked (modules s)) ∧
       modules s' = modules s ∧ apis s' = apis s ∧ initialized s' = initialized s))) ∧
  ((∀ name m, (name, m) ∈ modules s → reliable m) →
     modules s' = [] ∧ apis s' = ∅ ∧ initialized s' = false ∧
     destroyed s' = destroyed s ++ hooked (modules s)).
Proof.
  intros s'. subst s'. unfold destroy.
  set (s0 := emit CoreShutdown s).
  pose proof (destroy_each_calls (modules s0) s0) as D. cbv zeta in D.
  destruct (destroy_each (modules s0) s0) as [ok s1]. simpl in D.
  destruct D as (D1 & D2 & D3 & D4 & D5 & D6 & D7 & k & Dk & Ht & Hf & Hr).
  change (modules s0) with (modules s) in *. change (destroyed s0) with (destroyed s) in *.
  destruct ok; simpl.
  - split; [by rewrite D7|]. split; [by rewrite D4|]. split; [by rewrite D5|]. split.
    + exists k. split; [done|]. left. by rewrite (Ht eq_refl).
    + intros _. split_and!; try done. rewrite Dk, (Ht eq_refl). by rewrite firstn_all.
  - split; [by rewrite D7|]. split; [by rewrite D4|]. split; [by rewrite D5|]. split.
    + exists k. split; [done|]. right. split; [by apply Hf|]. by rewrite D1, D2, D3.
    + intros Hrel. by specialize (Hr Hrel).
Qed.

(** X22, [reloadModule] does not look at the result of [unloadModule].  The
    class of the module is dropped from the cache in every case.  When the
    module is loaded and [unloadModule] resolves with [false], because the
    [destroy] hook has failed, the module is still marked loaded and
    [reloadModule] resolves with the instance that was loaded before; when
    [unloadModule] resolves with [true], or the module was not loaded,
    the call goes on to load the module. *)
Theorem reloadModule_keeps_what_cannot_be_destroyed (name : string) (s : system) :
  let r := reloadModule name s in
  moduleCache r.2 = delete name (moduleCache s) ∧
  r.1 = match jget name (loadedModules s) with
        | Some m => if (unloadModule name s).1 then LoadsAgain else ReturnsLoaded m
        | None => LoadsAgain
        end ∧
  (r.1 = LoadsAgain → jget name (loadedModules r.2) = None) ∧
  (∀ m, r.1 = ReturnsLoaded m → loadedModules r.2 = loadedModules s).
Proof.
  intros r. subst r. unfold reloadModule.
  pose proof (unloadModule_maps name s) as U. cbv zeta in U.
  destruct U as (_ & _ & Ut & Uf & _ & Uc).
  set (s1 := (unloadModule name s).2) in *.
  change (loadedModules (set_moduleCache (λ c, delete name c) s1)) with (loadedModules s1).
  assert (Hc : moduleCache (set_moduleCache (λ c, delete name c) s1) = delete name (moduleCache s)).
  { simpl. by rewrite Uc. }
  assert (Hl : loadedModules (set_moduleCache (λ c, delete name c) s1) = loadedModules s1) by done.
  destruct ((unloadModule name s).1) eqn:Hr.
  - specialize (Ut eq_refl).
    assert (Hn : jget name (loadedModules s1) = None) by (rewrite Ut; apply jget_jdelete_eq).
    rewrite Hn. simpl. split; [done|]. split; [by destruct (jget name (loadedModules s))|].
    split; [done|done].
  - specialize (Uf eq_refl). rewrite Uf.
    destruct (jget name (loadedModules s)) as [m|] eqn:Hg; simpl.
    + split; [done|]. split; [done|]. split; [done|]. by intros _ _.
    + split; [done|]. split; [done|]. split; [|done]. intros _. by rewrite Uf.
Qed.

Section Loads.

Context {W M E : Type}.
Variable awaited : string → W → (E + M) * W.

Local Abbreviation loadModules := (loadModules W M E awaited).
Local Abbreviation loadModules_from := (loadModules_from W M E awaited).
Local Abbreviation after_loads := (after_loads W M E awaited).

Lemma after_loads_snoc names name w :
  after_loads (names ++ [name]) w = (awaited name (after_loads names w)).2.
Proof. unfold Lifecycle.after_loads. by rewrite foldl_app. Qed.

Lemma after_loads_cons name names w :
  after_loads (name :: names) w = after_loads names (awaited name w).2.
Proof. done. Qed.

Lemma loop_tolerant names : ∀ results w,
  ∃ rs, loadModules_from false names results w = (inr (results ++ rs), after_loads names w) ∧
        entry_name M E <$> rs = names ∧
        ∀ i r, rs !! i = Some r →
          ∃ name, names !! i = Some name ∧
                  agrees M E r (awaited name (after_loads (take i names) w)).1.
Proof.
  induction names as [|name names IH]; intros results w.
  { exists []. simpl. rewrite app_nil_r. split_and!; try done. }
  rewrite after_loads_cons. simpl Lifecycle.loadModules_from.
  assert (Hstep : ∀ i name', (name :: names) !! S i = Some name' →
            awaited name' (after_loads (take (S i) (name :: names)) w) =
            awaited name' (after_loads (take i names) (awaited name w).2)).
  { intros i name' _. done. }
  destruct (awaited name w) as [[e|m] w1] eqn:Ha; simpl in *.
  - destruct (IH (results ++ [FailedWith M E name e]) w1) as (rs & H1 & H2 & H3).
    exists (FailedWith M E name e :: rs).
    split_and!.
    + rewrite H1. by rewrite <- app_assoc.
    + simpl. f_equal. exact H2.
    + intros [|i] r Hr; simpl in *.
      * simplify_eq. exists name. split; [done|]. unfold Lifecycle.after_loads. simpl.
        by rewrite Ha.
      * destruct (H3 i r Hr) as (name' & Hn & Hag). exists name'. split; [done|].
        by rewrite Hstep.
  - destruct (IH (results ++ [Succeeded M E name m]) w1) as (rs & H1 & H2 & H3).
    exists (Succeeded M E name m :: rs).
    split_and!.
    + rewrite H1. by rewrite <- app_assoc.
    + simpl. f_equal. exact H2.
    + intros [|i] r Hr; simpl in *.
      * simplify_eq. exists name. split; [done|]. unfold Lifecycle.after_loads. simpl.
        by rewrite Ha.
      * destruct (H3 i r Hr) as (name' & Hn & Hag). exists name'. split; [done|].
        by rewrite Hstep.
Qed.

(** X23, [loadModules] without [failFast].  The promise is never rejected.
    It is fulfilled with one entry for every requested name, in the order
    of the request and with repetitions; every entry says how the load of
    its name has ended, the loads having been made one after the other. *)
Theorem loadModules_reports_every_module (names : list string) (w : W) :
  ∃ rs, loadModules names false w = (inr rs, after_loads names w) ∧
        entry_name M E <$> rs = names ∧
        ∀ i r, rs !! i = Some r →
          ∃ name, names !! i = Some name ∧
                  agrees M E r (awaited name (after_loads (take i names) w)).1.
Proof.
  destruct (loop_tolerant names [] w) as (rs & H1 & H2 & H3).
  exists rs. split; [exact H1|]. split; [exact H2|exact H3].
Qed.

Lemma loop_failFast names : ∀ results w,
  match (loadModules_from true names results w).1 with
  | inl e =>
      ∃ k name, names !! k = Some name ∧
        (awaited name (after_loads (take k names) w)).1 = inl e ∧
        (loadModules_from true names results w).2 = after_loads (take (S k) names) w ∧
        ∀ j name', j < k → names !! j = Some name' →
          ∃ m, (awaited name' (after_loads (take j names) w)).1 = inr m
  | inr rs =>
      ∃ rs', rs = results ++ rs' ∧ entry_name M E <$> rs' = names ∧
        (loadModules_from true names results w).2 = after_loads names w ∧
        ∀ j name', names !! j = Some name' →
          ∃ m, (awaited name' (after_loads (take j names) w)).1 = inr m ∧
               rs' !! j = Some (Succeeded M E name' m)
  end.
Proof.
  induction names as [|name names IH]; intros results w.
  { exists []. simpl. rewrite app_nil_r. split_and!; try done. }
  simpl Lifecycle.loadModules_from.
  assert (Hstep : ∀ i name',
            awaited name' (after_loads (take (S i) (name :: names)) w) =
            awaited name' (after_loads (take i names) (awaited name w).2)) by done.
  assert (Hstep' : ∀ i,
            after_loads (take (S i) (name :: names)) w =
            after_loads (take i names) (awaited name w).2) by done.
  assert (Hzero : awaited name (after_loads (take 0 (name :: names)) w) = awaited name w) by done.
  rewrite (after_loads_cons name names w).
  destruct (awaited name w) as [[e|m] w1] eqn:Ha.
  - cbn [fst snd]. exists 0, name. rewrite Hzero. rewrite Hstep'.
    split_and!; try done. intros j name' Hj. lia.
  - specialize (IH (results ++ [Succeeded M E name m]) w1).
    destruct ((loadModules_from true names (results ++ [Succeeded M E name m]) w1).1) as [e|rs].
    + destruct IH as (k & name0 & Hk & He & Hw & Hbefore).
      exists (S k), name0. rewrite Hstep, Hstep'. cbn [fst snd].
      split_and!; try done.
      intros [|j] name' Hj Hn.
      * simpl in Hn. simplify_eq. exists m. by rewrite Hzero.
      * rewrite Hstep. cbn [fst snd]. apply Hbefore; [lia|done].
    + destruct IH as (rs' & Hrs & Hnames & Hw & Hall).
      exists (Succeeded M E name m :: rs'). cbn [fst snd]. split_and!.
      * rewrite Hrs. by rewrite <- app_assoc.
      * simpl. f_equal. exact Hnames.
      * done.
      * intros [|j] name' Hn.
        -- simpl in Hn. simplify_eq. exists m. by rewrite Hzero.
        -- rewrite Hstep. cbn [fst snd]. by apply Hall.
Qed.

(** X24, [loadModules] with [failFast].  The promise is rejected with the
    error of the first load that fails; the loads before it have
    succeeded, and the modules after it have not been asked for.  When no
    load fails, the promise is fulfilled with one entry for every
    requested name, in order, each with the instance of its load. *)
Theorem loadModules_failFast_stops_at_the_first_failure (names : list string) (w : W) :
  let r := loadModules names true w in
  (∀ e, r.1 = inl e →
     ∃ k name, names !! k = Some name ∧
       (awaited name (after_loads (take k names) w)).1 = inl e ∧
       r.2 = after_loads (take (S k) names) w ∧
       ∀ j name', j < k → names !! j = Some name' →
         ∃ m, (awaited name' (after_loads (take j names) w)).1 = inr m) ∧
  (∀ rs, r.1 = inr rs →
     entry_name M E <$> rs = names ∧ r.2 = after_loads names w ∧
     ∀ j name', names !! j = Some name' →
       ∃ m, (awaited name' (after_loads (take j names) w)).1 = inr m ∧
            rs !! j = Some (Succeeded M E name' m)).
Proof.
  intros r. subst r. unfold Lifecycle.loadModules.
  pose proof (loop_failFast names [] w) as H.
  destruct ((loadModules_from true names [] w).1) as [e|rs].
  - split; [|done]. intros e' He'. simplify_eq. exact H.
  - split; [done|]. intros rs0 Hrs. simplify_eq.
    destruct H as (rs' & -> & H1 & H2 & H3). simpl. done.
Qed.

End Loads.

(** On [running], whose module cannot be destroyed twice, [unloadModule]
    resolves with [false] and leaves the module loaded and unregistered. *)
Lemma unloadModule_calls_destroy_twice_witness :
  attached running = true ∧
  (unloadModule "A" running).1 = false ∧
  jget "A" (loadedModules (unloadModule "A" running).2) = Some once_only ∧
  jget "A" (modules (unloadModule "A" running).2) = None.
Proof.
  assert (Ha : attached running = true) by reflexivity.
  split; [exact Ha|].
  pose proof (unloadModule_calls_destroy_twice "A" once_only (λ n, bool_decide (n = 0)) running
                Ha eq_refl eq_refl eq_refl) as H.
  cbv zeta in H. destruct H as (_ & _ & H & _).
  destruct H as (H1 & H2 & H3 & _); [reflexivity|reflexivity|].
  split; [exact H1|]. split; [exact H2|exact H3].
Defined.

End LifecycleFacts.

(** * Properties of the search *)

Module NotesFacts.
Import Notes.

Lemma filter_or_throw_Some {A} (p : A → option bool) (l kept : list A) :
  filter_or_throw p l = Some kept →
  kept = filter (λ x, p x = Some true) l ∧ ∀ x, x ∈ l → is_Some (p x).
Proof.
  revert kept. induction l as [|x l IH]; intros kept; simpl.
  { intros [= <-]. split; [done|]. intros x Hx. by apply elem_of_nil in Hx. }
  destruct (p x) as [b|] eqn:Hp; [|done].
  destruct (filter_or_throw p l) as [k|]; [|done]. intros [= <-].
  destruct (IH k eq_refl) as [-> Hall]. split.
  - destruct b.
    + by rewrite filter_cons_True.
    + rewrite filter_cons_False; [done|]. by rewrite Hp.
  - intros y Hy. apply elem_of_cons in Hy as [->|Hy]; [by rewrite Hp|by apply Hall].
Qed.

Lemma filter_or_throw_None {A} (p : A → option bool) (l : list A) :
  filter_or_throw p l = None ↔ ∃ x, x ∈ l ∧ p x = None.
Proof.
  induction l as [|x l IH]; simpl.
  { split; [done|]. intros (x & Hx & _). by apply elem_of_nil in Hx. }
  destruct (p x) as [b|] eqn:Hp.
  - destruct (filter_or_throw p l) as [k|].
    + split; [done|]. intros (y & Hy & Hn). apply elem_of_cons in Hy as [->|Hy]; [congruence|].
      assert (Hk : Some k = None) by (apply IH; by exists y). done.
    + split; [|done]. intros _. destruct IH as [IH _]. destruct (IH eq_refl) as (y & Hy & Hn).
      exists y. split; [by right|done].
  - split; [|done]. intros _. exists x. split; [by left|done].
Qed.

Lemma filter_or_throw_total {A} (p : A → option bool) (l : list A) :
  (∀ x, x ∈ l → is_Some (p x)) →
  filter_or_throw p l = Some (filter (λ x, p x = Some true) l).
Proof.
  intros H. destruct (filter_or_throw p l) as [k|] eqn:Hk.
  - by destruct (filter_or_throw_Some p l k Hk) as [-> _].
  - apply filter_or_throw_None in Hk as (x & Hx & Hn). destruct (H x Hx) as [? ?]. congruence.
Qed.

Lemma slice_to_nonneg {A} (e : Z) (l : list A) :
  (0 ≤ e)%Z → slice_to e l = take (Z.to_nat e) l.
Proof.
  intros He. unfold slice_to. rewrite (proj2 (Z.ltb_ge e 0)) by done.
  destruct (decide (e ≤ Z.of_nat (length l))%Z).
  - by rewrite Z.min_l.
  - rewrite Z.min_r by lia. rewrite Nat2Z.id. rewrite !take_ge; [done|lia|lia].
Qed.

Lemma slice_to_neg {A} (e : Z) (l : list A) :
  (e < 0)%Z → slice_to e l = take (length l - Z.to_nat (- e)) l.
Proof.
  intros He. unfold slice_to. rewrite (proj2 (Z.ltb_lt e 0)) by done.
  f_equal. lia.
Qed.

Lemma slice_to_sublist {A} (e : Z) (l : list A) : slice_to e l `sublist_of` l.
Proof. unfold slice_to. apply sublist_take. Qed.

Section Search.

Variable toLowerCase : string → string.

Local Abbreviation text_match := (text_match toLowerCase).
Local Abbreviation filtered := (filtered toLowerCase).
Local Abbreviation searchNotes := (searchNotes toLowerCase).
Local Abbreviation wanted := (wanted toLowerCase).

Lemma tags_match_true ws n :
  tags_match ws n = Some true ↔ ∃ tag ts, tag ∈ ws ∧ tags n = Some ts ∧ tag ∈ ts.
Proof.
  unfold tags_match. destruct (tags n) as [ts|].
  - split.
    + intros [= H]. apply existsb_exists in H as (tag & Hin & Hb).
      apply bool_decide_eq_true in Hb. exists tag, ts. split; [|done].
      by apply list_elem_of_In.
    + intros (tag & ts' & Hin & [= <-] & Hts). f_equal. apply existsb_exists.
      exists tag. split; [by apply list_elem_of_In|by apply bool_decide_eq_true].
  - split; [done|]. by intros (? & ? & _ & ? & _).
Qed.

Lemma date_match_true range n :
  date_match range n = true ↔
  ∃ t a b, timestamp n = Some t ∧ range = (Some a, Some b) ∧ (a ≤ t ≤ b)%Z.
Proof.
  unfold date_match. destruct range as [[a|] [b|]], (timestamp n) as [t|]; simpl;
    try (split; [done|]; by intros (? & ? & ? & ? & ? & _)).
  rewrite andb_true_iff, !Z.leb_le. split.
  - intros H. by exists t, a, b.
  - intros (t' & a' & b' & ? & ? & ?). by simplify_eq.
Qed.

(** What the filters keep: the stored notes that are wanted, in the order
    of the store. *)
Lemma filtered_Some p allNotes l :
  filtered p allNotes = Some l →
  l `sublist_of` allNotes ∧ ∀ n, n ∈ l ↔ n ∈ allNotes ∧ wanted p n.
Proof.
  unfold Notes.filtered, Notes.wanted. intros H.
  destruct (if decide (query p = "") then Some allNotes
            else filter_or_throw (text_match (toLowerCase (query p))) allNotes)
    as [l1|] eqn:H1; simpl in H; [|done].
  assert (S1 : l1 `sublist_of` allNotes ∧
               ∀ n, n ∈ l1 ↔ n ∈ allNotes ∧
                 (query p = "" ∨ text_match (toLowerCase (query p)) n = Some true)).
  { destruct (decide (query p = "")) as [Hq|Hq].
    - simplify_eq. split; [done|]. intros n. split; [intros ?; split; [done|by left]|by intros [? _]].
    - apply filter_or_throw_Some in H1 as [-> _]. split; [apply sublist_filter|].
      intros n. rewrite list_elem_of_filter. split.
      + intros [? ?]. split; [done|by right].
      + intros [? [?|?]]; [done|done]. }
  clear H1. destruct S1 as [S1 M1].
  set (l2 := if decide (p_category p = "") then l1
             else filter (λ n, category_match (p_category p) n = true) l1) in *.
  assert (S2 : l2 `sublist_of` l1 ∧
               ∀ n, n ∈ l2 ↔ n ∈ l1 ∧ (p_category p = "" ∨ category n = Some (p_category p))).
  { subst l2. destruct (decide (p_category p = "")) as [Hc|Hc].
    - split; [done|]. intros n. split; [intros ?; split; [done|by left]|by intros [? _]].
    - split; [apply sublist_filter|]. intros n. rewrite list_elem_of_filter.
      unfold category_match. rewrite bool_decide_eq_true. split.
      + intros [? ?]. split; [done|by right].
      + intros [? [?|?]]; [done|done]. }
  destruct S2 as [S2 M2]. clearbody l2.
  destruct (if decide (p_tags p = []) then Some l2
            else filter_or_throw (tags_match (p_tags p)) l2) as [l3|] eqn:H3; simpl in H; [|done].
  assert (S3 : l3 `sublist_of` l2 ∧
               ∀ n, n ∈ l3 ↔ n ∈ l2 ∧
                 (p_tags p = [] ∨ ∃ tag ts, tag ∈ p_tags p ∧ tags n = Some ts ∧ tag ∈ ts)).
  { destruct (decide (p_tags p = [])) as [Ht|Ht].
    - simplify_eq. split; [done|]. intros n. split; [intros ?; split; [done|by left]|by intros [? _]].
    - apply filter_or_throw_Some in H3 as [-> _]. split; [apply sublist_filter|].
      intros n. rewrite list_elem_of_filter, tags_match_true. split.
      + intros [? ?]. split; [done|by right].
      + intros [? [?|?]]; [done|done]. }
  clear H3. destruct S3 as [S3 M3].
  injection H as <-.
  split.
  - etrans; [|exact S1]. etrans; [|exact S2]. etrans; [|exact S3].
    destruct (dateRange p); [apply sublist_filter|done].
  - intros n. destruct (dateRange p) as [range|].
    + rewrite list_elem_of_filter, date_match_true, M3, M2, M1. split.
      * intros (Hd & ((? & ?) & ?) & ?). split; [done|]. split_and!; try done.
        intros range' [= <-]. done.
      * intros (? & ? & ? & ? & Hd). split; [by apply Hd|done].
    + rewrite M3, M2, M1. split.
      * intros (((? & ?) & ?) & ?). split; [done|]. split_and!; done.
      * intros (? & ? & ? & ? & _). done.
Qed.

(** With every member in place no filter throws. *)
Lemma filtered_complete p allNotes :
  (∀ n, n ∈ allNotes → complete n) → is_Some (filtered p allNotes).
Proof.
  intros Hc. unfold Notes.filtered.
  destruct (if decide (query p = "") then Some allNotes
            else filter_or_throw (text_match (toLowerCase (query p))) allNotes)
    as [l1|] eqn:H1.
  2:{ destruct (decide (query p = "")) as [Hq|Hq]; [done|].
      apply filter_or_throw_None in H1 as (n & Hn & Ht).
      destruct (Hc n Hn) as ([t Ht'] & [c Hc'] & [ts Hts]).
      unfold Notes.text_match in Ht. rewrite Ht', Hc', Hts in Ht.
      by repeat destruct (includes _ _). }
  assert (S1 : l1 `sublist_of` allNotes).
  { destruct (decide (query p = "")) as [Hq|Hq]; [by simplify_eq|].
    apply filter_or_throw_Some in H1 as [-> _]. apply sublist_filter. }
  simpl.
  set (l2 := if decide (p_category p = "") then l1
             else filter (λ n, category_match (p_category p) n = true) l1).
  assert (S2 : l2 `sublist_of` l1).
  { subst l2. destruct (decide (p_category p = "")) as [Hcat|Hcat]; [done|apply sublist_filter]. }
  destruct (if decide (p_tags p = []) then Some l2
            else filter_or_throw (tags_match (p_tags p)) l2) as [l3|] eqn:H3; simpl; [done|].
  destruct (decide (p_tags p = [])) as [Htg|Htg]; [done|].
  apply filter_or_throw_None in H3 as (n & Hn & Ht).
  assert (Hin : n ∈ allNotes).
  { eapply elem_of_sublist; [|exact S1]. eapply elem_of_sublist; [exact Hn|exact S2]. }
  destruct (Hc n Hin) as (_ & _ & [ts Hts]). unfold tags_match in Ht. by rewrite Hts in Ht.
Qed.


(** X26, a search over notes with all their members.  When every stored
    note has a title, a content and tags, no filter fails: the search
    returns the stored notes that pass the filters, in the order of the
    store, cut by the limit; a limit that is not negative keeps that many
    from the front, a negative limit drops that many from the end.  The
    event is emitted with the number of notes returned. *)
Theorem searchNotes_finds_every_match (p : params) (allNotes : list note) :
  (∀ n, n ∈ allNotes → complete n) →
  ∃ matches,
    matches `sublist_of` allNotes ∧
    (∀ n, n ∈ matches ↔ n ∈ allNotes ∧ wanted p n) ∧
    searchNotes p (Some allNotes) =
      (slice_to (limit p) matches, Some (length (slice_to (limit p) matches))) ∧
    ((0 ≤ limit p)%Z → slice_to (limit p) matches = take (Z.to_nat (limit p)) matches) ∧
    ((limit p < 0)%Z →
       slice_to (limit p) matches = take (length matches - Z.to_nat (- limit p)) matches).
Proof.
  intros Hc. destruct (filtered_complete p allNotes Hc) as [l Hl].
  destruct (filtered_Some p allNotes l Hl) as [Hs Hm].
  exists l. split; [done|]. split; [done|]. split.
  - unfold Notes.searchNotes. simpl. by rewrite Hl.
  - split; [apply slice_to_nonneg|apply slice_to_neg].
Qed.

(** X27, one note without a title empties the search.  When the query is
    not empty and some stored note has no title, the search resolves with
    no note at all, whatever the other notes are, and no event is
    emitted.  The same holds for a note whose title does not contain the
    query and that has no content. *)
Theorem one_malformed_note_empties_the_search (p : params) (allNotes : list note) (n : note) :
  query p ≠ "" → n ∈ allNotes →
  title n = None ∨
  (∃ t, title n = Some t ∧ includes (toLowerCase (query p)) (toLowerCase t) = false ∧
        content n = None) →
  searchNotes p (Some allNotes) = ([], None).
Proof.
  intros Hq Hn Hbad. unfold Notes.searchNotes, Notes.filtered. simpl.
  rewrite decide_False by done.
  assert (Hthrow : filter_or_throw (text_match (toLowerCase (query p))) allNotes = None).
  { apply filter_or_throw_None. exists n. split; [done|]. unfold Notes.text_match.
    destruct Hbad as [->|(t & -> & -> & ->)]; done. }
  by rewrite Hthrow.
Qed.

End Search.

(** On [shelf], the query ['tea'] finds nothing although two notes
    contain it: the second note has no title. *)
Lemma one_malformed_note_empties_the_search_witness :
  query (Params "tea" "" [] None 100) ≠ "" ∧
  Notes.searchNotes (λ s, s) (Params "tea" "" [] None 100) (Some shelf) = ([], None).
Proof.
  assert (Hq : query (Params "tea" "" [] None 100) ≠ "") by discriminate.
  split; [exact Hq|].
  apply (one_malformed_note_empties_the_search (λ s, s) (Params "tea" "" [] None 100) shelf
           (Note "2" None (Some "black tea") (Some []) (Some "Misc") (Some 20%Z)) Hq).
  - right. by left.
  - by left.
Defined.

(** The notes of [tidy_shelf] and a negative limit. *)
Lemma searchNotes_finds_every_match_witness :
  (∀ n, n ∈ tidy_shelf → complete n) ∧
  ∃ matches : list note,
    Notes.searchNotes (λ s, s) (Params "" "Misc" ["drink"] None (-1)) (Some tidy_shelf)
    = (slice_to (-1) matches, Some (length (slice_to (-1) matches))).
Proof.
  assert (Hc : ∀ n, n ∈ tidy_shelf → complete n).
  { intros n Hn. apply elem_of_cons in Hn as [->|Hn].
    - repeat split; by eexists.
    - apply list_elem_of_singleton in Hn as ->. repeat split; by eexists. }
  split; [exact Hc|].
  destruct (searchNotes_finds_every_match (λ s, s) (Params "" "Misc" ["drink"] None (-1))
              tidy_shelf Hc) as (matches & _ & _ & H & _).
  exists matches. exact H.
Defined.

End NotesFacts.
